(** * doit.py: a wrapper around vagrant, ansible-lint and ansible-vault

    A shallow embedding of [doit.py] and of the part of the Python runtime
    it rests on ([subprocess.run], keyword-argument binding, [os.path.join],
    and [argparse] as shipped with CPython 3.11), followed by the theorems
    that settle what the command dispatcher does. *)

From stdpp Require Import gmap strings list.
From Stdlib Require Import ZArith String Ascii.

Open Scope string_scope.
Open Scope Z_scope.
Open Scope list_scope.

(** ** Python values that flow through the program

    Attribute values of an [argparse.Namespace] in this program are [None],
    a [str], or (through the way argparse strips a [--] it was handed as an
    option value) a [list]. *)

Inductive pyval : Type :=
  | PyNone
  | PyStr (s : string)
  | PyList (l : list string).

#[global] Instance pyval_eq_dec : EqDecision pyval.
Proof. solve_decision. Defined.

(** ** External processes and exceptions *)

(** What [subprocess.run] is asked to start: the command tokens and the
    [cwd] argument ([None]: the child inherits the dispatcher's own working
    directory). *)
Record invocation : Type := Invocation {
  inv_cmd : list string;
  inv_cwd : option string
}.

#[global] Instance invocation_eq_dec : EqDecision invocation.
Proof. solve_decision. Defined.

(** How an invocation ended: the child ran and exited with a return code,
    or it could not be started at all ([OSError], such as a missing
    executable or directory). *)
Inductive completed : Type :=
  | Exited (returncode : Z)
  | NotStarted.

(** The outside world is an oracle: given the invocations made so far and
    the next one, it says how that one ends. *)
Definition world : Type := list invocation -> invocation -> completed.

(** Why [parser.exit] was called. *)
Inductive diagnostic : Type :=
  | HelpPrinted
  | AmbiguousOption (arg : string)
  | IgnoredExplicitArgument (arg : string)
  | ExpectedOneArgument (option_string : string)
  | InvalidChoice (value : string)
  | RequiredArguments (dests : list string)
  | UnrecognizedArguments (extras : list string)
  | MustChooseSubcommand
  | NotImplementedYet (subcommand : string).

Inductive type_error : Type :=
  | MissingArgument (name : string)
  | UnexpectedKeyword (name : string)
  | NotPathLike
  | NotCallable.

Inductive exn : Type :=
  | CalledProcessError (returncode : Z) (cmd : list string)
  | OSError
  | TypeError (why : type_error)
  | NameError (name : string)
  | AttributeError (name : string)
  | SystemExit (code : Z) (why : diagnostic).

(** ** The monad of the program: a world to ask, a trace of invocations to
    extend, and an exception or a result. *)

Definition M (A : Type) : Type :=
  world -> list invocation -> list invocation * (exn + A).

Definition ret {A} (a : A) : M A := fun _ tr => (tr, inr a).
Definition raise {A} (e : exn) : M A := fun _ tr => (tr, inl e).
Definition bind {A B} (m : M A) (k : A -> M B) : M B :=
  fun w tr =>
    match m w tr with
    | (tr', inl e) => (tr', inl e)
    | (tr', inr a) => k a w tr'
    end.

#[global] Instance M_ret : MRet M := @ret.
#[global] Instance M_bind : MBind M := fun A B k m => bind m k.

(** [try: m except NameError: h] *)
Definition try_except_NameError {A} (m : M A) (h : string -> M A) : M A :=
  fun w tr =>
    match m w tr with
    | (tr', inl (NameError n)) => h n w tr'
    | r => r
    end.

(** [subprocess.run(cmd, check=True, cwd=workdir)] on well-typed
    arguments: the child is started, waited for, and a non-zero return code
    raises [CalledProcessError]. *)
Definition spawn (i : invocation) : M unit :=
  fun w tr =>
    match w tr i with
    | Exited rc =>
        if decide (rc = 0) then (tr ++ [i], inr tt)
        else (tr ++ [i], inl (CalledProcessError rc (inv_cmd i)))
    | NotStarted => (tr ++ [i], inl OSError)
    end.

(** The tokens of a command must all be strings. *)
Fixpoint str_tokens (cmd : list pyval) : option (list string) :=
  match cmd with
  | [] => Some []
  | PyStr s :: rest =>
      match str_tokens rest with
      | Some l => Some (s :: l)
      | None => None
      end
  | _ :: _ => None
  end.

(** ** Base utility commands *)

Definition ANSIBLE_LINT_CMD : list pyval := [PyStr "ansible-lint"].
Definition ANSIBLE_VAULT_CMD : list pyval := [PyStr "ansible-vault"].
Definition VAGRANT_DESTROY_CMD : list pyval := [PyStr "vagrant"; PyStr "destroy"].
Definition VAGRANT_REPROVISION_CMD : list pyval := [PyStr "vagrant"; PyStr "provision"].
Definition VAGRANT_SSH_CMD : list pyval := [PyStr "vagrant"; PyStr "ssh"].
Definition VAGRANT_STATUS_CMD : list pyval := [PyStr "vagrant"; PyStr "status"].
Definition VAGRANT_UP_CMD : list pyval := [PyStr "vagrant"; PyStr "up"].
Definition VAGRANT_VALIDATE_CMD : list pyval := [PyStr "vagrant"; PyStr "validate"].

(** ** Useful functions *)

(** [run(cmd, check=True, cwd=workdir)]; a token or a working directory
    that is not a string is refused by [Popen] with a [TypeError] before
    anything is started. *)
Definition run_cmd_and_exit (cmd : list pyval) (workdir : pyval) : M unit :=
  match str_tokens cmd, workdir with
  | Some toks, PyNone => spawn (Invocation toks None)
  | Some toks, PyStr d => spawn (Invocation toks (Some d))
  | _, _ => raise (TypeError NotPathLike)
  end.

(** ** Vagrant functions *)

Definition validate_vagrant (vagrantfile_path : pyval) : M unit :=
  run_cmd_and_exit VAGRANT_VALIDATE_CMD vagrantfile_path.

(** ** Ansible functions *)

Definition validate_ansible (playbook_path : pyval) : M unit :=
  let cmd := ANSIBLE_LINT_CMD ++ [playbook_path] in
  run_cmd_and_exit cmd PyNone.

Definition validate (vagrantfile_path playbook_path : pyval) : M unit :=
  validate_vagrant vagrantfile_path;;
  validate_ansible playbook_path.

Definition setup (vagrantfile_path playbook_path : pyval) : M unit :=
  validate vagrantfile_path playbook_path;;
  run_cmd_and_exit VAGRANT_UP_CMD vagrantfile_path.

Definition status (vagrantfile_path : pyval) : M unit :=
  run_cmd_and_exit VAGRANT_STATUS_CMD vagrantfile_path.

Definition enter (vagrantfile_path : pyval) : M unit :=
  run_cmd_and_exit VAGRANT_SSH_CMD vagrantfile_path.

Definition reprovision (vagrantfile_path playbook_path : pyval) : M unit :=
  validate vagrantfile_path playbook_path;;
  run_cmd_and_exit VAGRANT_REPROVISION_CMD vagrantfile_path.

Definition destroy (vagrantfile_path : pyval) : M unit :=
  run_cmd_and_exit VAGRANT_DESTROY_CMD vagrantfile_path.

Definition encrypt_vault (vault_file_path : pyval) : M unit :=
  let cmd := ANSIBLE_VAULT_CMD ++ [PyStr "encrypt"; vault_file_path] in
  run_cmd_and_exit cmd PyNone.

Definition edit_vault (vault_file_path : pyval) : M unit :=
  let cmd := ANSIBLE_VAULT_CMD ++ [PyStr "edit"; vault_file_path] in
  run_cmd_and_exit cmd PyNone.

Definition view_vault (vault_file_path : pyval) : M unit :=
  let cmd := ANSIBLE_VAULT_CMD ++ [PyStr "view"; vault_file_path] in
  run_cmd_and_exit cmd PyNone.

Definition rekey_vault (vault_file_path : pyval) : M unit :=
  let cmd := ANSIBLE_VAULT_CMD ++ [PyStr "rekey"; vault_file_path] in
  run_cmd_and_exit cmd PyNone.

(** ** Strings, the way the Python code handles them *)

Definition startswith (s p : string) : bool := String.prefix p s.

(** [s.split(c, 1)] when [c] occurs in [s]. *)
Fixpoint split_once (c : ascii) (s : string) : option (string * string) :=
  match s with
  | EmptyString => None
  | String d rest =>
      if Ascii.eqb d c then Some (EmptyString, rest)
      else match split_once c rest with
           | Some (l, r) => Some (String d l, r)
           | None => None
           end
  end.

Fixpoint contains (c : ascii) (s : string) : bool :=
  match s with
  | EmptyString => false
  | String d rest => Ascii.eqb d c || contains c rest
  end.

Fixpoint endswith_char (c : ascii) (s : string) : bool :=
  match s with
  | EmptyString => false
  | String d EmptyString => Ascii.eqb d c
  | String _ rest => endswith_char c rest
  end.

Fixpoint lstrip (c : ascii) (s : string) : string :=
  match s with
  | String d rest => if Ascii.eqb d c then lstrip c rest else s
  | EmptyString => EmptyString
  end.

Fixpoint replace_char (c by_ : ascii) (s : string) : string :=
  match s with
  | EmptyString => EmptyString
  | String d rest =>
      String (if Ascii.eqb d c then by_ else d) (replace_char c by_ rest)
  end.

(** [list.remove(x)]: drops the first occurrence, if any. *)
Fixpoint remove_first (x : string) (l : list string) : list string :=
  match l with
  | [] => []
  | y :: rest => if String.eqb y x then rest else y :: remove_first x rest
  end.

(** ** [os.path.join] and the defaults taken from the current directory *)

(** [posixpath.join(a, *p)]. *)
Definition join (a : string) (p : list string) : string :=
  fold_left
    (fun path b =>
       if startswith b "/" then b
       else if String.eqb path "" || endswith_char "/" path
            then (path ++ b)%string
            else (path ++ "/" ++ b)%string)
    p a.

(** ** argparse (CPython 3.11), as far as this program configures it:
    parsers whose options take no argument ([-h]) or exactly one
    ([nargs=None], [type=str], no [choices]), and a top-level parser whose
    only positional is the sub-command. *)

Module argparse.

Abbreviation Namespace := (gmap string pyval).

Inductive Action : Type :=
  | HelpAction (option_strings : list string)
  | StoreAction (option_strings : list string) (dest : string)
                (default : pyval) (required : bool).

Definition option_strings (a : Action) : list string :=
  match a with
  | HelpAction os => os
  | StoreAction os _ _ _ => os
  end.

(** The optionals of a parser, in the order they were added. *)
Abbreviation ArgumentParser := (list Action).

(** [ArgumentParser()] with [add_help=True]. *)
Definition new_parser : ArgumentParser := [HelpAction ["-h"; "--help"]].

(** The destination argparse derives from the first long option string. *)
Definition get_optional_dest (option_strings : list string) : string :=
  let long := filter (fun s => startswith s "--" = true) option_strings in
  let chosen := match long with
                | s :: _ => s
                | [] => match option_strings with s :: _ => s | [] => "" end
                end in
  replace_char "-" "_" (lstrip "-" chosen).

(** [parser.add_argument] with option strings, [type=str], and either a
    default or [required=True]. *)
Definition add_argument (parser : ArgumentParser) (option_strings : list string)
    (default : pyval) (required : bool) : ArgumentParser :=
  parser ++ [StoreAction option_strings (get_optional_dest option_strings)
                         default required].

(** [parser._option_string_actions], in insertion order. *)
Definition option_string_actions (parser : ArgumentParser)
    : list (string * Action) :=
  flat_map (fun a => map (fun s => (s, a)) (option_strings a)) parser.

Definition lookup_option (parser : ArgumentParser) (s : string)
    : option Action :=
  match List.find (fun sa => String.eqb (fst sa) s)
                  (option_string_actions parser) with
  | Some (_, a) => Some a
  | None => None
  end.

(** What [_parse_optional] makes of one argument string: [None] (it is a
    positional), a tuple [(action, option_string, explicit_arg)] whose
    action is [None] for an option the parser does not know, or the
    ambiguity error. *)
Inductive optional : Type :=
  | NotOptional
  | Optional (action : option Action) (option_string : string)
             (explicit_arg : option string)
  | Ambiguous.

Definition get_option_tuples (parser : ArgumentParser) (arg_string : string)
    : list (Action * string * option string) :=
  if startswith arg_string "--" then
    let '(option_prefix, explicit_arg) :=
      match split_once "=" arg_string with
      | Some (l, r) => (l, Some r)
      | None => (arg_string, None)
      end in
    flat_map (fun '(option_string, action) =>
                if startswith option_string option_prefix
                then [(action, option_string, explicit_arg)] else [])
             (option_string_actions parser)
  else
    let short_option_prefix := substring 0 2 arg_string in
    let short_explicit_arg := substring 2 (String.length arg_string) arg_string in
    flat_map (fun '(option_string, action) =>
                if String.eqb option_string short_option_prefix
                then [(action, option_string, Some short_explicit_arg)]
                else if startswith option_string arg_string
                then [(action, option_string, None)] else [])
             (option_string_actions parser).

Section parsing.

(** [parser._negative_number_matcher.match], the regular expression
    [^-\d+$|^-\d*\.\d+$]; the parsers here have no option that looks
    like a negative number. *)
Variable negative_number_matcher : string -> bool.

Definition parse_optional (parser : ArgumentParser) (arg_string : string)
    : optional :=
  if String.eqb arg_string "" then NotOptional
  else if negb (startswith arg_string "-") then NotOptional
  else match lookup_option parser arg_string with
  | Some action => Optional (Some action) arg_string None
  | None =>
  if Nat.eqb (String.length arg_string) 1 then NotOptional
  else
    let by_equals :=
      match split_once "=" arg_string with
      | Some (option_string, explicit_arg) =>
          match lookup_option parser option_string with
          | Some action => Some (action, option_string, explicit_arg)
          | None => None
          end
      | None => None
      end in
    match by_equals with
    | Some (action, option_string, explicit_arg) =>
        Optional (Some action) option_string (Some explicit_arg)
    | None =>
        match get_option_tuples parser arg_string with
        | _ :: _ :: _ => Ambiguous
        | [(action, option_string, explicit_arg)] =>
            Optional (Some action) option_string explicit_arg
        | [] =>
            if negative_number_matcher arg_string then NotOptional
            else if contains " " arg_string then NotOptional
            else Optional None arg_string None
        end
    end
  end.

(** One letter of [arg_strings_pattern] together with what was found:
    ['A'], ['-'] (the first [--]) or ['O']. *)
Inductive arg_class : Type :=
  | ClsA
  | ClsDash
  | ClsO (action : option Action) (option_string : string)
         (explicit_arg : option string).

Definition token : Type := string * arg_class.

Definition error {A} (d : diagnostic) : exn + A := inl (SystemExit 2 d).

(** The first loop of [_parse_known_args]. *)
Fixpoint classify (parser : ArgumentParser) (arg_strings : list string)
    : exn + list token :=
  match arg_strings with
  | [] => inr []
  | arg_string :: rest =>
      if String.eqb arg_string "--"
      then inr ((arg_string, ClsDash) :: map (fun s => (s, ClsA)) rest)
      else
        match parse_optional parser arg_string with
        | Ambiguous => error (AmbiguousOption arg_string)
        | found =>
            match classify parser rest with
            | inl e => inl e
            | inr toks =>
                inr ((arg_string,
                      match found with
                      | Optional a os ea => ClsO a os ea
                      | _ => ClsA
                      end) :: toks)
            end
        end
  end.

(** [(action, args, option_string)], and whether the next argument
    string was used up as the option's value. *)
Definition action_tuple : Type := Action * list string * string.

(** [_match_argument] of an option against the strings that follow. *)
Definition match_following (action : Action) (option_string : string)
    (next : option token) : exn + (list action_tuple * bool) :=
  match action with
  | HelpAction _ => inr ([(action, [], option_string)], false)
  | StoreAction _ _ _ _ =>
      match next with
      | Some (v, ClsA) => inr ([(action, [v], option_string)], true)
      | _ => error (ExpectedOneArgument option_string)
      end
  end.

(** The [while True] loop of [consume_optional] when an explicit
    argument is attached to the option string. *)
Fixpoint match_explicit (parser : ArgumentParser) (action : Action)
    (option_string explicit_arg : string) (next : option token)
    : exn + (list action_tuple * bool) :=
  match action with
  | StoreAction _ _ _ _ =>
      inr ([(action, [explicit_arg], option_string)], false)
  | HelpAction _ =>
      match explicit_arg with
      | String c rest =>
          if startswith option_string "--"
          then error (IgnoredExplicitArgument explicit_arg)
          else
            let option_string' := String "-" (String c EmptyString) in
            match lookup_option parser option_string' with
            | Some action' =>
                match
                  (if String.eqb rest ""
                   then match_following action' option_string' next
                   else match_explicit parser action' option_string' rest next)
                with
                | inl e => inl e
                | inr (tuples, used) =>
                    inr ((action, [], option_string) :: tuples, used)
                end
            | None => error (IgnoredExplicitArgument explicit_arg)
            end
      | EmptyString => error (IgnoredExplicitArgument explicit_arg)
      end
  end.

Definition consume_optional (parser : ArgumentParser) (action : Action)
    (option_string : string) (explicit_arg : option string)
    (next : option token) : exn + (list action_tuple * bool) :=
  match explicit_arg with
  | Some e => match_explicit parser action option_string e next
  | None => match_following action option_string next
  end.

(** [_get_values] for [nargs=None]: the first [--] is stripped, and a
    single string left is the value. *)
Definition get_values (arg_strings : list string) : pyval :=
  match remove_first "--" arg_strings with
  | [v] => PyStr v
  | l => PyList l
  end.

(** The namespace and the destinations seen so far. *)
Definition parse_state : Type := Namespace * list string.

Definition take_action (st : parse_state) (t : action_tuple)
    : exn + parse_state :=
  match t with
  | (HelpAction _, _, _) => inl (SystemExit 0 HelpPrinted)
  | (StoreAction _ dest _ _, args, _) =>
      inr (<[dest := get_values args]> (fst st), dest :: snd st)
  end.

Fixpoint take_actions (st : parse_state) (ts : list action_tuple)
    : exn + parse_state :=
  match ts with
  | [] => inr st
  | t :: rest =>
      match take_action st t with
      | inl e => inl e
      | inr st' => take_actions st' rest
      end
  end.

(** The main loop of [_parse_known_args] for a parser without
    positionals: what no option takes goes to [extras]. *)
Fixpoint consume (parser : ArgumentParser) (toks : list token)
    (st : parse_state) (extras : list string)
    : exn + (parse_state * list string) :=
  match toks with
  | [] => inr (st, extras)
  | (s, ClsA) :: rest | (s, ClsDash) :: rest
  | (s, ClsO None _ _) :: rest =>
      consume parser rest st (extras ++ [s])
  | (s, ClsO (Some action) option_string explicit_arg) :: rest =>
      match consume_optional parser action option_string explicit_arg
                             (head rest) with
      | inl e => inl e
      | inr (tuples, used) =>
          match take_actions st tuples with
          | inl e => inl e
          | inr st' =>
              if used
              then match rest with
                   | _ :: rest' => consume parser rest' st' extras
                   | [] => inr (st', extras)
                   end
              else consume parser rest st' extras
          end
      end
  end.

(** The defaults [parse_known_args] puts into a fresh namespace. *)
Definition defaults (parser : ArgumentParser) : Namespace :=
  fold_left (fun ns a =>
               match a with
               | StoreAction _ dest default _ =>
                   match ns !! dest with
                   | Some _ => ns
                   | None => <[dest := default]> ns
                   end
               | HelpAction _ => ns
               end)
            parser ∅.

Definition required_actions (parser : ArgumentParser) (seen : list string)
    : list string :=
  flat_map (fun a =>
              match a with
              | StoreAction _ dest _ true =>
                  if bool_decide (dest ∈ seen) then [] else [dest]
              | _ => []
              end)
           parser.

(** [parser.parse_known_args(arg_strings, None)] of a sub-parser. *)
Definition parse_known_args (parser : ArgumentParser)
    (arg_strings : list string) : exn + (Namespace * list string) :=
  match classify parser arg_strings with
  | inl e => inl e
  | inr toks =>
      match consume parser toks (defaults parser, []) [] with
      | inl e => inl e
      | inr ((ns, seen), extras) =>
          match required_actions parser seen with
          | [] => inr (ns, extras)
          | missing => error (RequiredArguments missing)
          end
      end
  end.

(** The top-level parser: [-h], and the sub-command positional
    ([add_subparsers(dest=..)], [nargs=PARSER]) with its map from names
    to sub-parsers. *)
Record SubParsers : Type := {
  sub_dest : string;
  name_parser_map : list (string * ArgumentParser)
}.

Definition lookup_parser (sp : SubParsers) (name : string)
    : option ArgumentParser :=
  match List.find (fun np => String.eqb (fst np) name)
                  (name_parser_map sp) with
  | Some (_, p) => Some p
  | None => None
  end.

(** [_SubParsersAction.__call__] after the choice was checked. *)
Definition subparsers_call (sp : SubParsers) (ns : Namespace)
    (values : list string) : exn + (Namespace * list string) :=
  match values with
  | [] => inr (ns, [])
  | parser_name :: arg_strings =>
      match lookup_parser sp parser_name with
      | None => error (InvalidChoice parser_name)
      | Some parser =>
          match parse_known_args parser arg_strings with
          | inl e => inl e
          | inr (subnamespace, extras) =>
              inr (subnamespace ∪ <[sub_dest sp := PyStr parser_name]> ns,
                   extras)
          end
      end
  end.

(** The main loop of [_parse_known_args] for the top-level parser: the
    positional takes the first string that is not an option and
    everything after it. *)
Fixpoint consume_top (parser : ArgumentParser) (sp : SubParsers)
    (toks : list token) (ns : Namespace) (extras : list string)
    : exn + (Namespace * list string) :=
  match toks with
  | [] => inr (ns, extras)
  | [(s, ClsDash)] => inr (ns, extras ++ [s])
  | (s, ClsA) :: rest | (s, ClsDash) :: rest =>
      match subparsers_call sp ns (s :: map fst rest) with
      | inl e => inl e
      | inr (ns', sub_extras) => inr (ns', extras ++ sub_extras)
      end
  | (s, ClsO None _ _) :: rest =>
      consume_top parser sp rest ns (extras ++ [s])
  | (s, ClsO (Some action) option_string explicit_arg) :: rest =>
      match consume_optional parser action option_string explicit_arg
                             (head rest) with
      | inl e => inl e
      | inr (tuples, used) =>
          match take_actions (ns, []) tuples with
          | inl e => inl e
          | inr (ns', _) =>
              if used
              then match rest with
                   | _ :: rest' => consume_top parser sp rest' ns' extras
                   | [] => inr (ns', extras)
                   end
              else consume_top parser sp rest ns' extras
          end
      end
  end.

(** [parser.parse_args(argv)] of the top-level parser. *)
Definition parse_args (parser : ArgumentParser) (sp : SubParsers)
    (argv : list string) : exn + Namespace :=
  match classify parser argv with
  | inl e => inl e
  | inr toks =>
      match consume_top parser sp toks
                        (<[sub_dest sp := PyNone]> (defaults parser)) [] with
      | inl e => inl e
      | inr (ns, []) => inr ns
      | inr (_, extras) => error (UnrecognizedArguments extras)
      end
  end.

End parsing.

End argparse.

Import argparse.

(** ** Calling a function with a dictionary of keyword arguments *)

(** A [def] of the module: its named parameters, whether it ends in
    [**kwargs], and its body. *)
Inductive function : Type :=
  | Def1 (p1 : string) (var_keyword : bool) (body : pyval -> M unit)
  | Def2 (p1 p2 : string) (var_keyword : bool)
         (body : pyval -> pyval -> M unit).

Definition parameters (f : function) : list string :=
  match f with
  | Def1 p1 _ _ => [p1]
  | Def2 p1 p2 _ _ => [p1; p2]
  end.

Definition var_keyword (f : function) : bool :=
  match f with
  | Def1 _ vk _ => vk
  | Def2 _ _ vk _ => vk
  end.

(** The keywords no named parameter takes. *)
Definition surplus (f : function) (kw : Namespace) : list string :=
  filter (fun k => k ∉ parameters f) (map fst (map_to_list kw)).

(** The call of [f] with [**kw]: a keyword without a parameter is an error unless the
    function has [**kwargs]; a parameter without a keyword is an error. *)
Definition call (f : function) (kw : Namespace) : M unit :=
  match var_keyword f, surplus f kw with
  | false, k :: _ => raise (TypeError (UnexpectedKeyword k))
  | _, _ =>
      match f with
      | Def1 p1 _ body =>
          match kw !! p1 with
          | Some v1 => body v1
          | None => raise (TypeError (MissingArgument p1))
          end
      | Def2 p1 p2 _ body =>
          match kw !! p1, kw !! p2 with
          | Some v1, Some v2 => body v1 v2
          | None, _ => raise (TypeError (MissingArgument p1))
          | _, None => raise (TypeError (MissingArgument p2))
          end
      end
  end.

(** The functions of the module that take [**kwargs], by name: what
    [eval] finds when it looks the sub-command up. *)
Definition module_functions : list (string * function) :=
  [ ("validate", Def2 "vagrantfile_path" "playbook_path" true validate);
    ("validate_vagrant", Def1 "vagrantfile_path" true validate_vagrant);
    ("setup", Def2 "vagrantfile_path" "playbook_path" true setup);
    ("status", Def1 "vagrantfile_path" true status);
    ("enter", Def1 "vagrantfile_path" true enter);
    ("reprovision", Def2 "vagrantfile_path" "playbook_path" true reprovision);
    ("destroy", Def1 "vagrantfile_path" true destroy);
    ("validate_ansible", Def1 "playbook_path" true validate_ansible);
    ("encrypt_vault", Def1 "vault_file_path" true encrypt_vault);
    ("edit_vault", Def1 "vault_file_path" true edit_vault);
    ("view_vault", Def1 "vault_file_path" true view_vault);
    ("rekey_vault", Def1 "vault_file_path" true rekey_vault) ].

Definition lookup_function (name : string) : option function :=
  match List.find (fun nf => String.eqb (fst nf) name) module_functions with
  | Some (_, f) => Some f
  | None => None
  end.

(** The [eval] of the sub-command's name applied to [**all_arguments],
    for a sub-command that is one of the parser's choices. *)
Definition eval_call (subcommand : string) (all_arguments : Namespace)
    : M unit :=
  match lookup_function subcommand with
  | Some f => call f all_arguments
  | None => raise (NameError subcommand)
  end.

(** ** Argument Parser functions *)

Section doit.

(** [realpath('.')], the resolved current directory of the process. *)
Variable realpath_dot : string.

Definition add_argument_vagrantfile (parser : ArgumentParser)
    : ArgumentParser :=
  let default_vagrantfile_path := realpath_dot in
  add_argument parser ["--vagrantfile-path"; "-f"]
               (PyStr default_vagrantfile_path) false.

Definition default_playbook_path : string :=
  let default_vagrantfile_path := realpath_dot in
  join default_vagrantfile_path ["provisioning"; "playbook.yml"].

Definition add_argument_playbook (parser : ArgumentParser) : ArgumentParser :=
  add_argument parser ["--playbook-path"; "-p"]
               (PyStr default_playbook_path) false.

Definition add_argument_vault_file (parser : ArgumentParser)
    : ArgumentParser :=
  add_argument parser ["--vault-file-path"; "-f"] PyNone true.

(** [subparsers.add_parser(name, ..)] creates a parser and enters it into
    the map; the functions below return the map with that entry added. *)
Definition add_subparser_to_vagrant_command
    (subparsers : list (string * ArgumentParser)) (name : string)
    (include_playbook : bool) : list (string * ArgumentParser) :=
  let parser := new_parser in
  let parser := add_argument_vagrantfile parser in
  let parser := if include_playbook then add_argument_playbook parser
                else parser in
  subparsers ++ [(name, parser)].

Definition add_subparser_to_vault_command
    (subparsers : list (string * ArgumentParser)) (name : string)
    : list (string * ArgumentParser) :=
  let parser := new_parser in
  let parser := add_argument_vault_file parser in
  subparsers ++ [(name, parser)].

Definition create_subparsers (subparsers : list (string * ArgumentParser))
    : list (string * ArgumentParser) :=
  let subparsers := add_subparser_to_vagrant_command subparsers "setup" true in
  let subparsers := add_subparser_to_vagrant_command subparsers "status" false in
  let subparsers := add_subparser_to_vagrant_command subparsers "enter" false in
  let subparsers :=
    add_subparser_to_vagrant_command subparsers "reprovision" true in
  let subparsers := add_subparser_to_vagrant_command subparsers "destroy" false in
  let subparsers := add_subparser_to_vagrant_command subparsers "validate" true in
  let subparsers :=
    add_subparser_to_vagrant_command subparsers "validate_vagrant" false in
  let subparsers :=
    subparsers ++ [("validate_playbook", add_argument_playbook new_parser)] in
  let subparsers := add_subparser_to_vault_command subparsers "encrypt_vault" in
  let subparsers := add_subparser_to_vault_command subparsers "edit_vault" in
  let subparsers := add_subparser_to_vault_command subparsers "view_vault" in
  let subparsers := add_subparser_to_vault_command subparsers "rekey_vault" in
  subparsers.

(** ** Main function *)

Variable negative_number_matcher : string -> bool.

Definition subparsers : SubParsers :=
  {| sub_dest := "subcommand"; name_parser_map := create_subparsers [] |}.

(** A parser result or exit, inside the program. *)
Definition lift {A} (r : exn + A) : M A :=
  match r with
  | inl e => raise e
  | inr a => mret a
  end.

Definition parser_error {A} (d : diagnostic) : M A := raise (SystemExit 2 d).

Definition main (argv : list string) : M unit :=
  let parser := new_parser in
  args ← lift (parse_args negative_number_matcher parser subparsers argv);
  match args !! "subcommand" with
  | Some PyNone => parser_error MustChooseSubcommand
  | Some (PyStr subcommand) =>
      let all_arguments := args in
      try_except_NameError
        (eval_call subcommand all_arguments)
        (fun _ => parser_error (NotImplementedYet subcommand))
  | Some (PyList _) => raise (TypeError NotCallable)
  | None => raise (AttributeError "subcommand")
  end.

End doit.

(** ** The process as the shell sees it *)

(** The exit status of the interpreter: 0 when [main] returns, the code of
    a [SystemExit], and 1 after the traceback of any other exception. *)
Definition exit_status (r : exn + unit) : Z :=
  match r with
  | inr _ => 0
  | inl (SystemExit code _) => code
  | inl _ => 1
  end.

(** One run of the program from a fresh process. *)
Definition run_program (realpath_dot : string)
    (negative_number_matcher : string -> bool) (w : world)
    (argv : list string) : list invocation * (exn + unit) :=
  main realpath_dot negative_number_matcher argv w [].

(** The names of the catalog, as registered with the parser. *)
Definition catalog : list string :=
  [ "setup"; "status"; "enter"; "reprovision"; "destroy"; "validate";
    "validate_vagrant"; "validate_playbook"; "encrypt_vault"; "edit_vault";
    "view_vault"; "rekey_vault" ].

(** The regular expression [^-\d+$|^-\d*\.\d+$] over ASCII digits, for
    running examples. *)
Definition is_digit (c : ascii) : bool :=
  (48 <=? Z.of_nat (nat_of_ascii c)) && (Z.of_nat (nat_of_ascii c) <=? 57).

Fixpoint all_digits (s : string) : bool :=
  match s with
  | EmptyString => true
  | String c rest => is_digit c && all_digits rest
  end.

Definition strip_final_newline (s : string) : string :=
  if endswith_char "010" s then substring 0 (String.length s - 1) s else s.

Definition ascii_negative_number (s : string) : bool :=
  match strip_final_newline s with
  | String "-" body =>
      (negb (String.eqb body "") && all_digits body)
      || match split_once "." body with
         | Some (l, r) => all_digits l && negb (String.eqb r "") && all_digits r
         | None => false
         end
  | _ => false
  end.

(** * What the handlers do *)

(** Unfolding the monad down to the questions asked of the world. *)
Ltac unfold_monad :=
  unfold mbind, M_bind, mret, M_ret, bind, ret, raise, spawn in *.

Ltac ask_world :=
  repeat match goal with
         | |- context [match ?w ?h ?i with Exited _ => _ | NotStarted => _ end] =>
             let E := fresh "E" in destruct (w h i) as [?rc|] eqn:E; simpl
         | |- context [decide (?rc = 0)] => destruct (decide (rc = 0)); simpl
         end.

(** Goals about which invocations a short, explicit trace holds. *)
Ltac settle_membership :=
  repeat split; intros; simpl in *;
  repeat match goal with
         | H : _ \/ _ |- _ => destruct H
         | H : _ /\ _ |- _ => destruct H
         | H : _ ∈ _ :: _ |- _ => apply elem_of_cons in H as [H|H]
         | H : _ ∈ [] |- _ => by apply elem_of_nil in H
         | |- _ ∉ _ => intros ?
         end;
  try done; try congruence.

(** The three ways a process can end. *)
Lemma spawn_cases (i : invocation) (w : world) (tr : list invocation) :
  (w tr i = Exited 0 /\ spawn i w tr = (tr ++ [i], inr tt))
  \/ (exists rc, rc <> 0 /\ w tr i = Exited rc
       /\ spawn i w tr = (tr ++ [i], inl (CalledProcessError rc (inv_cmd i))))
  \/ (w tr i = NotStarted /\ spawn i w tr = (tr ++ [i], inl OSError)).
Proof.
  unfold spawn. destruct (w tr i) as [rc|]; [|by right; right].
  destruct (decide (rc = 0)) as [->|Hrc]; [by left|].
  right; left. by exists rc.
Qed.

Lemma run_cmd_and_exit_str (toks : list string) (d : string) (w : world)
    (tr : list invocation) :
  run_cmd_and_exit (map PyStr toks) (PyStr d) w tr
  = spawn (Invocation toks (Some d)) w tr.
Proof.
  unfold run_cmd_and_exit.
  assert (H : str_tokens (map PyStr toks) = Some toks).
  { induction toks as [|t toks IH]; simpl; [done | by rewrite IH]. }
  by rewrite H.
Qed.

Lemma run_cmd_and_exit_inherit (toks : list string) (w : world)
    (tr : list invocation) :
  run_cmd_and_exit (map PyStr toks) PyNone w tr
  = spawn (Invocation toks None) w tr.
Proof.
  unfold run_cmd_and_exit.
  assert (H : str_tokens (map PyStr toks) = Some toks).
  { induction toks as [|t toks IH]; simpl; [done | by rewrite IH]. }
  by rewrite H.
Qed.

(** The namespace argparse hands over for a command on a Vagrantfile and
    a playbook. *)
Definition vagrant_arguments (subcommand A B : string) : Namespace :=
  <["subcommand" := PyStr subcommand]>
    (<["vagrantfile_path" := PyStr A]> (<["playbook_path" := PyStr B]> ∅)).

Example setup_all_succeed :
  eval_call "setup" (vagrant_arguments "setup" "/vm" "/vm/play.yml")
            (fun _ _ => Exited 0) []
  = ([ Invocation ["vagrant"; "validate"] (Some "/vm");
       Invocation ["ansible-lint"; "/vm/play.yml"] None;
       Invocation ["vagrant"; "up"] (Some "/vm") ], inr tt).
Proof. reflexivity. Qed.

Example setup_lint_fails :
  eval_call "setup" (vagrant_arguments "setup" "/vm" "/vm/play.yml")
            (fun h _ => if decide (List.length h = 1%nat) then Exited 2 else Exited 0)
            []
  = ([ Invocation ["vagrant"; "validate"] (Some "/vm");
       Invocation ["ansible-lint"; "/vm/play.yml"] None ],
     inl (CalledProcessError 2 ["ansible-lint"; "/vm/play.yml"])).
Proof. reflexivity. Qed.

Lemma eval_call_setup (A B : string) :
  eval_call "setup" (vagrant_arguments "setup" A B) = setup (PyStr A) (PyStr B).
Proof. reflexivity. Qed.

(** C3. For the sub-command [setup] with Vagrantfile path [A] and playbook
    path [B], the validation of [(A, B)] comes first: the first process is
    [vagrant validate] in [A], and [ansible-lint B] follows once that has
    succeeded. [vagrant up] is started only as the third process, after
    both validations exited with zero; when either validation exits
    non-zero, [vagrant up] is never started. *)
Theorem setup_validates_before_up (A B : string) (w : world) :
  let vv := Invocation ["vagrant"; "validate"] (Some A) in
  let lint := Invocation ["ansible-lint"; B] None in
  let up := Invocation ["vagrant"; "up"] (Some A) in
  let tr := fst (eval_call "setup" (vagrant_arguments "setup" A B) w []) in
  tr !! 0%nat = Some vv
  /\ (w [] vv = Exited 0 -> tr !! 1%nat = Some lint)
  /\ (up ∈ tr ->
      tr = [vv; lint; up] /\ w [] vv = Exited 0 /\ w [vv] lint = Exited 0)
  /\ (forall rc, rc <> 0 ->
      w [] vv = Exited rc \/ (w [] vv = Exited 0 /\ w [vv] lint = Exited rc) ->
      up ∉ tr).
Proof.
  intros vv lint up tr. subst tr. rewrite eval_call_setup.
  change (setup (PyStr A) (PyStr B))
    with ((spawn vv;; spawn lint);; spawn up : M unit).
  unfold mbind, M_bind, bind.
  destruct (spawn_cases vv w []) as [[E1 ->]|[(rc1&?&E1&->)|[E1 ->]]];
    simpl; [|settle_membership..].
  destruct (spawn_cases lint w [vv]) as [[E2 ->]|[(rc2&?&E2&->)|[E2 ->]]];
    simpl; [|settle_membership..].
  destruct (spawn_cases up w [vv; lint]) as [[E3 ->]|[(rc3&?&E3&->)|[E3 ->]]];
    simpl; settle_membership.
Qed.

(** * Runs that agree with the world *)

(** Every invocation of [new], made after [tr], exited with zero. *)
Definition clean (w : world) (tr new : list invocation) : Prop :=
  forall k i, new !! k = Some i -> w (tr ++ take k new) i = Exited 0.

(** The exception a process raises when it does not end well. *)
Inductive failure (w : world) (h : list invocation) (i : invocation)
    : exn -> Prop :=
  | failure_status rc :
      w h i = Exited rc -> rc <> 0 ->
      failure w h i (CalledProcessError rc (inv_cmd i))
  | failure_start :
      w h i = NotStarted -> failure w h i OSError.

Definition process_exn (e : exn) : Prop :=
  match e with
  | CalledProcessError _ _ | OSError => True
  | _ => False
  end.

(** The shapes a run can have: it returns, or raises something of its
    own, after processes that all succeeded; or the last process started
    failed and its exception ended the run. *)
Inductive run_of {A} (w : world) (tr : list invocation)
    : list invocation -> exn + A -> Prop :=
  | run_returns new a : clean w tr new -> run_of w tr new (inr a)
  | run_raises new e :
      clean w tr new -> ~ process_exn e -> run_of w tr new (inl e)
  | run_fails pre i e :
      clean w tr pre -> failure w (tr ++ pre) i e ->
      run_of w tr (pre ++ [i]) (inl e).

Definition faithful {A} (m : M A) : Prop :=
  forall w tr, exists new,
    fst (m w tr) = tr ++ new /\ run_of w tr new (snd (m w tr)).

Lemma clean_nil (w : world) (tr : list invocation) : clean w tr [].
Proof. intros k i H. by rewrite lookup_nil in H. Qed.

Lemma clean_app (w : world) (tr new1 new2 : list invocation) :
  clean w tr new1 -> clean w (tr ++ new1) new2 -> clean w tr (new1 ++ new2).
Proof.
  intros H1 H2 k i Hk.
  destruct (decide (k < List.length new1)%nat) as [Hlt|Hge].
  - rewrite lookup_app_l in Hk by done.
    rewrite take_app_le by lia. by apply H1.
  - rewrite lookup_app_r in Hk by lia.
    rewrite take_app_ge by lia. rewrite app_assoc. by apply H2.
Qed.

Lemma run_of_app {A} (w : world) (tr new1 new2 : list invocation)
    (r : exn + A) :
  clean w tr new1 -> run_of w (tr ++ new1) new2 r ->
  run_of w tr (new1 ++ new2) r.
Proof.
  intros H1 H2. inversion H2; subst.
  - apply run_returns. by apply clean_app.
  - apply run_raises; [by apply clean_app | done].
  - rewrite app_assoc. apply run_fails; [by apply clean_app|].
    by rewrite app_assoc.
Qed.

Lemma faithful_ret {A} (a : A) : faithful (mret a).
Proof.
  intros w tr. exists []. simpl. rewrite app_nil_r.
  split; [done|]. apply run_returns, clean_nil.
Qed.

Lemma faithful_raise {A} (e : exn) : ~ process_exn e -> faithful (@raise A e).
Proof.
  intros He w tr. exists []. simpl. rewrite app_nil_r.
  split; [done|]. apply run_raises; [apply clean_nil | done].
Qed.

Lemma faithful_spawn (i : invocation) : faithful (spawn i).
Proof.
  intros w tr. exists [i].
  destruct (spawn_cases i w tr) as [[E ->]|[(rc&?&E&->)|[E ->]]]; simpl;
    (split; [done|]).
  - apply run_returns. intros [|k] j Hk; simplify_eq/=.
    by rewrite app_nil_r.
  - apply (run_fails w tr [] i); [apply clean_nil|].
    rewrite app_nil_r. by apply failure_status.
  - apply (run_fails w tr [] i); [apply clean_nil|].
    rewrite app_nil_r. by apply failure_start.
Qed.

Lemma faithful_bind {A B} (m : M A) (k : A -> M B) :
  faithful m -> (forall a, faithful (k a)) -> faithful (m ≫= k).
Proof.
  intros Hm Hk w tr. unfold mbind, M_bind, bind.
  destruct (Hm w tr) as (new1 & E1 & R1).
  destruct (m w tr) as [tr1 [e|a]]; simpl in *; subst tr1.
  - exists new1. split; [done|]. inversion R1; subst.
    + by apply run_raises.
    + by apply run_fails.
  - destruct (Hk a w (tr ++ new1)) as (new2 & E2 & R2).
    exists (new1 ++ new2). rewrite E2, app_assoc. split; [done|].
    apply run_of_app; [|done]. by inversion R1.
Qed.

Lemma faithful_try_except_NameError {A} (m : M A) (h : string -> M A) :
  faithful m -> (forall n, faithful (h n)) ->
  faithful (try_except_NameError m h).
Proof.
  intros Hm Hh w tr. unfold try_except_NameError.
  destruct (Hm w tr) as (new1 & E1 & R1).
  destruct (m w tr) as [tr1 [e|a]]; simpl in *; subst tr1.
  2: { exists new1. by split. }
  destruct e; try (exists new1; by split).
  destruct (Hh name w (tr ++ new1)) as (new2 & E2 & R2).
  exists (new1 ++ new2). rewrite E2, app_assoc. split; [done|].
  apply run_of_app; [|done]. inversion R1; subst; [done|].
  match goal with H : failure _ _ _ (NameError _) |- _ => inversion H end.
Qed.

Lemma faithful_run_cmd_and_exit (cmd : list pyval) (workdir : pyval) :
  faithful (run_cmd_and_exit cmd workdir).
Proof.
  unfold run_cmd_and_exit.
  destruct (str_tokens cmd), workdir;
    first [apply faithful_spawn | apply faithful_raise; simpl; tauto].
Qed.

Create HintDb faithful.
#[global] Hint Resolve faithful_ret faithful_spawn faithful_run_cmd_and_exit
  : faithful.
#[global] Hint Extern 1 (faithful (raise _)) =>
  (apply faithful_raise; simpl; tauto) : faithful.
#[global] Hint Extern 2 (faithful (_ ≫= _)) =>
  (apply faithful_bind; [|intros ?]) : faithful.

Lemma faithful_call (f : function) (kw : Namespace) :
  f ∈ map snd module_functions -> faithful (call f kw).
Proof.
  intros Hf. unfold module_functions in Hf. simpl in Hf.
  rewrite !elem_of_cons, elem_of_nil in Hf.
  repeat destruct Hf as [->|Hf]; [..|done];
    unfold call; simpl; repeat case_match;
    unfold setup, reprovision; unfold validate; unfold validate_vagrant,
      validate_ansible, status, enter, destroy, encrypt_vault,
      edit_vault, view_vault, rekey_vault;
    eauto 10 with faithful.
Qed.

Lemma lookup_function_Some (name : string) (f : function) :
  lookup_function name = Some f -> f ∈ map snd module_functions.
Proof.
  unfold lookup_function. intros H.
  destruct (List.find _ _) as [[n g]|] eqn:E; [|done].
  injection H as <-. apply find_some in E as [Hin _].
  apply list_elem_of_In in Hin.
  by apply (list_elem_of_fmap_2 snd) in Hin.
Qed.

Lemma faithful_eval_call (subcommand : string) (kw : Namespace) :
  faithful (eval_call subcommand kw).
Proof.
  unfold eval_call. destruct (lookup_function subcommand) eqn:E.
  - eapply faithful_call, lookup_function_Some, E.
  - auto with faithful.
Qed.

(** * What the argument parser does *)

Section parser_facts.

Variable negative_number_matcher : string -> bool.

#[local] Abbreviation parse_optional := (parse_optional negative_number_matcher).
#[local] Abbreviation classify := (classify negative_number_matcher).
#[local] Abbreviation parse_known_args := (parse_known_args negative_number_matcher).
#[local] Abbreviation subparsers_call := (subparsers_call negative_number_matcher).
#[local] Abbreviation consume_top := (consume_top negative_number_matcher).
#[local] Abbreviation parse_args :=
  (argparse.parse_args negative_number_matcher).

#[local] Arguments argparse.subparsers_call : simpl never.
#[local] Arguments argparse.parse_known_args : simpl never.
#[local] Arguments argparse.consume_optional : simpl never.

(** The parser leaves only through [parser.exit]: status 0 after the
    help, status 2 after an error. *)
Inductive parser_exit : exn -> Prop :=
  | exit_help : parser_exit (SystemExit 0 HelpPrinted)
  | exit_error d : d <> HelpPrinted -> parser_exit (SystemExit 2 d).

Definition exits {A} (r : exn + A) : Prop :=
  forall e, r = inl e -> parser_exit e.

Lemma exits_error {A} (d : diagnostic) :
  d <> HelpPrinted -> exits (@error A d).
Proof. intros Hd e [= <-]. by apply exit_error. Qed.

Lemma exits_inr {A} (a : A) : exits (inr a : exn + A).
Proof. intros e [=]. Qed.

(** The loops step over one token or two. *)
Lemma tokens_ind (P : list token -> Prop) :
  P [] -> (forall t rest, P rest -> P (tail rest) -> P (t :: rest)) ->
  forall toks, P toks.
Proof.
  intros Hnil Hcons toks.
  assert (H : P toks /\ P (tail toks)); [|by destruct H].
  induction toks as [|t rest [IH1 IH2]]; [done|].
  split; [by apply Hcons | done].
Qed.

Lemma classify_exits (p : ArgumentParser) (args : list string) :
  exits (classify p args).
Proof.
  induction args as [|a rest IH]; simpl; [apply exits_inr|].
  case_match; [apply exits_inr|].
  destruct (parse_optional p a);
    try (by apply exits_error);
    (destruct (classify p rest); [intros ? [= <-]; by apply IH | apply exits_inr]).
Qed.

Lemma match_following_exits (a : Action) (os : string) (next : option token) :
  exits (match_following a os next).
Proof.
  unfold match_following. repeat case_match;
    first [apply exits_inr | by apply exits_error].
Qed.

Lemma match_explicit_exits (p : ArgumentParser) (a : Action) (os e : string)
    (next : option token) :
  exits (match_explicit p a os e next).
Proof.
  revert a os. induction e as [|c rest IH]; intros a os; destruct a; simpl;
    try apply exits_inr; try (by apply exits_error).
  destruct (startswith os "--"); [by apply exits_error|].
  destruct (lookup_option p _) as [a'|]; [|by apply exits_error].
  assert (Hrec : exits
            (if String.eqb rest ""
             then match_following a' (String "-" (String c "")) next
             else match_explicit p a' (String "-" (String c "")) rest next)).
  { destruct (String.eqb rest ""); [apply match_following_exits | apply IH]. }
  destruct (if String.eqb rest "" then _ else _) as [?|[? ?]];
    [intros ? [= <-]; by apply Hrec | apply exits_inr].
Qed.

Lemma consume_optional_exits (p : ArgumentParser) (a : Action) (os : string)
    (ea : option string) (next : option token) :
  exits (consume_optional p a os ea next).
Proof.
  destruct ea; [apply match_explicit_exits | apply match_following_exits].
Qed.

Lemma take_actions_exits (st : parse_state) (ts : list action_tuple) :
  exits (take_actions st ts).
Proof.
  revert st. induction ts as [|[[a args] os] ts IH]; intros st; simpl;
    [apply exits_inr|].
  destruct a; simpl; [|apply IH].
  intros e [= <-]. apply exit_help.
Qed.

Lemma consume_exits (p : ArgumentParser) (toks : list token) (st : parse_state)
    (extras : list string) :
  exits (consume p toks st extras).
Proof.
  revert st extras. induction toks as [|[s c] rest IH1 IH2] using tokens_ind;
    intros st extras; simpl; [apply exits_inr|].
  destruct c as [| |[a|] os ea]; try apply IH1.
  pose proof (consume_optional_exits p a os ea (head rest)) as H1.
  destruct (consume_optional _ _ _ _ _) as [?|[tuples used]];
    [intros ? [= <-]; by apply H1|].
  pose proof (take_actions_exits st tuples) as H2.
  destruct (take_actions _ _) as [?|st']; [intros ? [= <-]; by apply H2|].
  destruct used; [|apply IH1].
  destruct rest; [apply exits_inr | apply IH2].
Qed.

Lemma parse_known_args_exits (p : ArgumentParser) (args : list string) :
  exits (parse_known_args p args).
Proof.
  unfold parse_known_args.
  pose proof (classify_exits p args) as H1.
  destruct (classify _ _) as [?|toks]; [intros ? [= <-]; eauto|].
  pose proof (consume_exits p toks (defaults p, []) []) as H2.
  destruct (consume _ _ _ _) as [?|[[ns seen] extras]]; [intros ? [= <-]; eauto|].
  destruct (required_actions _ _); [apply exits_inr | by apply exits_error].
Qed.

Lemma subparsers_call_exits (sp : SubParsers) (ns : Namespace)
    (values : list string) :
  exits (subparsers_call sp ns values).
Proof.
  unfold subparsers_call. destruct values as [|name args]; [apply exits_inr|].
  destruct (lookup_parser _ _) as [p|]; [|by apply exits_error].
  pose proof (parse_known_args_exits p args) as H.
  destruct (parse_known_args _ _) as [?|[? ?]]; [intros ? [= <-]; eauto | apply exits_inr].
Qed.

Lemma consume_top_exits (p : ArgumentParser) (sp : SubParsers)
    (toks : list token) (ns : Namespace) (extras : list string) :
  exits (consume_top p sp toks ns extras).
Proof.
  revert ns extras. induction toks as [|[s c] rest IH1 IH2] using tokens_ind;
    intros ns extras; [apply exits_inr|].
  assert (Hsub : forall vals, exits
            match subparsers_call sp ns vals with
            | inl e => inl e
            | inr (ns', sub_extras) => inr (ns', extras ++ sub_extras)
            end).
  { intros vals. pose proof (subparsers_call_exits sp ns vals) as H.
    destruct (subparsers_call _ _ _) as [?|[? ?]]; [intros ? [= <-]; eauto | apply exits_inr]. }
  destruct c as [| |[a|] os ea]; simpl.
  - apply Hsub.
  - destruct rest; [apply exits_inr | apply Hsub].
  - pose proof (consume_optional_exits p a os ea (head rest)) as H1.
    destruct (consume_optional _ _ _ _ _) as [?|[tuples used]];
      [intros ? [= <-]; by apply H1|].
    pose proof (take_actions_exits (ns, []) tuples) as H2.
    destruct (take_actions _ _) as [?|[ns' seen]]; [intros ? [= <-]; by apply H2|].
    destruct used; [|apply IH1].
    destruct rest; [apply exits_inr | apply IH2].
  - apply IH1.
Qed.

Lemma parse_args_exits (p : ArgumentParser) (sp : SubParsers)
    (argv : list string) :
  exits (parse_args p sp argv).
Proof.
  unfold argparse.parse_args.
  pose proof (classify_exits p argv) as H1.
  destruct (classify _ _) as [?|toks]; [intros ? [= <-]; eauto|].
  pose proof (consume_top_exits p sp toks
                (<[sub_dest sp := PyNone]> (defaults p)) []) as H2.
  destruct (consume_top _ _ _ _ _) as [?|[ns [|x extras]]];
    [intros ? [= <-]; eauto | apply exits_inr | by apply exits_error].
Qed.

End parser_facts.

Lemma parser_exit_not_process (e : exn) : parser_exit e -> ~ process_exn e.
Proof. intros []; simpl; tauto. Qed.

Lemma faithful_main (realpath_dot : string) (nnm : string -> bool)
    (argv : list string) :
  faithful (main realpath_dot nnm argv).
Proof.
  unfold main. apply faithful_bind.
  - unfold lift. case_match eqn:E; auto with faithful.
    apply faithful_raise, parser_exit_not_process.
    by eapply parse_args_exits.
  - intros args. repeat case_match; unfold parser_error; auto with faithful.
    apply faithful_try_except_NameError; [apply faithful_eval_call|].
    intros _. auto with faithful.
Qed.

(** * The exit status after a failing process *)

(** A process that exits non-zero is the last one, and its
    [CalledProcessError] is how the run ends. *)
Lemma run_of_nonzero {A} (w : world) (tr new : list invocation)
    (r : exn + A) (k : nat) (i : invocation) (rc : Z) :
  run_of w tr new r -> new !! k = Some i ->
  w (tr ++ take k new) i = Exited rc -> rc <> 0 ->
  r = inl (CalledProcessError rc (inv_cmd i)) /\ S k = List.length new.
Proof.
  intros Hrun Hk Hw Hrc.
  assert (Hclean : forall l, clean w tr l -> l !! k = Some i ->
                             tr ++ take k l = tr ++ take k new -> False).
  { intros l Hl Hlk Heq. specialize (Hl k i Hlk). rewrite Heq in Hl.
    congruence. }
  inversion Hrun as [new' a Hc|new' e Hc He|pre j e Hc Hf]; subst.
  - exfalso. by eapply Hclean.
  - exfalso. by eapply Hclean.
  - destruct (decide (k < List.length pre)%nat) as [Hlt|Hge].
    + exfalso. eapply (Hclean pre); [done| |].
      * by rewrite lookup_app_l in Hk.
      * by rewrite take_app_le by lia.
    + rewrite lookup_app_r in Hk by lia.
      destruct (k - List.length pre)%nat as [|n] eqn:En; [|done].
      simplify_eq/=. assert (k = List.length pre) as -> by lia.
      rewrite take_app_length in Hw.
      rewrite length_app. simpl. split; [|lia].
      inversion Hf; congruence.
Qed.

(** C4, as the code has it. Whenever a spawned process exits with a
    non-zero status, no further process is started and the program ends at
    once with the uncaught [CalledProcessError] that records that status
    and the command; the exit status of the program itself is then 1,
    whatever the status of the process was. *)
Theorem nonzero_exit_ends_the_program (realpath_dot : string)
    (negative_number_matcher : string -> bool) (w : world)
    (argv : list string) (k : nat) (i : invocation) (rc : Z) :
  let run := run_program realpath_dot negative_number_matcher w argv in
  fst run !! k = Some i ->
  w (take k (fst run)) i = Exited rc ->
  rc <> 0 ->
  snd run = inl (CalledProcessError rc (inv_cmd i))
  /\ exit_status (snd run) = 1
  /\ S k = List.length (fst run).
Proof.
  intros run Hk Hw Hrc. subst run. unfold run_program in *.
  destruct (faithful_main realpath_dot negative_number_matcher argv w [])
    as (new & E & Hrun).
  simpl in E. rewrite E in *.
  destruct (run_of_nonzero w [] new _ k i rc Hrun Hk Hw Hrc) as [-> Hlen].
  done.
Qed.

(** [vagrant status] exiting with 3. *)
Definition status_fails_with_3 : world := fun _ _ => Exited 3.

Lemma nonzero_exit_ends_the_program_witness :
  let run := run_program "/home/u/project" ascii_negative_number
                         status_fails_with_3 ["status"] in
  snd run = inl (CalledProcessError 3 ["vagrant"; "status"])
  /\ exit_status (snd run) = 1
  /\ 1%nat = List.length (fst run).
Proof.
  apply (nonzero_exit_ends_the_program
           "/home/u/project" ascii_negative_number status_fails_with_3
           ["status"] 0
           (Invocation ["vagrant"; "status"] (Some "/home/u/project")) 3).
  - reflexivity.
  - reflexivity.
  - lia.
Defined.

(** The claim of C4 fails: the only process of the run exits with status
    3, and the program exits with status 1. *)
Lemma exit_status_is_not_the_childs :
  let run := run_program "/home/u/project" ascii_negative_number
                         status_fails_with_3 ["status"] in
  fst run = [Invocation ["vagrant"; "status"] (Some "/home/u/project")]
  /\ status_fails_with_3 []
       (Invocation ["vagrant"; "status"] (Some "/home/u/project")) = Exited 3
  /\ exit_status (snd run) = 1
  /\ exit_status (snd run) <> 3.
Proof. vm_compute. repeat split; discriminate. Qed.

(** * One sub-command, its processes *)

(** The namespaces argparse hands over for a command on a Vagrantfile
    alone, and for a command on a vault file. *)
Definition vagrantfile_arguments (subcommand A : string) : Namespace :=
  <["subcommand" := PyStr subcommand]> (<["vagrantfile_path" := PyStr A]> ∅).

Definition vault_arguments (subcommand V : string) : Namespace :=
  <["subcommand" := PyStr subcommand]> (<["vault_file_path" := PyStr V]> ∅).

Lemma spawn_trace (i : invocation) (w : world) (tr : list invocation) :
  fst (spawn i w tr) = tr ++ [i].
Proof.
  by destruct (spawn_cases i w tr) as [[_ ->]|[(?&_&_&->)|[_ ->]]].
Qed.

Lemma spawn_succeeds (i : invocation) (w : world) (tr : list invocation) :
  w tr i = Exited 0 -> spawn i w tr = (tr ++ [i], inr tt).
Proof. intros E. unfold spawn. by rewrite E. Qed.

(** C2, as the code has it. Every sub-command of the catalog other than
    [validate_playbook], called with the arguments its parser provides,
    starts exactly one process with the tokens and the working directory
    below, whatever the world does; except that, when every process exits
    with zero, [validate] starts exactly two ([vagrant validate], then
    [ansible-lint]) and [setup] and [reprovision] exactly three (the two
    of [validate], then [vagrant up] or [vagrant provision]). *)
Theorem processes_of_each_subcommand (A B V : string) (w : world) :
  let run name kw := eval_call name kw w [] in
  let vv := Invocation ["vagrant"; "validate"] (Some A) in
  let lint := Invocation ["ansible-lint"; B] None in
  fst (run "status" (vagrantfile_arguments "status" A))
    = [Invocation ["vagrant"; "status"] (Some A)]
  /\ fst (run "enter" (vagrantfile_arguments "enter" A))
    = [Invocation ["vagrant"; "ssh"] (Some A)]
  /\ fst (run "destroy" (vagrantfile_arguments "destroy" A))
    = [Invocation ["vagrant"; "destroy"] (Some A)]
  /\ fst (run "validate_vagrant" (vagrantfile_arguments "validate_vagrant" A))
    = [vv]
  /\ fst (run "encrypt_vault" (vault_arguments "encrypt_vault" V))
    = [Invocation ["ansible-vault"; "encrypt"; V] None]
  /\ fst (run "edit_vault" (vault_arguments "edit_vault" V))
    = [Invocation ["ansible-vault"; "edit"; V] None]
  /\ fst (run "view_vault" (vault_arguments "view_vault" V))
    = [Invocation ["ansible-vault"; "view"; V] None]
  /\ fst (run "rekey_vault" (vault_arguments "rekey_vault" V))
    = [Invocation ["ansible-vault"; "rekey"; V] None]
  /\ ((forall h i, w h i = Exited 0) ->
      run "validate" (vagrant_arguments "validate" A B)
        = ([vv; lint], inr tt)
      /\ run "setup" (vagrant_arguments "setup" A B)
        = ([vv; lint; Invocation ["vagrant"; "up"] (Some A)], inr tt)
      /\ run "reprovision" (vagrant_arguments "reprovision" A B)
        = ([vv; lint; Invocation ["vagrant"; "provision"] (Some A)], inr tt)).
Proof.
  intros run vv lint. subst run.
  repeat (split; [apply (spawn_trace _ w [])|]).
  intros Hw.
  assert (Hs : forall i tr, spawn i w tr = (tr ++ [i], inr tt)).
  { intros i tr. apply spawn_succeeds, Hw. }
  repeat split.
  - change (eval_call "validate" (vagrant_arguments "validate" A B))
      with (spawn vv;; spawn lint : M unit).
    unfold mbind, M_bind, bind. by rewrite !Hs.
  - change (eval_call "setup" (vagrant_arguments "setup" A B))
      with ((spawn vv;; spawn lint);;
            spawn (Invocation ["vagrant"; "up"] (Some A)) : M unit).
    unfold mbind, M_bind, bind. by rewrite !Hs.
  - change (eval_call "reprovision" (vagrant_arguments "reprovision" A B))
      with ((spawn vv;; spawn lint);;
            spawn (Invocation ["vagrant"; "provision"] (Some A)) : M unit).
    unfold mbind, M_bind, bind. by rewrite !Hs.
Qed.

(** A world in which every process succeeds. *)
Definition all_succeed : world := fun _ _ => Exited 0.

(** The claim of C2 fails for [setup] (and likewise for [reprovision]):
    with valid arguments and every process succeeding, the program starts
    three processes, not two. *)
Lemma setup_spawns_three :
  let run := run_program "/home/u/project" ascii_negative_number all_succeed
                         ["setup"] in
  run = ([ Invocation ["vagrant"; "validate"] (Some "/home/u/project");
           Invocation ["ansible-lint";
                       "/home/u/project/provisioning/playbook.yml"] None;
           Invocation ["vagrant"; "up"] (Some "/home/u/project") ], inr tt)
  /\ List.length (fst run) = 3%nat
  /\ List.length (fst run) <> 2%nat.
Proof. vm_compute. repeat split. discriminate. Qed.

Example reprovision_spawns_three :
  fst (run_program "/home/u/project" ascii_negative_number all_succeed
                   ["reprovision"; "-f"; "/vm"; "-p"; "site.yml"])
  = [ Invocation ["vagrant"; "validate"] (Some "/vm");
      Invocation ["ansible-lint"; "site.yml"] None;
      Invocation ["vagrant"; "provision"] (Some "/vm") ].
Proof. vm_compute. reflexivity. Qed.

Example rekey_vault_spawns_one :
  run_program "/home/u/project" ascii_negative_number all_succeed
              ["rekey_vault"; "--vault-file-path"; "secrets.yml"]
  = ([Invocation ["ansible-vault"; "rekey"; "secrets.yml"] None], inr tt).
Proof. vm_compute. reflexivity. Qed.

(** * The linter sub-command *)

Example validate_playbook_is_not_implemented :
  run_program "/home/u/project" ascii_negative_number all_succeed
              ["validate_playbook"]
  = ([], inl (SystemExit 2 (NotImplementedYet "validate_playbook"))).
Proof. vm_compute. reflexivity. Qed.

Example validate_ansible_is_the_linter :
  eval_call "validate_ansible"
            (<["playbook_path" := PyStr "site.yml"]> ∅) all_succeed []
  = ([Invocation ["ansible-lint"; "site.yml"] None], inr tt).
Proof. vm_compute. reflexivity. Qed.

(** * Which argument string selects which option *)

#[global] Arguments startswith : simpl never.
Lemma append_String (a : ascii) (s r : string) :
  (String a s ++ r)%string = String a (s ++ r)%string.
Proof. reflexivity. Qed.

Lemma append_empty (r : string) : ("" ++ r)%string = r.
Proof. reflexivity. Qed.

Lemma substring_0_0 (s : string) : substring 0 0 s = "".
Proof. by destruct s. Qed.

Create Rewrite HintDb append.
#[global] Hint Rewrite append_String append_empty : append.

Ltac norm_append := autorewrite with append in *.

Ltac string_simpl :=
  repeat (progress (rewrite ?append_String, ?append_empty, ?substring_0_0 in *;
                    simpl in *)).

Lemma startswith_app (s p : string) :
  startswith s p = true <-> exists r, s = (p ++ r)%string.
Proof.
  unfold startswith. revert s.
  induction p as [|a p IH]; intros s; simpl.
  - destruct s; split; eauto.
  - destruct s as [|b s]; simpl; [split; [done | by intros [r [=]]]|].
    destruct (ascii_dec a b) as [->|Hne].
    + rewrite IH. split; intros [r Hr]; exists r; string_simpl; congruence.
    + split; [done | intros [r Hr]; string_simpl; congruence].
Qed.

Lemma startswith_refl (s : string) : startswith s s = true.
Proof.
  apply startswith_app. exists "". induction s; string_simpl; congruence.
Qed.

Lemma append_assoc (a b c : string) :
  ((a ++ b) ++ c = a ++ (b ++ c))%string.
Proof. induction a; string_simpl; congruence. Qed.

Lemma startswith_trans (s p q : string) :
  startswith s p = true -> startswith p q = true -> startswith s q = true.
Proof.
  rewrite !startswith_app. intros [r ->] [r' ->].
  exists (r' ++ r)%string. apply append_assoc.
Qed.

Lemma split_once_app (c : ascii) (s l r : string) :
  split_once c s = Some (l, r) -> s = (l ++ String c r)%string.
Proof.
  revert l. induction s as [|d s IH]; intros l; simpl; [done|].
  destruct (Ascii.eqb_spec d c) as [->|Hne]; [by intros [= <- <-]|].
  destruct (split_once c s) as [[l' r']|]; [|done].
  intros [= <- <-]. string_simpl. f_equal. by apply IH.
Qed.

(** The first three characters of an option string tell options apart:
    [-f], [--v], [--p], [--h]. *)
Definition first3 (s : string) : string := substring 0 3 s.

#[global] Arguments first3 : simpl never.

Lemma first3_startswith (s : string) : startswith s (first3 s) = true.
Proof.
  apply startswith_app. unfold first3.
  destruct s as [|a [|b [|c s]]];
    [exists ""|exists ""|exists ""|exists s]; by string_simpl.
Qed.

Lemma first3_String (a b c : ascii) (s : string) :
  first3 (String a (String b (String c s)))
  = String a (String b (String c "")).
Proof. unfold first3. by string_simpl. Qed.

(** Option strings with a single dash are one letter long. *)
Definition short_options (p : ArgumentParser) : bool :=
  forallb (fun sa => startswith (fst sa) "--"
                     || (String.length (fst sa) <=? 2)%nat)
          (option_string_actions p).

Lemma lookup_option_In (p : ArgumentParser) (s : string) (a : Action) :
  lookup_option p s = Some a -> In (s, a) (option_string_actions p).
Proof.
  unfold lookup_option.
  destruct (List.find _ _) as [[s' a']|] eqn:E; [|done].
  intros [= <-]. apply find_some in E as [Hin Heq]. simpl in Heq.
  apply String.eqb_eq in Heq. by subst.
Qed.

Section selection.

Variable negative_number_matcher : string -> bool.

#[local] Abbreviation parse_optional :=
  (argparse.parse_optional negative_number_matcher).

Lemma get_option_tuples_long (p : ArgumentParser) (t os : string)
    (a : Action) (ea : option string) :
  startswith t "--" = true -> t <> "--" ->
  In (a, os, ea) (get_option_tuples p t) ->
  In (os, a) (option_string_actions p)
  /\ (startswith t (first3 os) = true
      \/ exists e, t = ("--=" ++ e)%string /\ ea = Some e
                   /\ startswith os "--" = true).
Proof.
  intros Ht Hdash. unfold get_option_tuples. rewrite Ht.
  apply startswith_app in Ht as [r0 Ht].
  destruct (split_once "=" t) as [[q e]|] eqn:Es.
  - apply split_once_app in Es. intros Hin.
    apply in_flat_map in Hin as ([os' a'] & Hin & Hx).
    destruct (startswith os' q) eqn:Eq; [|done].
    destruct Hx as [[= -> -> <-]|[]]. split; [done|].
    apply startswith_app in Eq as [r ->].
    destruct q as [|c1 [|c2 [|c3 q]]]; subst t; norm_append.
    + simplify_eq.
    + simplify_eq.
    + simplify_eq. right. exists e. repeat split.
      apply startswith_app. by exists r.
    + left. rewrite first3_String. apply startswith_app.
      by exists (q ++ String "=" e)%string.
  - intros Hin.
    apply in_flat_map in Hin as ([os' a'] & Hin & Hx).
    destruct (startswith os' t) eqn:Eq; [|done].
    destruct Hx as [[= -> -> <-]|[]]. split; [done|].
    left. apply startswith_app in Eq as [r ->].
    destruct r0 as [|c3 r0]; [done|]. subst t.
    norm_append. rewrite first3_String.
    apply startswith_app. by exists r0.
Qed.

Lemma get_option_tuples_short (p : ArgumentParser) (t os : string)
    (a : Action) (ea : option string) :
  short_options p = true ->
  startswith t "--" = false -> (2 <= String.length t)%nat ->
  In (a, os, ea) (get_option_tuples p t) ->
  In (os, a) (option_string_actions p) /\ startswith t (first3 os) = true.
Proof.
  intros Hp Ht2 Hlen. unfold get_option_tuples. rewrite Ht2.
  destruct t as [|c1 [|c2 t]]; simpl in Hlen; try lia. clear Hlen.
  intros Hin. apply in_flat_map in Hin as ([os' a'] & Hin & Hx).
  destruct (String.eqb_spec os' (substring 0 2 (String c1 (String c2 t))))
    as [->|Hne].
  - destruct Hx as [[= -> <- <-]|[]]. split; [done|].
    simpl. rewrite substring_0_0.
    change (first3 (String c1 (String c2 "")))
      with (String c1 (String c2 "")).
    apply startswith_app. by exists t.
  - destruct (startswith os' (String c1 (String c2 t))) eqn:Eq; [|done].
    destruct Hx as [[= -> -> <-]|[]]. split; [done|].
    unfold short_options in Hp. rewrite forallb_forall in Hp.
    specialize (Hp _ Hin). simpl in Hp.
    apply startswith_app in Eq as [r ->].
    norm_append.
    apply orb_true_iff in Hp as [Hp|Hp].
    + exfalso. apply startswith_app in Hp as [r2 Hp].
      norm_append. simplify_eq.
      assert (startswith (String "-" (String "-" t)) "--" = true)
        by (apply startswith_app; by exists t).
      congruence.
    + apply Nat.leb_le in Hp. simpl in Hp.
      destruct t; [|simpl in Hp; lia].
      destruct r; [|norm_append; simpl in Hp; lia].
      apply first3_startswith.
Qed.

(** An argument string that argparse takes for an option of the parser
    starts with the first three characters of that option string (with
    the whole of it when the option is a single letter), or is of the form
    [--=e] and hands [e] to a long option. *)
Lemma parse_optional_selects (p : ArgumentParser) (t os : string)
    (a : Action) (ea : option string) :
  short_options p = true -> t <> "--" ->
  parse_optional p t = Optional (Some a) os ea ->
  In (os, a) (option_string_actions p)
  /\ (startswith t (first3 os) = true
      \/ exists e, t = ("--=" ++ e)%string /\ ea = Some e
                   /\ startswith os "--" = true).
Proof.
  intros Hp Hdash. unfold argparse.parse_optional.
  destruct (String.eqb_spec t "") as [->|Hne]; [done|].
  destruct (startswith t "-") eqn:Et; [simpl|done].
  destruct (lookup_option p t) as [a0|] eqn:El.
  { intros [= <- <- <-]. split; [by apply lookup_option_In|].
    left. apply first3_startswith. }
  destruct (Nat.eqb_spec (String.length t) 1) as [Hl|Hl]; [done|].
  destruct (split_once "=" t) as [[q e]|] eqn:Es.
  - destruct (lookup_option p q) as [a0|] eqn:Eq.
    + intros [= <- <- <-]. split; [by apply lookup_option_In|].
      left. apply split_once_app in Es. subst t.
      eapply startswith_trans; [|apply first3_startswith].
      apply startswith_app. eauto.
    + destruct (get_option_tuples p t) as [|[[a1 os1] ea1] [|]] eqn:Eg;
        repeat case_match; try done.
      intros [= <- <- <-].
      assert (Hin : In (a1, os1, ea1) (get_option_tuples p t))
        by (rewrite Eg; by left).
      destruct (startswith t "--") eqn:Edd.
      * by apply (get_option_tuples_long p t os1 a1 ea1).
      * destruct (get_option_tuples_short p t os1 a1 ea1) as [? ?];
          try done; [|by auto].
        destruct t as [|c1 [|c2 t]]; simpl in *; try done; lia.
  - destruct (get_option_tuples p t) as [|[[a1 os1] ea1] [|]] eqn:Eg;
      repeat case_match; try done.
    intros [= <- <- <-].
    assert (Hin : In (a1, os1, ea1) (get_option_tuples p t))
      by (rewrite Eg; by left).
    destruct (startswith t "--") eqn:Edd.
    * by apply (get_option_tuples_long p t os1 a1 ea1).
    * destruct (get_option_tuples_short p t os1 a1 ea1) as [? ?];
        try done; [|by auto].
      destruct t as [|c1 [|c2 t]]; simpl in *; try done; lia.
Qed.

End selection.

(** * What the parsing loop does to the namespace *)

(** A token that argparse took for the option storing into [d]. *)
Definition stores (d : string) (tok : token) : Prop :=
  exists oss def req os ea,
    snd tok = ClsO (Some (StoreAction oss d def req)) os ea.

(** A token that argparse took for the help option, and whose arguments
    it could match. *)
Definition help_taken (p : ArgumentParser) (tok : token) : Prop :=
  exists oss os ea next r,
    snd tok = ClsO (Some (HelpAction oss)) os ea
    /\ consume_optional p (HelpAction oss) os ea next = inr r.

Section consumption.

Variable negative_number_matcher : string -> bool.

#[local] Abbreviation parse_optional :=
  (argparse.parse_optional negative_number_matcher).
#[local] Abbreviation classify := (argparse.classify negative_number_matcher).

Lemma match_following_error (a : Action) (os : string) (next : option token)
    (e : exn) :
  match_following a os next = inl e -> exists d, e = SystemExit 2 d.
Proof.
  unfold match_following, error. repeat case_match; intros [=]; eauto.
Qed.

Lemma match_explicit_error (p : ArgumentParser) (a : Action) (os x : string)
    (next : option token) (e : exn) :
  match_explicit p a os x next = inl e -> exists d, e = SystemExit 2 d.
Proof.
  revert a os. induction x as [|c rest IH]; intros a os; destruct a; simpl;
    unfold error; try (intros [=]; eauto; fail).
  destruct (startswith os "--"); [intros [=]; eauto|].
  destruct (lookup_option p _) as [a'|]; [|intros [=]; eauto].
  destruct (String.eqb rest "").
  - destruct (match_following _ _ _) as [e'|[? ?]] eqn:E; [|done].
    intros [= <-]. by eapply match_following_error.
  - destruct (match_explicit _ _ _ _ _) as [e'|[? ?]] eqn:E; [|done].
    intros [= <-]. by eapply IH.
Qed.

Lemma consume_optional_error (p : ArgumentParser) (a : Action) (os : string)
    (ea : option string) (next : option token) (e : exn) :
  consume_optional p a os ea next = inl e -> exists d, e = SystemExit 2 d.
Proof.
  destruct ea; [apply match_explicit_error | apply match_following_error].
Qed.

(** Tuples that start with the help action end the parse when taken. *)
Lemma match_explicit_help (p : ArgumentParser) (oss : list string)
    (os x : string) (next : option token) (tuples : list action_tuple)
    (used : bool) :
  match_explicit p (HelpAction oss) os x next = inr (tuples, used) ->
  exists rest, tuples = (HelpAction oss, [], os) :: rest.
Proof.
  destruct x as [|c rest]; simpl; [done|].
  destruct (startswith os "--"); [done|].
  destruct (lookup_option p _) as [a'|]; [|done].
  destruct (if String.eqb rest "" then _ else _) as [?|[ts u]]; [done|].
  intros [= <- <-]. eauto.
Qed.

(** When the tuples of an option were taken and the parse went on, the
    option was a storing one, and its destination now holds a string or a
    list. *)
Lemma consume_optional_store (p : ArgumentParser) (a : Action) (os : string)
    (ea : option string) (next : option token) (tuples : list action_tuple)
    (used : bool) (st st' : parse_state) :
  consume_optional p a os ea next = inr (tuples, used) ->
  take_actions st tuples = inr st' ->
  exists oss d def req args,
    a = StoreAction oss d def req
    /\ st' = (<[d := get_values args]> (fst st), d :: snd st).
Proof.
  destruct a as [oss|oss d def req].
  - intros Hc Ht. exfalso. destruct ea as [x|]; simpl in Hc.
    + apply match_explicit_help in Hc as [rest ->]. done.
    + injection Hc as <- <-. done.
  - intros Hc Ht. exists oss, d, def, req.
    destruct ea as [x|]; simpl in Hc.
    + destruct x; injection Hc as <- <-; simpl in Ht;
        injection Ht as <-; eauto.
    + destruct next as [[v []]|]; try done.
      injection Hc as <- <-. simpl in Ht. injection Ht as <-. eauto.
Qed.

Lemma get_values_not_None (args : list string) : get_values args <> PyNone.
Proof. unfold get_values. by repeat case_match. Qed.

(** What no token stores into keeps its value, and is not marked seen;
    and no value becomes [None]. *)
Lemma consume_frame (p : ArgumentParser) (toks : list token)
    (st st' : parse_state) (extras extras' : list string) (d : string) :
  consume p toks st extras = inr (st', extras') ->
  (Forall (fun tok => ~ stores d tok) toks ->
   fst st' !! d = fst st !! d /\ (d ∈ snd st' -> d ∈ snd st))
  /\ (fst st' !! d = Some PyNone -> fst st !! d = Some PyNone).
Proof.
  revert st extras.
  induction toks as [|[s c] rest IH1 IH2] using tokens_ind;
    intros st extras; simpl.
  { intros [= <- <-]. by repeat split. }
  assert (Hskip : consume p rest st (extras ++ [s]) = inr (st', extras') ->
    (Forall (fun tok => ~ stores d tok) ((s, c) :: rest) ->
     fst st' !! d = fst st !! d /\ (d ∈ snd st' -> d ∈ snd st))
    /\ (fst st' !! d = Some PyNone -> fst st !! d = Some PyNone)).
  { intros H. destruct (IH1 _ _ H) as [Ha Hb]. split; [|done].
    intros HF. apply Ha. by inversion HF. }
  destruct c as [| |[a|] os ea]; try exact Hskip. clear Hskip.
  destruct (consume_optional p a os ea (head rest)) as [?|[tuples used]] eqn:Ec;
    [done|].
  destruct (take_actions st tuples) as [?|st1] eqn:Et; [done|].
  destruct (consume_optional_store _ _ _ _ _ _ _ _ _ Ec Et)
    as (oss & d0 & def & req & args & -> & ->).
  set (st1 := (<[d0:=get_values args]> (fst st), d0 :: snd st)).
  set (tok0 := (s, ClsO (Some (StoreAction oss d0 def req)) os ea)).
  assert (Hstep : forall rest',
    (Forall (fun tok => ~ stores d tok) (tok0 :: rest) ->
     Forall (fun tok => ~ stores d tok) rest') ->
    ((Forall (fun tok => ~ stores d tok) rest' ->
      fst st' !! d = fst st1 !! d /\ (d ∈ snd st' -> d ∈ snd st1))
     /\ (fst st' !! d = Some PyNone -> fst st1 !! d = Some PyNone)) ->
    (Forall (fun tok => ~ stores d tok) (tok0 :: rest) ->
     fst st' !! d = fst st !! d /\ (d ∈ snd st' -> d ∈ snd st))
    /\ (fst st' !! d = Some PyNone -> fst st !! d = Some PyNone)).
  { intros rest' Hsub [Ha Hb]. subst st1. simpl in *. split.
    - intros HF. destruct (Ha (Hsub HF)) as [Hl Hs].
      assert (d0 <> d).
      { intros ->. inversion HF as [|? ? Hn _]; subst. apply Hn.
        unfold stores, tok0. simpl. eauto 10. }
      rewrite lookup_insert_ne in Hl by done. split; [done|].
      intros Hin. apply Hs in Hin. apply elem_of_cons in Hin as [->|]; done.
    - intros Hn. specialize (Hb Hn).
      destruct (decide (d0 = d)) as [->|Hne].
      + rewrite lookup_insert_eq in Hb. injection Hb as Hb.
        by apply get_values_not_None in Hb.
      + by rewrite lookup_insert_ne in Hb. }
  destruct used.
  - destruct rest as [|tok rest'].
    + intros [= <- <-]. apply (Hstep []); [done|]. by repeat split.
    + intros H. apply (Hstep rest'); [|apply (IH2 _ _ H)].
      intros HF. inversion HF as [|? ? _ HF']; subst. by inversion HF'.
  - intros H. apply (Hstep rest); [|apply (IH1 _ _ H)].
    intros HF. by inversion HF.
Qed.

(** The parse prints the help only for a token it took for the help
    option. *)
Lemma consume_help (p : ArgumentParser) (toks : list token) (st : parse_state)
    (extras : list string) (d : diagnostic) :
  consume p toks st extras = inl (SystemExit 0 d) ->
  Exists (help_taken p) toks.
Proof.
  revert st extras.
  induction toks as [|[s c] rest IH1 IH2] using tokens_ind;
    intros st extras; simpl; [done|].
  destruct c as [| |[a|] os ea];
    try (intros H; apply Exists_cons_tl; by eapply IH1).
  destruct (consume_optional p a os ea (head rest)) as [e|[tuples used]] eqn:Ec.
  { intros [= ->]. by apply consume_optional_error in Ec as [? [=]]. }
  destruct (take_actions st tuples) as [e|st1] eqn:Et.
  - intros _. apply Exists_cons_hd. destruct a as [oss|oss d0 def req].
    + exists oss, os, ea, (head rest), (tuples, used). by split.
    + exfalso. destruct ea as [x|]; simpl in Ec.
      * destruct x; injection Ec as <- <-; done.
      * destruct (head rest) as [[v []]|]; try done.
        injection Ec as <- <-. done.
  - destruct used.
    + destruct rest as [|tok rest']; [done|].
      intros H. do 2 apply Exists_cons_tl. by eapply IH2.
    + intros H. apply Exists_cons_tl. by eapply IH1.
Qed.

(** Classification keeps the strings, and calls an option what
    [parse_optional] calls one. *)
Lemma classify_tokens (p : ArgumentParser) (args : list string)
    (toks : list token) :
  classify p args = inr toks ->
  map fst toks = args
  /\ Forall (fun tok => forall a os ea, snd tok = ClsO a os ea ->
              fst tok <> "--"
              /\ parse_optional p (fst tok) = Optional a os ea) toks.
Proof.
  revert toks. induction args as [|t rest IH]; intros toks; simpl.
  { intros [= <-]. by split. }
  destruct (String.eqb_spec t "--") as [->|Hne].
  { intros [= <-]. simpl. split.
    - f_equal. rewrite map_map. simpl. by rewrite map_id.
    - apply Forall_cons. split; [by intros ? ? ? [=]|].
      apply Forall_forall. intros tok Hin.
      apply list_elem_of_In, in_map_iff in Hin as (x & <- & _).
      by intros ? ? ? [=]. }
  destruct (parse_optional p t) as [|a os ea|] eqn:Ep; [| |done];
    (destruct (classify p rest) as [?|toks'] eqn:Ec; [done|]);
    intros [= <-]; destruct (IH _ eq_refl) as [Hm HF]; simpl;
    (split; [by f_equal|]); apply Forall_cons; (split; [|done]); simpl.
  - by intros ? ? ? [=].
  - by intros ? ? ? [= <- <- <-].
Qed.

Lemma classify_error (p : ArgumentParser) (args : list string) (e : exn) :
  classify p args = inl e -> exists d, e = SystemExit 2 d.
Proof.
  induction args as [|t rest IH]; simpl; [done|].
  destruct (String.eqb t "--"); [done|].
  destruct (parse_optional p t);
    try (destruct (classify p rest); [|done]; intros [= <-]; by apply IH).
  unfold error. intros [= <-]. eauto.
Qed.

End consumption.

(** * Which argument strings ask for the help, and which name an option *)

(** The argument strings argparse can read as [-h] or [--help]. *)
Definition help_like (t : string) : bool :=
  startswith t "-h" || startswith t "--h".

(** The argument strings argparse can read as the option [long]/[short]:
    those that start with the short option string, or with the first three
    characters of the long one. *)
Definition names_option (long short : string) (t : string) : bool :=
  startswith t (first3 long) || startswith t (first3 short).

(** The help option of a parser is [-h]/[--help]. *)
Definition standard_help (p : ArgumentParser) : bool :=
  forallb (fun sa => match snd sa with
                     | HelpAction _ =>
                         String.eqb (fst sa) "-h" || String.eqb (fst sa) "--help"
                     | StoreAction _ _ _ _ => true
                     end)
          (option_string_actions p).

(** The options of a parser that store into [d] are [long] and [short]. *)
Definition option_of (p : ArgumentParser) (d long short : string) : bool :=
  forallb (fun sa => match snd sa with
                     | StoreAction _ d' _ _ =>
                         negb (String.eqb d' d)
                         || String.eqb (fst sa) long
                         || String.eqb (fst sa) short
                     | HelpAction _ => true
                     end)
          (option_string_actions p).

Section named_options.

Variable negative_number_matcher : string -> bool.

#[local] Abbreviation parse_optional :=
  (argparse.parse_optional negative_number_matcher).
#[local] Abbreviation classify := (argparse.classify negative_number_matcher).
#[local] Abbreviation parse_known_args :=
  (argparse.parse_known_args negative_number_matcher).

Lemma help_token (p : ArgumentParser) (t os : string) (oss : list string)
    (ea : option string) (next : option token)
    (r : list action_tuple * bool) :
  short_options p = true -> standard_help p = true -> t <> "--" ->
  parse_optional p t = Optional (Some (HelpAction oss)) os ea ->
  consume_optional p (HelpAction oss) os ea next = inr r ->
  help_like t = true.
Proof.
  intros Hs Hh Hdash Hp Hc.
  destruct (parse_optional_selects _ p t os _ ea Hs Hdash Hp) as [Hin Ht].
  unfold standard_help in Hh. rewrite forallb_forall in Hh.
  specialize (Hh _ Hin). simpl in Hh.
  assert (Hos : os = "-h" \/ os = "--help").
  { apply orb_true_iff in Hh as [H|H]; apply String.eqb_eq in H; auto. }
  unfold help_like. apply orb_true_iff.
  destruct Ht as [Ht | (e & -> & -> & Hl)].
  - destruct Hos as [-> | ->]; [left | right]; exact Ht.
  - exfalso. destruct Hos as [-> | ->]; [done|].
    simpl in Hc. by destruct e.
Qed.

Lemma store_token (p : ArgumentParser) (d long short t os : string)
    (oss : list string) (def : pyval) (req : bool) (ea : option string) :
  short_options p = true -> option_of p d long short = true ->
  (forall e, parse_optional p ("--=" ++ e) = Ambiguous) ->
  t <> "--" ->
  parse_optional p t = Optional (Some (StoreAction oss d def req)) os ea ->
  names_option long short t = true.
Proof.
  intros Hs Ho Hamb Hdash Hp.
  destruct (parse_optional_selects _ p t os _ ea Hs Hdash Hp) as [Hin Ht].
  unfold option_of in Ho. rewrite forallb_forall in Ho.
  specialize (Ho _ Hin). simpl in Ho. rewrite String.eqb_refl in Ho.
  simpl in Ho.
  destruct Ht as [Ht | (e & -> & _)]; [|by rewrite Hamb in Hp].
  unfold names_option. apply orb_true_iff.
  apply orb_true_iff in Ho as [H|H]; apply String.eqb_eq in H; subst os; auto.
Qed.

(** The tokens of a classified argument list, read back as strings. *)
Lemma classified_store (p : ArgumentParser) (d long short : string)
    (args : list string) (toks : list token) :
  short_options p = true -> option_of p d long short = true ->
  (forall e, parse_optional p ("--=" ++ e) = Ambiguous) ->
  classify p args = inr toks ->
  Forall (fun t => names_option long short t = false) args ->
  Forall (fun tok => ~ stores d tok) toks.
Proof.
  intros Hs Ho Hamb Hc HF.
  apply classify_tokens in Hc as [Hm Ht]. subst args.
  rewrite Forall_forall in Ht. rewrite Forall_forall in HF.
  rewrite Forall_forall. intros tok Hin (oss & def & req & os & ea & E).
  destruct (Ht _ Hin _ _ _ E) as [Hdash Hp].
  assert (names_option long short (fst tok) = true)
    by (by eapply store_token).
  assert (names_option long short (fst tok) = false); [|congruence].
  apply HF. apply list_elem_of_In, in_map, list_elem_of_In, Hin.
Qed.

(** An option that is not named keeps its default. *)
Lemma parse_known_args_default (p : ArgumentParser) (d long short : string)
    (args extras : list string) (ns : Namespace) :
  short_options p = true -> option_of p d long short = true ->
  (forall e, parse_optional p ("--=" ++ e) = Ambiguous) ->
  Forall (fun t => names_option long short t = false) args ->
  parse_known_args p args = inr (ns, extras) ->
  ns !! d = defaults p !! d.
Proof.
  intros Hs Ho Hamb HF. unfold argparse.parse_known_args.
  destruct (classify p args) as [?|toks] eqn:Ec; [done|].
  destruct (consume p toks (defaults p, []) []) as [?|[[ns' seen] extras']] eqn:E;
    [done|].
  destruct (required_actions p seen); [|done]. intros [= <- <-].
  destruct (consume_frame p toks _ _ _ _ d E) as [Hf _].
  apply Hf. by eapply classified_store.
Qed.

Lemma required_actions_missing (p : ArgumentParser) (seen oss : list string)
    (d : string) (def : pyval) :
  In (StoreAction oss d def true) p -> d ∉ seen ->
  required_actions p seen <> [].
Proof.
  intros Hin Hd Hnil. unfold required_actions in Hnil.
  assert (H : In d (flat_map
    (fun a => match a with
              | StoreAction _ dest _ true =>
                  if bool_decide (dest ∈ seen) then [] else [dest]
              | _ => []
              end) p)); [|by rewrite Hnil in H].
  apply in_flat_map. exists (StoreAction oss d def true). split; [done|].
  rewrite bool_decide_eq_false_2 by done. by left.
Qed.

(** A required option that is not named ends the parse. *)
Lemma parse_known_args_required (p : ArgumentParser) (d long short : string)
    (oss : list string) (def : pyval) (args : list string) :
  short_options p = true -> option_of p d long short = true ->
  (forall e, parse_optional p ("--=" ++ e) = Ambiguous) ->
  In (StoreAction oss d def true) p ->
  Forall (fun t => names_option long short t = false) args ->
  exists e, parse_known_args p args = inl e.
Proof.
  intros Hs Ho Hamb Hin HF. unfold argparse.parse_known_args.
  destruct (classify p args) as [?|toks] eqn:Ec; [eauto|].
  destruct (consume p toks (defaults p, []) []) as [?|[[ns' seen] extras']] eqn:E;
    [eauto|].
  destruct (consume_frame p toks _ _ _ _ d E) as [Hf _].
  destruct Hf as [_ Hseen]; [by eapply classified_store|]. simpl in Hseen.
  assert (Hd : d ∉ seen).
  { intros H. apply Hseen in H. by apply elem_of_nil in H. }
  pose proof (required_actions_missing p seen oss d def Hin Hd).
  destruct (required_actions p seen); [done | unfold error; eauto].
Qed.

(** A sub-parser prints its help only for an argument string that asks
    for it. *)
Lemma parse_known_args_help (p : ArgumentParser) (args : list string)
    (d : diagnostic) :
  short_options p = true -> standard_help p = true ->
  parse_known_args p args = inl (SystemExit 0 d) ->
  Exists (fun t => help_like t = true) args.
Proof.
  intros Hs Hh. unfold argparse.parse_known_args.
  destruct (classify p args) as [e|toks] eqn:Ec.
  { intros [= ->]. by apply classify_error in Ec as [? [=]]. }
  destruct (consume p toks (defaults p, []) []) as [e|[[ns' seen] extras']] eqn:E.
  2: { destruct (required_actions p seen); done. }
  intros [= ->]. apply consume_help in E.
  apply classify_tokens in Ec as [Hm Ht]. subst args.
  apply Exists_exists in E as (tok & Hin & oss & os & ea & next & r & E1 & E2).
  rewrite Forall_forall in Ht. destruct (Ht _ Hin _ _ _ E1) as [Hdash Hp].
  apply Exists_exists. exists (fst tok). split.
  - apply list_elem_of_In, in_map, list_elem_of_In, Hin.
  - by eapply help_token.
Qed.

(** A destination no option of the parser stores into keeps its value. *)
Lemma parse_known_args_untouched (p : ArgumentParser) (d : string)
    (args extras : list string) (ns : Namespace) :
  short_options p = true ->
  (forall os oss def req,
      ~ In (os, StoreAction oss d def req) (option_string_actions p)) ->
  parse_known_args p args = inr (ns, extras) ->
  ns !! d = defaults p !! d.
Proof.
  intros Hs Hno. unfold argparse.parse_known_args.
  destruct (classify p args) as [?|toks] eqn:Ec; [done|].
  destruct (consume p toks (defaults p, []) []) as [?|[[ns' seen] extras']] eqn:E;
    [done|].
  destruct (required_actions p seen); [|done]. intros [= <- <-].
  destruct (consume_frame p toks _ _ _ _ d E) as [Hf _].
  apply Hf. apply classify_tokens in Ec as [_ Ht].
  eapply Forall_impl; [exact Ht|].
  intros tok H (oss & def & req & os & ea & Etok).
  destruct (H _ _ _ Etok) as [Hdash Hp].
  destruct (parse_optional_selects _ p _ _ _ _ Hs Hdash Hp) as [Hin _].
  by eapply Hno.
Qed.

(** Parsing never puts [None] into the namespace. *)
Lemma parse_known_args_not_None (p : ArgumentParser) (d : string)
    (args extras : list string) (ns : Namespace) :
  parse_known_args p args = inr (ns, extras) ->
  ns !! d = Some PyNone -> defaults p !! d = Some PyNone.
Proof.
  unfold argparse.parse_known_args.
  destruct (classify p args) as [?|toks] eqn:Ec; [done|].
  destruct (consume p toks (defaults p, []) []) as [?|[[ns' seen] extras']] eqn:E;
    [done|].
  destruct (required_actions p seen); [|done]. intros [= <- <-].
  by destruct (consume_frame p toks _ _ _ _ d E) as [_ Hn].
Qed.

End named_options.

(** * The top-level parser and its sub-parsers *)

Section top_level.

Variable negative_number_matcher : string -> bool.

#[local] Abbreviation parse_optional :=
  (argparse.parse_optional negative_number_matcher).
#[local] Abbreviation classify := (argparse.classify negative_number_matcher).
#[local] Abbreviation parse_known_args :=
  (argparse.parse_known_args negative_number_matcher).
#[local] Abbreviation consume_top :=
  (argparse.consume_top negative_number_matcher).
#[local] Abbreviation parse_args :=
  (argparse.parse_args negative_number_matcher).

#[local] Arguments argparse.parse_known_args : simpl never.
#[local] Arguments argparse.consume_optional : simpl never.

(** The only option of the top-level parser is the help. *)
Definition only_help (tok : token) : Prop :=
  forall a os ea, snd tok = ClsO (Some a) os ea -> exists oss, a = HelpAction oss.

Lemma top_level_tokens (argv : list string) (toks : list token) :
  classify new_parser argv = inr toks -> Forall only_help toks.
Proof.
  intros Hc. apply classify_tokens in Hc as [_ Ht].
  eapply Forall_impl; [exact Ht|]. intros tok H a os ea E.
  destruct (H _ _ _ E) as [Hdash Hp].
  destruct (parse_optional_selects _ new_parser _ _ _ _ eq_refl Hdash Hp)
    as [Hin _].
  simpl in Hin. destruct Hin as [[= _ <-]|[[= _ <-]|[]]]; eauto.
Qed.

(** How the top-level loop succeeds: either every string went to the
    extras, or, after unknown options, a name selected a sub-parser that
    parsed all that follows. *)
Lemma consume_top_inr (sp : SubParsers) (toks : list token)
    (ns ns' : Namespace) (extras extras' : list string) :
  Forall only_help toks ->
  consume_top new_parser sp toks ns extras = inr (ns', extras') ->
  (ns' = ns /\ extras' = extras ++ map fst toks)
  \/ exists pre name args p subns sub_extras,
       map fst toks = pre ++ name :: args
       /\ lookup_parser sp name = Some p
       /\ parse_known_args p args = inr (subns, sub_extras)
       /\ ns' = subns ∪ <[sub_dest sp := PyStr name]> ns
       /\ extras' = extras ++ pre ++ sub_extras.
Proof.
  revert ns extras.
  induction toks as [|[s c] rest IH1 IH2] using tokens_ind;
    intros ns extras HF.
  { simpl. intros [= <- <-]. left. by rewrite app_nil_r. }
  assert (Hsub : forall vals,
    vals = s :: map fst rest ->
    match subparsers_call negative_number_matcher sp ns vals with
    | inl e => inl e
    | inr (ns', sub_extras) => inr (ns', extras ++ sub_extras)
    end = inr (ns', extras') ->
    exists pre name args p subns sub_extras,
       s :: map fst rest = pre ++ name :: args
       /\ lookup_parser sp name = Some p
       /\ parse_known_args p args = inr (subns, sub_extras)
       /\ ns' = subns ∪ <[sub_dest sp := PyStr name]> ns
       /\ extras' = extras ++ pre ++ sub_extras).
  { intros vals ->. unfold subparsers_call.
    destruct (lookup_parser sp s) as [p|] eqn:El; [|done].
    destruct (parse_known_args p (map fst rest)) as [?|[subns sub]] eqn:Ep;
      [done|].
    intros [= <- <-]. exists [], s, (map fst rest), p, subns, sub.
    by repeat split. }
  inversion HF as [|? ? Hh HF']; subst.
  destruct c as [| |[a|] os ea]; simpl.
  - intros H. right. by eapply Hsub.
  - destruct rest as [|tok rest'].
    + intros [= <- <-]. by left.
    + intros H. right. by eapply Hsub.
  - destruct (consume_optional new_parser a os ea (head rest))
      as [?|[tuples used]] eqn:Ec; [done|].
    destruct (take_actions (ns, []) tuples) as [?|[ns1 seen]] eqn:Et; [done|].
    destruct (consume_optional_store _ _ _ _ _ _ _ _ _ Ec Et)
      as (oss & d0 & def & req & args & -> & _).
    destruct (Hh _ _ _ eq_refl) as [? [=]].
  - intros H. destruct (IH1 _ _ HF' H)
      as [[-> ->]|(pre & name & args & p & subns & sub & Hm & ? & ? & ? & ->)].
    + left. split; [done|]. by rewrite <- app_assoc.
    + right. exists (s :: pre), name, args, p, subns, sub.
      rewrite Hm. repeat split; try done. by rewrite <- app_assoc.
Qed.

(** How [parse_args] succeeds: on no argument at all, or on a sub-command
    name followed by arguments its sub-parser accepts in full. *)
Lemma parse_args_inr (sp : SubParsers) (argv : list string) (ns : Namespace) :
  parse_args new_parser sp argv = inr ns ->
  (argv = [] /\ ns = <[sub_dest sp := PyNone]> ∅)
  \/ exists name args p subns,
       argv = name :: args
       /\ lookup_parser sp name = Some p
       /\ parse_known_args p args = inr (subns, [])
       /\ ns = subns ∪ <[sub_dest sp := PyStr name]>
                         (<[sub_dest sp := PyNone]> ∅).
Proof.
  unfold argparse.parse_args.
  destruct (classify new_parser argv) as [?|toks] eqn:Ec; [done|].
  pose proof (top_level_tokens _ _ Ec) as HF.
  apply classify_tokens in Ec as [Hm _].
  destruct (consume_top _ _ _ _ _) as [?|[ns' extras]] eqn:E; [done|].
  destruct extras as [|x extras]; [|done]. intros [= <-].
  apply consume_top_inr in E; [|exact HF].
  destruct E as
    [[-> Hx]|(pre & name & args & p & subns & sub & Hm' & ? & ? & ? & Hx)];
    simpl in Hx.
  - left. rewrite <- Hm, <- Hx. done.
  - right. symmetry in Hx. apply app_eq_nil in Hx as [-> ->].
    exists name, args, p, subns. rewrite <- Hm, Hm'. by repeat split.
Qed.

(** Where the help can come from: a token of the top-level parser, or the
    sub-parser named after unknown options. *)
Lemma consume_top_help (sp : SubParsers) (toks : list token) (ns : Namespace)
    (extras : list string) (d : diagnostic) :
  consume_top new_parser sp toks ns extras = inl (SystemExit 0 d) ->
  Exists (help_taken new_parser) toks
  \/ exists pre name args p,
       map fst toks = pre ++ name :: args
       /\ lookup_parser sp name = Some p
       /\ parse_known_args p args = inl (SystemExit 0 d).
Proof.
  revert ns extras.
  induction toks as [|[s c] rest IH1 IH2] using tokens_ind;
    intros ns extras; [done|].
  assert (Hsub : forall vals,
    vals = s :: map fst rest ->
    match subparsers_call negative_number_matcher sp ns vals with
    | inl e => inl e
    | inr (ns', sub_extras) => inr (ns', extras ++ sub_extras)
    end = inl (SystemExit 0 d) ->
    exists pre name args p,
       s :: map fst rest = pre ++ name :: args
       /\ lookup_parser sp name = Some p
       /\ parse_known_args p args = inl (SystemExit 0 d)).
  { intros vals ->. unfold subparsers_call.
    destruct (lookup_parser sp s) as [p|] eqn:El; [|done].
    destruct (parse_known_args p (map fst rest)) as [?|[subns sub]] eqn:Ep;
      [|done].
    intros [= ->]. by exists [], s, (map fst rest), p. }
  destruct c as [| |[a|] os ea]; simpl.
  - intros H. right. by eapply Hsub.
  - destruct rest as [|tok rest']; [done|].
    intros H. right. by eapply Hsub.
  - destruct (consume_optional new_parser a os ea (head rest))
      as [e|[tuples used]] eqn:Ec.
    { intros [= ->]. by apply consume_optional_error in Ec as [? [=]]. }
    destruct (take_actions (ns, []) tuples) as [e|[ns1 seen]] eqn:Et.
    + intros _. left. apply Exists_cons_hd.
      destruct a as [oss|oss d0 def req].
      * exists oss, os, ea, (head rest), (tuples, used). by split.
      * exfalso. unfold consume_optional in Ec.
        destruct ea as [x|]; simpl in Ec.
        -- destruct x; injection Ec as <- <-; done.
        -- destruct (head rest) as [[v []]|]; try done.
           injection Ec as <- <-. done.
    + assert (Hrec : forall l, l = rest \/ l = tail rest ->
        consume_top new_parser sp l ns1 extras = inl (SystemExit 0 d) ->
        Exists (help_taken new_parser)
               ((s, ClsO (Some a) os ea) :: rest)
        \/ exists pre name args p,
             map fst ((s, ClsO (Some a) os ea) :: rest) = pre ++ name :: args
             /\ lookup_parser sp name = Some p
             /\ parse_known_args p args = inl (SystemExit 0 d)).
      { intros l Hl H.
        assert (Hex : Exists (help_taken new_parser) l
                      \/ exists pre name args p,
                           map fst l = pre ++ name :: args
                           /\ lookup_parser sp name = Some p
                           /\ parse_known_args p args = inl (SystemExit 0 d)).
        { destruct Hl as [-> | ->]; [by eapply IH1 | by eapply IH2]. }
        destruct Hex as [Hex|(pre & name & args & p & Hm & ? & ?)].
        - left. apply Exists_cons_tl.
          destruct Hl as [-> | ->]; [done|].
          destruct rest; [done | by apply Exists_cons_tl].
        - right. destruct Hl as [-> | ->].
          + exists (s :: pre), name, args, p. simpl. by rewrite Hm.
          + destruct rest as [|[s' c'] rest']; simpl in *.
            * by destruct pre.
            * exists (s :: s' :: pre), name, args, p. simpl. by rewrite Hm. }
      destruct used.
      * destruct rest as [|tok rest']; [done|].
        intros H. apply (Hrec rest'); auto.
      * intros H. apply (Hrec rest); auto.
  - intros H. destruct (IH1 _ _ H) as [Hex|(pre & name & args & p & Hm & ? & ?)].
    + left. by apply Exists_cons_tl.
    + right. exists (s :: pre), name, args, p. simpl. by rewrite Hm.
Qed.

End top_level.

(** * The parsers of doit.py *)

Section doit_parsers.

Variable realpath_dot : string.
(** The four kinds of sub-parser [create_subparsers] builds. *)
Definition vagrant_parser : ArgumentParser :=
  add_argument_vagrantfile realpath_dot new_parser.

Definition provision_parser : ArgumentParser :=
  add_argument_playbook realpath_dot
    (add_argument_vagrantfile realpath_dot new_parser).

Definition playbook_parser : ArgumentParser :=
  add_argument_playbook realpath_dot new_parser.

Definition vault_parser : ArgumentParser :=
  add_argument_vault_file new_parser.

Definition vagrant_commands : list string :=
  ["status"; "enter"; "destroy"; "validate_vagrant"].

Definition provision_commands : list string :=
  ["setup"; "reprovision"; "validate"].

Definition vault_commands : list string :=
  ["encrypt_vault"; "edit_vault"; "view_vault"; "rekey_vault"].

Lemma lookup_parser_Some (name : string) (p : ArgumentParser) :
  lookup_parser (subparsers realpath_dot) name = Some p ->
  (name ∈ vagrant_commands /\ p = vagrant_parser)
  \/ (name ∈ provision_commands /\ p = provision_parser)
  \/ (name = "validate_playbook" /\ p = playbook_parser)
  \/ (name ∈ vault_commands /\ p = vault_parser).
Proof.
  unfold lookup_parser.
  destruct (List.find _ _) as [[n q]|] eqn:E; [|done].
  intros [= ->]. apply find_some in E as [Hin Heq]. simpl in Heq.
  apply String.eqb_eq in Heq. subst n.
  unfold vagrant_commands, provision_commands, vault_commands.
  simpl in Hin.
  repeat (destruct Hin as [Hin|Hin];
          [injection Hin as <- <-;
           first [ left; split; [set_solver | reflexivity]
                 | right; left; split; [set_solver | reflexivity]
                 | right; right; left; split; reflexivity
                 | right; right; right; split; [set_solver | reflexivity] ]
          |]).
  destruct Hin.
Qed.

Lemma lookup_parser_catalog (name : string) (p : ArgumentParser) :
  lookup_parser (subparsers realpath_dot) name = Some p -> name ∈ catalog.
Proof.
  intros H. apply lookup_parser_Some in H.
  unfold vagrant_commands, provision_commands, vault_commands, catalog in *.
  rewrite !elem_of_cons, !elem_of_nil in H. rewrite !elem_of_cons. tauto.
Qed.

Lemma lookup_parser_vault (name : string) :
  name ∈ vault_commands ->
  lookup_parser (subparsers realpath_dot) name = Some vault_parser.
Proof.
  unfold vault_commands. rewrite !elem_of_cons, elem_of_nil.
  intros [->|[->|[->|[->|[]]]]]; reflexivity.
Qed.

(** What the sub-parsers have in common. *)
Definition sub_parser (p : ArgumentParser) : Prop :=
  p = vagrant_parser \/ p = provision_parser \/ p = playbook_parser
  \/ p = vault_parser.

Lemma lookup_parser_sub_parser (name : string) (p : ArgumentParser) :
  lookup_parser (subparsers realpath_dot) name = Some p -> sub_parser p.
Proof.
  intros H. apply lookup_parser_Some in H. unfold sub_parser. tauto.
Qed.

Lemma sub_parser_short_options (p : ArgumentParser) :
  sub_parser p -> short_options p = true.
Proof. intros [->|[->|[->| ->]]]; reflexivity. Qed.

Lemma sub_parser_standard_help (p : ArgumentParser) :
  sub_parser p -> standard_help p = true.
Proof. intros [->|[->|[->| ->]]]; reflexivity. Qed.

Variable negative_number_matcher : string -> bool.

#[local] Abbreviation parse_optional :=
  (argparse.parse_optional negative_number_matcher).
#[local] Abbreviation parse_known_args :=
  (argparse.parse_known_args negative_number_matcher).
#[local] Abbreviation parse_args :=
  (argparse.parse_args negative_number_matcher new_parser
                       (subparsers realpath_dot)).

Lemma sub_parser_ambiguous (p : ArgumentParser) (e : string) :
  sub_parser p -> parse_optional p ("--=" ++ e) = Ambiguous.
Proof. intros [->|[->|[->| ->]]]; reflexivity. Qed.

(** The sub-parsers, written out. *)
Lemma vagrant_parser_actions :
  vagrant_parser
  = [ HelpAction ["-h"; "--help"];
      StoreAction ["--vagrantfile-path"; "-f"] "vagrantfile_path"
                  (PyStr realpath_dot) false ].
Proof. reflexivity. Qed.

Lemma provision_parser_actions :
  provision_parser
  = [ HelpAction ["-h"; "--help"];
      StoreAction ["--vagrantfile-path"; "-f"] "vagrantfile_path"
                  (PyStr realpath_dot) false;
      StoreAction ["--playbook-path"; "-p"] "playbook_path"
                  (PyStr (default_playbook_path realpath_dot)) false ].
Proof. reflexivity. Qed.

Lemma playbook_parser_actions :
  playbook_parser
  = [ HelpAction ["-h"; "--help"];
      StoreAction ["--playbook-path"; "-p"] "playbook_path"
                  (PyStr (default_playbook_path realpath_dot)) false ].
Proof. reflexivity. Qed.

Lemma vault_parser_actions :
  vault_parser
  = [ HelpAction ["-h"; "--help"];
      StoreAction ["--vault-file-path"; "-f"] "vault_file_path" PyNone true ].
Proof. reflexivity. Qed.

Ltac sub_parser_cases H :=
  destruct H as [->|[->|[->| ->]]];
  [ rewrite vagrant_parser_actions in *
  | rewrite provision_parser_actions in *
  | rewrite playbook_parser_actions in *
  | rewrite vault_parser_actions in * ].

(** No sub-parser stores into [subcommand]. *)
Lemma sub_parser_subcommand (p : ArgumentParser) (args extras : list string)
    (ns : Namespace) :
  sub_parser p ->
  parse_known_args p args = inr (ns, extras) ->
  ns !! "subcommand" = None.
Proof.
  intros Hp H.
  rewrite (parse_known_args_untouched negative_number_matcher p
             "subcommand" args extras ns);
    [| by apply sub_parser_short_options | | done].
  - by sub_parser_cases Hp.
  - intros os oss def req Hin. sub_parser_cases Hp; simpl in Hin;
      repeat (destruct Hin as [Hin|Hin]; [discriminate Hin|]); done.
Qed.


(** * The program, case by case *)

Lemma parsed_arguments (argv : list string) (ns : Namespace) :
  parse_args argv = inr ns ->
  (argv = [] /\ ns !! "subcommand" = Some PyNone)
  \/ exists name args p subns,
       argv = name :: args
       /\ lookup_parser (subparsers realpath_dot) name = Some p
       /\ parse_known_args p args = inr (subns, [])
       /\ ns !! "subcommand" = Some (PyStr name)
       /\ forall d, d <> "subcommand" -> ns !! d = subns !! d.
Proof.
  intros H. apply parse_args_inr in H as
    [[-> ->]|(name & args & p & subns & -> & Hl & Hp & ->)].
  - left. split; [done|]. apply lookup_insert_eq.
  - right. exists name, args, p, subns. repeat split; try done.
    + rewrite lookup_union_r.
      * apply lookup_insert_eq.
      * eapply sub_parser_subcommand; [|exact Hp].
        by eapply lookup_parser_sub_parser.
    + intros d Hd. apply lookup_union_l. simpl.
      rewrite !lookup_insert_ne by done. apply lookup_empty.
Qed.

(** The three ways a run goes: the parser exits; there is no argument;
    or a sub-command of the catalog is looked up by name and called. *)
Lemma run_program_cases (w : world) (argv : list string) :
  let run := run_program realpath_dot negative_number_matcher w argv in
  (exists e, parse_args argv = inl e /\ run = ([], inl e))
  \/ (argv = [] /\ run = ([], inl (SystemExit 2 MustChooseSubcommand)))
  \/ exists name args p subns ns,
       argv = name :: args
       /\ lookup_parser (subparsers realpath_dot) name = Some p
       /\ parse_known_args p args = inr (subns, [])
       /\ parse_args argv = inr ns
       /\ ns !! "subcommand" = Some (PyStr name)
       /\ (forall d, d <> "subcommand" -> ns !! d = subns !! d)
       /\ run = try_except_NameError
                  (eval_call name ns)
                  (fun _ => parser_error (NotImplementedYet name)) w [].
Proof.
  intros run. subst run. unfold run_program, main.
  unfold mbind, M_bind, bind, lift.
  destruct (parse_args argv) as [e|ns] eqn:E.
  { left. by exists e. }
  right. destruct (parsed_arguments _ _ E)
    as [[-> Hs]|(name & args & p & subns & -> & Hl & Hp & Hs & Hd)].
  - left. split; [done|]. simpl. by rewrite Hs.
  - right. exists name, args, p, subns, ns. repeat split; try done.
    simpl. by rewrite Hs.
Qed.

(** The help is printed only for an argument string that asks for it. *)
Lemma parse_args_help (argv : list string) (d : diagnostic) :
  parse_args argv = inl (SystemExit 0 d) ->
  Exists (fun t => help_like t = true) argv.
Proof.
  unfold argparse.parse_args.
  destruct (classify negative_number_matcher new_parser argv)
    as [e|toks] eqn:Ec.
  { intros [= ->]. by apply classify_error in Ec as [? [=]]. }
  apply classify_tokens in Ec as [Hm Ht]. subst argv.
  destruct (consume_top _ _ _ _ _ _) as [e|[ns [|x extras]]] eqn:E;
    [|done|done].
  intros [= ->].
  apply consume_top_help in E as [E|(pre & name & args & p & Hm & Hl & Hp)].
  - apply Exists_exists in E
      as (tok & Hin & oss & os & ea & next & r & E1 & E2).
    rewrite Forall_forall in Ht. destruct (Ht _ Hin _ _ _ E1) as [Hdash Hp].
    apply Exists_exists. exists (fst tok). split.
    + apply list_elem_of_In, in_map, list_elem_of_In, Hin.
    + by eapply (help_token negative_number_matcher new_parser).
  - rewrite Hm. apply Exists_app. right. apply Exists_cons_tl.
    eapply parse_known_args_help; [| |exact Hp].
    + eapply sub_parser_short_options, lookup_parser_sub_parser, Hl.
    + eapply sub_parser_standard_help, lookup_parser_sub_parser, Hl.
Qed.

Lemma exit_status_2 (argv : list string) (e : exn) :
  parse_args argv = inl e ->
  Forall (fun t => help_like t = false) argv ->
  exit_status (inl e) = 2.
Proof.
  intros H HF.
  destruct (parse_args_exits negative_number_matcher _ _ _ _ H) as [|d Hd];
    [|done].
  apply parse_args_help in H. apply Exists_exists in H as (t & Hin & Ht).
  rewrite Forall_forall in HF. specialize (HF _ Hin). congruence.
Qed.

End doit_parsers.

(** * The linter sub-command, in general *)

(** C1. The parser knows the sub-command [validate_playbook], but the
    module has no function of that name (the linter is
    [validate_ansible]): whatever the arguments, the program starts no
    process and leaves through [parser.exit], with the message that the
    sub-command has not been implemented yet once the arguments
    parse. *)
Theorem validate_playbook_never_lints (realpath_dot : string)
    (negative_number_matcher : string -> bool) (w : world)
    (args : list string) :
  let run := run_program realpath_dot negative_number_matcher w
                         ("validate_playbook" :: args) in
  fst run = []
  /\ (exists e, snd run = inl e /\ parser_exit e)
  /\ (forall ns,
        argparse.parse_args negative_number_matcher new_parser
          (subparsers realpath_dot) ("validate_playbook" :: args) = inr ns ->
        snd run = inl (SystemExit 2 (NotImplementedYet "validate_playbook"))).
Proof.
  intros run.
  destruct (run_program_cases realpath_dot negative_number_matcher w
              ("validate_playbook" :: args))
    as [(e & He & Hr)|[[[=] _]|(name & args' & p & subns & ns & [= <- <-]
                                & Hl & Hp & Hns & Hs & Hd & Hr)]];
    fold run in Hr; rewrite Hr.
  - repeat split.
    + exists e. split; [done|]. by eapply parse_args_exits.
    + intros ns Hns. congruence.
  - repeat split.
    + eexists. split; [reflexivity|]. by apply exit_error.
Qed.

(** * No sub-command, or an unknown one *)

(** The claim of C5 fails for an input without a sub-command: [-h] in its
    place prints the help and the program exits with status 0. *)
Lemma help_without_subcommand_exits_0 :
  let run := run_program "/home/u/project" ascii_negative_number all_succeed
                         ["-h"] in
  head ["-h"] = Some "-h"
  /\ ("-h" ∉ catalog)
  /\ run = ([], inl (SystemExit 0 HelpPrinted))
  /\ exit_status (snd run) = 0.
Proof.
  repeat split; try reflexivity.
  unfold catalog. rewrite !elem_of_cons, elem_of_nil.
  intros H. repeat destruct H as [H|H]; done.
Qed.

Example unknown_subcommand_status_2 :
  run_program "/home/u/project" ascii_negative_number all_succeed
              ["deploy"; "--now"]
  = ([], inl (SystemExit 2 (InvalidChoice "deploy"))).
Proof. vm_compute. reflexivity. Qed.

Example missing_subcommand_status_2 :
  run_program "/home/u/project" ascii_negative_number all_succeed []
  = ([], inl (SystemExit 2 MustChooseSubcommand)).
Proof. vm_compute. reflexivity. Qed.

(** * The vault file path is required *)

(** The claim of C6 fails when the help is asked for: [encrypt_vault -h]
    names no vault file, and the program prints the help of the
    sub-command and exits with status 0. *)
Lemma vault_help_exits_0 :
  let run := run_program "/home/u/project" ascii_negative_number all_succeed
                         ["encrypt_vault"; "-h"] in
  "encrypt_vault" ∈ vault_commands
  /\ Forall (fun t => names_option "--vault-file-path" "-f" t = false) ["-h"]
  /\ run = ([], inl (SystemExit 0 HelpPrinted))
  /\ exit_status (snd run) = 0.
Proof.
  repeat split; try reflexivity.
  - unfold vault_commands. apply elem_of_cons. by left.
  - by repeat constructor.
Qed.

(** C6, as the code has it. For every vault sub-command called without an
    argument string that names the option [--vault-file-path] (or [-f]),
    the program starts no process and leaves through [parser.exit]: with
    status 2, unless an argument string asks for the help, in which case
    the status can be 0, after the help was printed. *)
Theorem vault_file_path_is_required (realpath_dot : string)
    (negative_number_matcher : string -> bool) (w : world)
    (name : string) (args : list string) :
  name ∈ vault_commands ->
  Forall (fun t => names_option "--vault-file-path" "-f" t = false) args ->
  let run := run_program realpath_dot negative_number_matcher w
                         (name :: args) in
  fst run = []
  /\ (exists e, snd run = inl e /\ parser_exit e)
  /\ (Forall (fun t => help_like t = false) args -> exit_status (snd run) = 2).
Proof.
  intros Hname Hargs run.
  destruct (run_program_cases realpath_dot negative_number_matcher w
              (name :: args))
    as [(e & He & Hr)|[[[=] _]|(name' & args' & p & subns & ns & [= <- <-]
                                & Hl & Hp & _)]];
    try (fold run in Hr; rewrite Hr).
  - repeat split.
    + exists e. split; [done|]. by eapply parse_args_exits.
    + intros HF. eapply exit_status_2; [exact He|].
      apply Forall_cons. split; [|done].
      unfold vault_commands in Hname.
      rewrite !elem_of_cons, elem_of_nil in Hname.
      by destruct Hname as [->|[->|[->|[->|[]]]]].
  - exfalso. rewrite (lookup_parser_vault _ _ Hname) in Hl.
    injection Hl as <-.
    assert (Hamb : forall e,
      argparse.parse_optional negative_number_matcher vault_parser
        ("--=" ++ e) = Ambiguous).
    { intros e. apply sub_parser_ambiguous with (realpath_dot := realpath_dot).
      unfold sub_parser. tauto. }
    assert (Hin : In (StoreAction ["--vault-file-path"; "-f"]
                        "vault_file_path" PyNone true) vault_parser).
    { right. by left. }
    destruct (parse_known_args_required negative_number_matcher vault_parser
                "vault_file_path" "--vault-file-path" "-f"
                ["--vault-file-path"; "-f"] PyNone args
                eq_refl eq_refl Hamb Hin Hargs) as [e He].
    congruence.
Qed.

Lemma vault_file_path_is_required_witness :
  let run := run_program "/home/u/project" ascii_negative_number all_succeed
                         ["encrypt_vault"] in
  fst run = []
  /\ (exists e, snd run = inl e /\ parser_exit e)
  /\ (Forall (fun t => help_like t = false) [] -> exit_status (snd run) = 2).
Proof.
  apply (vault_file_path_is_required "/home/u/project" ascii_negative_number
           all_succeed "encrypt_vault" []).
  - unfold vault_commands. apply elem_of_cons. by left.
  - constructor.
Defined.

Example encrypt_vault_without_file :
  run_program "/home/u/project" ascii_negative_number all_succeed
              ["encrypt_vault"]
  = ([], inl (SystemExit 2 (RequiredArguments ["vault_file_path"]))).
Proof. vm_compute. reflexivity. Qed.

(** * The default playbook path *)

Definition playbook_commands : list string :=
  ["setup"; "reprovision"; "validate"; "validate_playbook"].

Lemma playbook_path_defaults (realpath_dot : string)
    (negative_number_matcher : string -> bool) (name : string)
    (args : list string) (ns : Namespace) :
  name ∈ playbook_commands ->
  Forall (fun t => names_option "--playbook-path" "-p" t = false) args ->
  argparse.parse_args negative_number_matcher new_parser
    (subparsers realpath_dot) (name :: args) = inr ns ->
  ns !! "playbook_path" = Some (PyStr (default_playbook_path realpath_dot)).
Proof.
  intros Hname Hargs Hns.
  apply parsed_arguments in Hns
    as [[[=] _]|(name' & args' & p & subns & [= <- <-] & Hl & Hp & _ & Hd)].
  rewrite Hd by done.
  assert (Hsub : sub_parser realpath_dot p)
    by (by eapply lookup_parser_sub_parser).
  assert (Hopt : option_of p "playbook_path" "--playbook-path" "-p" = true)
    by (by destruct Hsub as [->|[->|[->| ->]]]).
  rewrite (parse_known_args_default negative_number_matcher p
             "playbook_path" "--playbook-path" "-p" args [] subns
             (sub_parser_short_options realpath_dot p Hsub) Hopt
             (fun e => sub_parser_ambiguous realpath_dot
                         negative_number_matcher p e Hsub)
             Hargs Hp).
  apply lookup_parser_Some in Hl.
  unfold playbook_commands, vagrant_commands, provision_commands,
    vault_commands in *.
  rewrite !elem_of_cons, !elem_of_nil in Hname.
  rewrite !elem_of_cons, !elem_of_nil in Hl.
  destruct Hl as [[Hn ->]|[[Hn ->]|[[Hn ->]|[Hn ->]]]]; try reflexivity;
    exfalso; destruct Hname as [->|[->|[->|[->|[]]]]];
    destruct Hn as [Hn|[Hn|[Hn|[Hn|Hn]]]]; done.
Qed.

Example default_playbook_path_of_project :
  default_playbook_path "/home/u/project"
  = "/home/u/project/provisioning/playbook.yml".
Proof. reflexivity. Qed.

Example default_playbook_path_of_root :
  default_playbook_path "/" = "/provisioning/playbook.yml".
Proof. reflexivity. Qed.

(** C7. When no argument string names the option [--playbook-path] (or
    [-p]) and the current directory is [/home/u/project], the playbook
    path of the parsed arguments is
    [/home/u/project/provisioning/playbook.yml], for each of the
    sub-commands that take a playbook. *)
Theorem playbook_path_default (negative_number_matcher : string -> bool)
    (name : string) (args : list string) (ns : Namespace) :
  name ∈ playbook_commands ->
  Forall (fun t => names_option "--playbook-path" "-p" t = false) args ->
  argparse.parse_args negative_number_matcher new_parser
    (subparsers "/home/u/project") (name :: args) = inr ns ->
  ns !! "playbook_path"
  = Some (PyStr "/home/u/project/provisioning/playbook.yml").
Proof.
  intros Hname Hargs Hns.
  rewrite (playbook_path_defaults _ _ _ _ _ Hname Hargs Hns).
  by rewrite default_playbook_path_of_project.
Qed.

Lemma playbook_path_default_witness :
  vagrant_arguments "setup" "/vm" "/home/u/project/provisioning/playbook.yml"
    !! "playbook_path"
  = Some (PyStr "/home/u/project/provisioning/playbook.yml").
Proof.
  apply (playbook_path_default ascii_negative_number "setup" ["-f"; "/vm"]).
  - unfold playbook_commands. apply elem_of_cons. by left.
  - by repeat constructor.
  - vm_compute. reflexivity.
Defined.

Example setup_resolves_the_default_playbook :
  fst (run_program "/home/u/project" ascii_negative_number all_succeed
                   ["setup"; "-f"; "/vm"])
  = [ Invocation ["vagrant"; "validate"] (Some "/vm");
      Invocation ["ansible-lint";
                  "/home/u/project/provisioning/playbook.yml"] None;
      Invocation ["vagrant"; "up"] (Some "/vm") ].
Proof. vm_compute. reflexivity. Qed.

(** * What a run may start and how it may fail *)

(** Every invocation a computation adds satisfies [P], and every
    exception it ends with satisfies [Q]. *)
Definition obeys {A} (P : invocation -> Prop) (Q : exn -> Prop) (m : M A)
    : Prop :=
  forall w tr, exists new,
    fst (m w tr) = tr ++ new
    /\ Forall P new
    /\ forall e, snd (m w tr) = inl e -> Q e.

Lemma obeys_ret {A} P Q (a : A) : obeys P Q (mret a).
Proof. intros w tr. exists []. simpl. by rewrite app_nil_r. Qed.

Lemma obeys_raise {A} P (Q : exn -> Prop) (e : exn) :
  Q e -> obeys P Q (@raise A e).
Proof.
  intros He w tr. exists []. simpl. rewrite app_nil_r.
  repeat split; [done|]. by intros ? [= <-].
Qed.

Lemma obeys_spawn (P : invocation -> Prop) (Q : exn -> Prop)
    (i : invocation) :
  P i -> Q OSError -> (forall rc, Q (CalledProcessError rc (inv_cmd i))) ->
  obeys P Q (spawn i).
Proof.
  intros Hi Hos Hcp w tr. exists [i].
  destruct (spawn_cases i w tr) as [[_ ->]|[(rc&_&_&->)|[_ ->]]]; simpl;
    (repeat split; [by constructor|]); intros ? [= <-]; auto.
Qed.

Lemma obeys_bind {A B} P Q (m : M A) (k : A -> M B) :
  obeys P Q m -> (forall a, obeys P Q (k a)) -> obeys P Q (m ≫= k).
Proof.
  intros Hm Hk w tr. unfold mbind, M_bind, bind.
  destruct (Hm w tr) as (new1 & E1 & F1 & Q1).
  destruct (m w tr) as [tr1 [e|a]]; simpl in *; subst tr1.
  - exists new1. repeat split; [done|]. intros ? [= <-]. by apply Q1.
  - destruct (Hk a w (tr ++ new1)) as (new2 & E2 & F2 & Q2).
    exists (new1 ++ new2). rewrite E2, app_assoc.
    repeat split; [by apply Forall_app | done].
Qed.

Lemma obeys_try_except_NameError {A} P Q (m : M A) (h : string -> M A) :
  obeys P (fun e => Q e \/ exists n, e = NameError n) m ->
  (forall n, obeys P Q (h n)) ->
  obeys P Q (try_except_NameError m h).
Proof.
  intros Hm Hh w tr. unfold try_except_NameError.
  destruct (Hm w tr) as (new1 & E1 & F1 & Q1).
  destruct (m w tr) as [tr1 [e|a]]; simpl in *; subst tr1.
  2: { exists new1. by repeat split. }
  assert (Hpass : (forall n, e <> NameError n) ->
            exists new, tr ++ new1 = tr ++ new /\ Forall P new
              /\ forall e', @inl exn A e = inl e' -> Q e').
  { intros Hne. exists new1. repeat split; [done|].
    intros e' [= <-]. destruct (Q1 e eq_refl) as [He|[n ->]]; [done|].
    by destruct (Hne n). }
  destruct e; try (by apply Hpass).
  destruct (Hh name w (tr ++ new1)) as (new2 & E2 & F2 & Q2).
  exists (new1 ++ new2). rewrite E2, app_assoc.
  repeat split; [by apply Forall_app | done].
Qed.

Lemma obeys_run_cmd_and_exit (P : invocation -> Prop) (Q : exn -> Prop)
    (cmd : list pyval) (workdir : pyval) :
  (forall toks, str_tokens cmd = Some toks ->
     (workdir = PyNone -> P (Invocation toks None))
     /\ (forall d, workdir = PyStr d -> P (Invocation toks (Some d)))) ->
  Q OSError -> (forall rc c, Q (CalledProcessError rc c)) ->
  Q (TypeError NotPathLike) ->
  obeys P Q (run_cmd_and_exit cmd workdir).
Proof.
  intros HP Hos Hcp Hty. unfold run_cmd_and_exit.
  destruct (str_tokens cmd) as [toks|]; [|by apply obeys_raise].
  destruct (HP toks eq_refl) as [Hn Hs].
  destruct workdir; first [by apply obeys_raise | apply obeys_spawn; auto].
Qed.

(** The exceptions a function of the module can end with. *)
Definition handler_exn (e : exn) : Prop :=
  match e with
  | CalledProcessError _ _ | OSError | TypeError NotPathLike
  | TypeError (MissingArgument _) | NameError _ => True
  | _ => False
  end.

Lemma obeys_weaken {A} (P : invocation -> Prop) (Q Q' : exn -> Prop)
    (m : M A) :
  (forall e, Q e -> Q' e) -> obeys P Q m -> obeys P Q' m.
Proof.
  intros HQ Hm w tr. destruct (Hm w tr) as (new & E & F & He).
  exists new. repeat split; [done..|]. intros e H. by apply HQ, He.
Qed.

Lemma lookup_function_named (name : string) (f : function) :
  lookup_function name = Some f -> (name, f) ∈ module_functions.
Proof.
  unfold lookup_function. intros H.
  destruct (List.find _ _) as [[n g]|] eqn:E; [|done].
  injection H as <-. apply find_some in E as [Hin Heq].
  apply String.eqb_eq in Heq. simpl in Heq. subst n.
  by apply list_elem_of_In.
Qed.

(** * Working directories *)






Ltac obeys_handler :=
  unfold setup, reprovision; unfold validate;
  unfold validate_vagrant, validate_ansible, status, enter, destroy,
    encrypt_vault, edit_vault, view_vault, rekey_vault;
  repeat (apply obeys_bind; [|intros ?]);
  apply obeys_run_cmd_and_exit; simpl; try tauto;
  intros toks Htoks.



Lemma eval_call_exceptions (name : string) (kw : Namespace) :
  obeys (fun _ => True) handler_exn (eval_call name kw).
Proof.
  unfold eval_call.
  destruct (lookup_function name) as [f|] eqn:E;
    [|by apply obeys_raise].
  apply lookup_function_Some in E. unfold module_functions in E. simpl in E.
  rewrite !elem_of_cons, elem_of_nil in E.
  repeat destruct E as [->|E]; [..|done];
    unfold call; simpl;
    repeat (case_match; try (by apply obeys_raise));
    obeys_handler; done.
Qed.



Example status_in_the_supplied_path :
  fst (run_program "/home/u/project" ascii_negative_number all_succeed
                   ["status"; "--vagrantfile-path"; "/srv/vm"])
  = [Invocation ["vagrant"; "status"] (Some "/srv/vm")].
Proof. vm_compute. reflexivity. Qed.

Example destroy_in_the_default_path :
  fst (run_program "/home/u/project" ascii_negative_number all_succeed
                   ["destroy"])
  = [Invocation ["vagrant"; "destroy"] (Some "/home/u/project")].
Proof. vm_compute. reflexivity. Qed.

Example validate_lints_in_the_inherited_directory :
  fst (run_program "/home/u/project" ascii_negative_number all_succeed
                   ["validate"; "-f"; "/srv/vm"; "-p"; "site.yml"])
  = [ Invocation ["vagrant"; "validate"] (Some "/srv/vm");
      Invocation ["ansible-lint"; "site.yml"] None ].
Proof. vm_compute. reflexivity. Qed.

Example view_vault_in_the_inherited_directory :
  fst (run_program "/home/u/project" ascii_negative_number all_succeed
                   ["view_vault"; "-f"; "secrets.yml"])
  = [Invocation ["ansible-vault"; "view"; "secrets.yml"] None].
Proof. vm_compute. reflexivity. Qed.

(** * Repeated runs *)

(** What [run_cmd_and_exit] starts depends on its two arguments only. *)
Definition started (cmd : list pyval) (workdir : pyval) : list invocation :=
  match str_tokens cmd, workdir with
  | Some toks, PyNone => [Invocation toks None]
  | Some toks, PyStr d => [Invocation toks (Some d)]
  | _, _ => []
  end.

Lemma run_cmd_and_exit_trace (cmd : list pyval) (workdir : pyval)
    (w : world) (tr : list invocation) :
  fst (run_cmd_and_exit cmd workdir w tr) = tr ++ started cmd workdir.
Proof.
  unfold run_cmd_and_exit, started.
  destruct (str_tokens cmd) as [toks|]; [|by rewrite app_nil_r].
  destruct workdir; first [apply spawn_trace | by rewrite app_nil_r].
Qed.

(** The process of a function with one parameter [d] whose body is
    [run_cmd_and_exit cmd] on it. *)
Definition started_by (cmd : list pyval) (d : string) (kw : Namespace)
    : list invocation :=
  match kw !! d with
  | Some v => started cmd v
  | None => []
  end.

Lemma call_trace (cmd : list pyval) (d : string) (kw : Namespace)
    (w : world) (tr : list invocation) :
  fst (call (Def1 d true (run_cmd_and_exit cmd)) kw w tr)
  = tr ++ started_by cmd d kw.
Proof.
  unfold call, started_by. simpl.
  destruct (kw !! d) as [v|]; [apply run_cmd_and_exit_trace|].
  by rewrite app_nil_r.
Qed.

Lemma dispatch_trace (name : string) (cmd : list pyval) (d : string)
    (kw : Namespace) (diag : diagnostic) (w : world) :
  lookup_function name = Some (Def1 d true (run_cmd_and_exit cmd)) ->
  fst (try_except_NameError (eval_call name kw)
         (fun _ => parser_error diag) w [])
  = started_by cmd d kw.
Proof.
  intros Hf. unfold try_except_NameError, eval_call. rewrite Hf.
  pose proof (call_trace cmd d kw w []) as H.
  pose proof (eval_call_exceptions name kw w []) as (new & _ & _ & He).
  unfold eval_call in He. rewrite Hf in He.
  destruct (call _ kw w []) as [tr' [e|[]]]; simpl in *; [|done].
  specialize (He e eq_refl).
  by destruct e.
Qed.

Lemma run_program_trace (realpath_dot : string)
    (negative_number_matcher : string -> bool) (name : string)
    (cmd : list pyval) (d : string) (args : list string) (w : world) :
  lookup_function name = Some (Def1 d true (run_cmd_and_exit cmd)) ->
  fst (run_program realpath_dot negative_number_matcher w (name :: args))
  = match argparse.parse_args negative_number_matcher new_parser
            (subparsers realpath_dot) (name :: args) with
    | inr ns => started_by cmd d ns
    | inl _ => []
    end.
Proof.
  intros Hf.
  destruct (run_program_cases realpath_dot negative_number_matcher w
              (name :: args))
    as [(e & -> & ->)|[[[=] _]|
        (name' & args' & q & subns & ns & [= <- <-] & _ & _ & -> & _ & _
         & ->)]]; [done|].
  by eapply dispatch_trace.
Qed.

(** C9. Two runs of [status], or of [validate_vagrant], on the same
    argument strings in the same current directory start the same
    processes (tokens and working directory), whatever the outcomes of
    the processes and of earlier runs; and two calls of either function
    with the same keywords add the same invocation to whatever was
    started before: [vagrant status], or [vagrant validate], in the
    Vagrantfile path. *)
Theorem repeated_runs_start_the_same (realpath_dot : string)
    (negative_number_matcher : string -> bool) (args : list string)
    (kw : Namespace) (w1 w2 : world) (tr1 tr2 : list invocation) :
  let run w name :=
    fst (run_program realpath_dot negative_number_matcher w (name :: args)) in
  let called name w tr := fst (eval_call name kw w tr) in
  let vagrant verb :=
    match kw !! "vagrantfile_path" with
    | Some (PyStr p) => [Invocation ["vagrant"; verb] (Some p)]
    | Some PyNone => [Invocation ["vagrant"; verb] None]
    | _ => []
    end in
  run w1 "status" = run w2 "status"
  /\ run w1 "validate_vagrant" = run w2 "validate_vagrant"
  /\ called "status" w1 tr1 = tr1 ++ vagrant "status"
  /\ called "status" w2 tr2 = tr2 ++ vagrant "status"
  /\ called "validate_vagrant" w1 tr1 = tr1 ++ vagrant "validate"
  /\ called "validate_vagrant" w2 tr2 = tr2 ++ vagrant "validate".
Proof.
  intros run called vagrant. subst run called.
  assert (Hs : lookup_function "status"
               = Some (Def1 "vagrantfile_path" true
                         (run_cmd_and_exit VAGRANT_STATUS_CMD)))
    by reflexivity.
  assert (Hv : lookup_function "validate_vagrant"
               = Some (Def1 "vagrantfile_path" true
                         (run_cmd_and_exit VAGRANT_VALIDATE_CMD)))
    by reflexivity.
  assert (Hstarted : forall verb,
            started_by [PyStr "vagrant"; PyStr verb] "vagrantfile_path" kw
            = vagrant verb).
  { intros verb. unfold started_by, started. subst vagrant. simpl.
    by destruct (kw !! "vagrantfile_path") as [[]|]. }
  split; [|split].
  - by rewrite !(run_program_trace _ _ _ _ _ _ _ Hs).
  - by rewrite !(run_program_trace _ _ _ _ _ _ _ Hv).
  - unfold eval_call. rewrite Hs, Hv, !call_trace.
    unfold VAGRANT_STATUS_CMD, VAGRANT_VALIDATE_CMD. simpl.
    by rewrite !Hstarted.
Qed.

Example status_twice (w1 w2 : world) :
  fst (run_program "/home/u/project" ascii_negative_number w1
         ["status"; "-f"; "/srv/vm"])
  = fst (run_program "/home/u/project" ascii_negative_number w2
           ["status"; "-f"; "/srv/vm"]).
Proof.
  assert (Hs : lookup_function "status"
               = Some (Def1 "vagrantfile_path" true
                         (run_cmd_and_exit VAGRANT_STATUS_CMD)))
    by reflexivity.
  by rewrite !(run_program_trace _ _ _ _ _ _ _ Hs).
Qed.

(** * Extra keywords *)

Lemma module_functions_var_keyword :
  Forall (fun nf => var_keyword (snd nf) = true
                    /\ "subcommand" ∉ parameters (snd nf))
         module_functions.
Proof.
  unfold module_functions.
  repeat (constructor; [split; [reflexivity|]; simpl;
                        rewrite ?not_elem_of_cons;
                        repeat split; (done || apply not_elem_of_nil)|]).
  constructor.
Qed.

Lemma lookup_function_var_keyword (name : string) (f : function) :
  lookup_function name = Some f ->
  var_keyword f = true /\ "subcommand" ∉ parameters f.
Proof.
  intros H. apply lookup_function_named in H.
  pose proof module_functions_var_keyword as HF.
  rewrite Forall_forall in HF. exact (HF _ H).
Qed.

(** With [**kwargs], a call reads the keywords of its parameters only. *)
Lemma call_declared (f : function) (kw kw' : Namespace) :
  var_keyword f = true ->
  (forall d, d ∈ parameters f -> kw !! d = kw' !! d) ->
  call f kw = call f kw'.
Proof.
  intros Hvk H. unfold call. rewrite Hvk.
  destruct f as [p1 vk body|p1 p2 vk body]; simpl in *.
  - rewrite (H p1) by (apply elem_of_cons; by left). done.
  - rewrite (H p1) by (apply elem_of_cons; by left).
    rewrite (H p2) by (apply elem_of_cons; right; apply elem_of_cons;
                       by left).
    done.
Qed.

Definition unexpected_keyword (e : exn) : Prop :=
  exists k, e = TypeError (UnexpectedKeyword k).

Lemma handler_exn_expected (e : exn) :
  handler_exn e -> ~ unexpected_keyword e.
Proof.
  intros He [k ->]. exact He.
Qed.

Lemma parser_exit_expected (e : exn) :
  parser_exit e -> ~ unexpected_keyword e.
Proof. intros [] [k [=]]. Qed.

(** C10. Every function of the module that a sub-command names takes
    extra keywords and has no parameter [subcommand]; the parsed
    arguments always hold the key [subcommand]; neither a call with any
    keywords nor a run of the program ends with the error of an
    unexpected keyword; and a call depends on the keywords of the
    declared parameters only. *)
Theorem handlers_take_extra_keywords (realpath_dot : string)
    (negative_number_matcher : string -> bool) :
  (forall name f, lookup_function name = Some f ->
     var_keyword f = true /\ "subcommand" ∉ parameters f)
  /\ (forall argv ns,
        argparse.parse_args negative_number_matcher new_parser
          (subparsers realpath_dot) argv = inr ns ->
        is_Some (ns !! "subcommand"))
  /\ (forall name kw w tr,
        ~ match snd (eval_call name kw w tr) with
          | inl e => unexpected_keyword e
          | inr _ => False
          end)
  /\ (forall w argv,
        ~ match snd (run_program realpath_dot negative_number_matcher w argv)
          with
          | inl e => unexpected_keyword e
          | inr _ => False
          end)
  /\ (forall name f kw kw',
        lookup_function name = Some f ->
        (forall d, d ∈ parameters f -> kw !! d = kw' !! d) ->
        call f kw = call f kw').
Proof.
  split; [exact lookup_function_var_keyword|].
  split.
  { intros argv ns H.
    apply parsed_arguments in H as [[_ ->]|(?&?&?&?&_&_&_&->&_)]; by eexists. }
  split.
  { intros name kw w tr.
    destruct (eval_call_exceptions name kw w tr) as (new & _ & _ & He).
    destruct (snd (eval_call name kw w tr)) as [e|]; [|tauto].
    by apply handler_exn_expected, He. }
  split.
  { intros w argv.
    destruct (run_program_cases realpath_dot negative_number_matcher w argv)
      as [(e & He & ->)|[[_ ->]|
          (name & args & q & subns & ns & _ & _ & _ & _ & _ & _ & ->)]];
      simpl.
    - apply parser_exit_expected. by eapply parse_args_exits.
    - by intros [k [=]].
    - destruct (obeys_try_except_NameError
                  (fun _ => True) (fun e => ~ unexpected_keyword e)
                  (eval_call name ns)
                  (fun _ => parser_error (NotImplementedYet name))) with
        (w := w) (tr := @nil invocation) as (new & _ & _ & He).
      + eapply obeys_weaken; [|apply eval_call_exceptions].
        intros e H. left. by apply handler_exn_expected.
      + intros _. apply obeys_raise. by intros [k [=]].
      + destruct (snd _) as [e|]; [|tauto]. by apply He. }
  intros name f kw kw' Hf H.
  apply call_declared; [|exact H].
  by apply lookup_function_var_keyword in Hf as [? _].
Qed.

Example status_ignores_the_subcommand (w : world) :
  eval_call "status" (vagrantfile_arguments "status" "/vm") w []
  = eval_call "status"
      (<["playbook_path" := PyStr "site.yml"]>
         (vagrantfile_arguments "anything" "/vm")) w [].
Proof. reflexivity. Qed.

Example rekey_vault_with_all_arguments :
  run_program "/home/u/project" ascii_negative_number all_succeed
    ["rekey_vault"; "-f"; "secrets.yml"]
  = ([Invocation ["ansible-vault"; "rekey"; "secrets.yml"] None], inr tt).
Proof. vm_compute. reflexivity. Qed.

(** * Further properties of the functions *)

(** X1. [reprovision] with Vagrantfile path [A] and playbook path [B]
    validates first: the first process is [vagrant validate] in [A],
    [ansible-lint B] follows once that has exited with zero, and
    [vagrant provision] is started only as the third process, after both
    exited with zero; when either exits non-zero, or cannot be started,
    [vagrant provision] is never started. *)
Theorem reprovision_validates_before_provision (A B : string) (w : world) :
  let vv := Invocation ["vagrant"; "validate"] (Some A) in
  let lint := Invocation ["ansible-lint"; B] None in
  let provision := Invocation ["vagrant"; "provision"] (Some A) in
  let tr :=
    fst (eval_call "reprovision" (vagrant_arguments "reprovision" A B) w []) in
  tr !! 0%nat = Some vv
  /\ (w [] vv = Exited 0 -> tr !! 1%nat = Some lint)
  /\ (provision ∈ tr ->
      tr = [vv; lint; provision]
      /\ w [] vv = Exited 0 /\ w [vv] lint = Exited 0)
  /\ (w [] vv <> Exited 0 \/ w [vv] lint <> Exited 0 -> provision ∉ tr).
Proof.
  intros vv lint provision tr. subst tr.
  change (eval_call "reprovision" (vagrant_arguments "reprovision" A B))
    with ((spawn vv;; spawn lint);; spawn provision : M unit).
  unfold mbind, M_bind, bind.
  destruct (spawn_cases vv w []) as [[E1 ->]|[(rc1&?&E1&->)|[E1 ->]]];
    simpl; [|settle_membership..].
  destruct (spawn_cases lint w [vv]) as [[E2 ->]|[(rc2&?&E2&->)|[E2 ->]]];
    simpl; [|settle_membership..].
  destruct (spawn_cases provision w [vv; lint])
    as [[E3 ->]|[(rc3&?&E3&->)|[E3 ->]]];
    simpl; settle_membership.
Qed.

(** X2. [validate] with Vagrantfile path [A] and playbook path [B] starts
    [vagrant validate] in [A] first; [ansible-lint B] is started exactly
    when that exited with zero; and [validate] returns exactly when both
    exited with zero. It never starts a third process. *)
Theorem validate_lints_after_vagrant (A B : string) (w : world) :
  let vv := Invocation ["vagrant"; "validate"] (Some A) in
  let lint := Invocation ["ansible-lint"; B] None in
  let run := eval_call "validate" (vagrant_arguments "validate" A B) w [] in
  (fst run = [vv] \/ fst run = [vv; lint])
  /\ (fst run = [vv; lint] <-> w [] vv = Exited 0)
  /\ (snd run = inr tt <-> w [] vv = Exited 0 /\ w [vv] lint = Exited 0).
Proof.
  intros vv lint run. subst run.
  change (eval_call "validate" (vagrant_arguments "validate" A B))
    with (spawn vv;; spawn lint : M unit).
  unfold mbind, M_bind, bind.
  destruct (spawn_cases vv w []) as [[E1 ->]|[(rc1&?&E1&->)|[E1 ->]]];
    simpl.
  - destruct (spawn_cases lint w [vv]) as [[E2 ->]|[(rc2&?&E2&->)|[E2 ->]]];
      simpl; (split; [by right|]); (split; [done|]);
      split; try done; intros [_ E]; congruence.
  - split; [by left|]. split; split; try done; intros; try congruence.
    destruct H0; congruence.
  - split; [by left|]. split; split; try done; intros; try congruence.
    destruct H; congruence.
Qed.

(** * How a run ends *)

(** A computation that returns has started a process. *)
Definition spawns {A} (m : M A) : Prop :=
  forall w tr a, snd (m w tr) = inr a ->
    (List.length tr < List.length (fst (m w tr)))%nat.

(** A computation starts at most [n] processes. *)
Definition at_most {A} (n : nat) (m : M A) : Prop :=
  forall w tr, exists new,
    fst (m w tr) = tr ++ new /\ (List.length new <= n)%nat.

Lemma at_most_raise {A} (e : exn) : at_most 0 (@raise A e).
Proof. intros w tr. exists []. simpl. by rewrite app_nil_r. Qed.

Lemma at_most_spawn (i : invocation) : at_most 1 (spawn i).
Proof. intros w tr. exists [i]. by rewrite spawn_trace. Qed.

Lemma at_most_le {A} (n n' : nat) (m : M A) :
  (n <= n')%nat -> at_most n m -> at_most n' m.
Proof.
  intros Hle Hm w tr. destruct (Hm w tr) as (new & E & Hn).
  exists new. split; [done | lia].
Qed.

Lemma at_most_bind {A B} (n n' : nat) (m : M A) (k : A -> M B) :
  at_most n m -> (forall a, at_most n' (k a)) -> at_most (n + n') (m ≫= k).
Proof.
  intros Hm Hk w tr. unfold mbind, M_bind, bind.
  destruct (Hm w tr) as (new1 & E1 & H1).
  destruct (m w tr) as [tr1 [e|a]]; simpl in *; subst tr1.
  - exists new1. split; [done | lia].
  - destruct (Hk a w (tr ++ new1)) as (new2 & E2 & H2).
    exists (new1 ++ new2). rewrite E2, app_assoc, length_app.
    split; [done | lia].
Qed.

Lemma at_most_try_except_NameError {A} (n : nat) (m : M A)
    (h : string -> M A) :
  at_most n m -> (forall x, at_most 0 (h x)) ->
  at_most n (try_except_NameError m h).
Proof.
  intros Hm Hh w tr. unfold try_except_NameError.
  destruct (Hm w tr) as (new1 & E1 & H1).
  destruct (m w tr) as [tr1 [e|a]]; simpl in *; subst tr1.
  2: { by exists new1. }
  destruct e; try (by exists new1).
  destruct (Hh name w (tr ++ new1)) as (new2 & E2 & H2).
  exists (new1 ++ new2). rewrite E2, app_assoc, length_app.
  split; [done | lia].
Qed.

Lemma at_most_run_cmd_and_exit (cmd : list pyval) (workdir : pyval) :
  at_most 1 (run_cmd_and_exit cmd workdir).
Proof.
  unfold run_cmd_and_exit.
  destruct (str_tokens cmd), workdir;
    first [apply at_most_spawn
          | eapply at_most_le; [|apply at_most_raise]; lia].
Qed.

Lemma spawns_raise {A} (e : exn) : spawns (@raise A e).
Proof. by intros w tr a. Qed.

Lemma spawns_run_cmd_and_exit (cmd : list pyval) (workdir : pyval) :
  spawns (run_cmd_and_exit cmd workdir).
Proof.
  intros w tr a. unfold run_cmd_and_exit.
  destruct (str_tokens cmd), workdir; try done;
    rewrite spawn_trace, length_app; simpl; lia.
Qed.

Lemma spawns_bind {A B} (n : nat) (m : M A) (k : A -> M B) :
  spawns m -> (forall a, at_most n (k a)) -> spawns (m ≫= k).
Proof.
  intros Hm Hk w tr b. unfold mbind, M_bind, bind.
  specialize (Hm w tr).
  destruct (m w tr) as [tr1 [e|a]]; simpl in *; [done|].
  intros _. specialize (Hm a eq_refl).
  destruct (Hk a w tr1) as (new & -> & _). rewrite length_app. lia.
Qed.

Lemma spawns_try_except_NameError {A} (m : M A) (d : diagnostic) :
  spawns m -> spawns (try_except_NameError m (fun _ => parser_error d)).
Proof.
  intros Hm w tr a. unfold try_except_NameError.
  specialize (Hm w tr).
  destruct (m w tr) as [tr1 [e|a']]; simpl in *.
  - by destruct e.
  - intros _. by apply (Hm a').
Qed.

Ltac handler_bodies :=
  unfold setup, reprovision; unfold validate;
  unfold validate_vagrant, validate_ansible, status, enter, destroy,
    encrypt_vault, edit_vault, view_vault, rekey_vault.

Lemma at_most_call (name : string) (f : function) (kw : Namespace) :
  (name, f) ∈ module_functions ->
  at_most (if bool_decide (name ∈ provision_commands) then 3 else 1)
          (call f kw).
Proof.
  intros E. unfold module_functions in E.
  rewrite !elem_of_cons, elem_of_nil in E.
  repeat destruct E as [[= -> ->]|E]; [..|done];
    unfold call; simpl;
    repeat (case_match;
            try (eapply at_most_le; [|apply at_most_raise]; lia));
    handler_bodies;
    first [ apply at_most_run_cmd_and_exit
          | apply (at_most_bind 2 1);
            [apply (at_most_bind 1 1)|];
            intros; apply at_most_run_cmd_and_exit
          | eapply at_most_le;
            [|apply (at_most_bind 1 1);
              intros; apply at_most_run_cmd_and_exit]; simpl; lia ].
Qed.

Lemma spawns_call (f : function) (kw : Namespace) :
  f ∈ map snd module_functions -> spawns (call f kw).
Proof.
  intros E. unfold module_functions in E. simpl in E.
  rewrite !elem_of_cons, elem_of_nil in E.
  repeat destruct E as [->|E]; [..|done];
    unfold call; simpl;
    repeat (case_match; try apply spawns_raise);
    handler_bodies;
    repeat (apply (spawns_bind 1);
            [|intros; apply at_most_run_cmd_and_exit]);
    apply spawns_run_cmd_and_exit.
Qed.

Lemma spawns_eval_call (name : string) (kw : Namespace) :
  spawns (eval_call name kw).
Proof.
  unfold eval_call. destruct (lookup_function name) as [f|] eqn:E.
  - eapply spawns_call, lookup_function_Some, E.
  - apply spawns_raise.
Qed.

Lemma at_most_eval_call (name : string) (kw : Namespace) :
  at_most (if bool_decide (name ∈ provision_commands) then 3 else 1)
          (eval_call name kw).
Proof.
  unfold eval_call. destruct (lookup_function name) as [f|] eqn:E.
  - eapply at_most_call, lookup_function_named, E.
  - eapply at_most_le; [|apply at_most_raise]. case_bool_decide; lia.
Qed.

(** The exceptions with which the function of a sub-command ends leave
    the program with exit status 1. *)
Lemma handler_exn_status (e : exn) :
  handler_exn e -> exit_status (inl e) = 1.
Proof. destruct e as [| |[]| | |]; simpl; tauto. Qed.

(** X3. The program exits with status 0 in two cases only: an argument
    string asked for the help, which was printed without starting any
    process; or the function of the sub-command returned, after starting
    at least one process, and every process it started exited with
    zero. *)
Theorem exit_status_0 (realpath_dot : string)
    (negative_number_matcher : string -> bool) (w : world)
    (argv : list string) :
  let run := run_program realpath_dot negative_number_matcher w argv in
  exit_status (snd run) = 0 ->
  (snd run = inl (SystemExit 0 HelpPrinted)
   /\ fst run = []
   /\ Exists (fun t => help_like t = true) argv)
  \/ (snd run = inr tt
      /\ fst run <> []
      /\ clean w [] (fst run)).
Proof.
  intros run H0. subst run.
  destruct (faithful_main realpath_dot negative_number_matcher argv w [])
    as (new & E & Hrun).
  fold (run_program realpath_dot negative_number_matcher w argv) in E, Hrun.
  simpl in E.
  destruct (run_program_cases realpath_dot negative_number_matcher w argv)
    as [(e & He & Hr)|[[_ Hr]|
        (name & args & q & subns & ns & _ & _ & _ & _ & _ & _ & Hr)]].
  - left. rewrite Hr in H0 |- *. simpl in *.
    destruct (parse_args_exits _ _ _ _ _ He) as [|d Hd]; [|done].
    repeat split. by eapply parse_args_help.
  - rewrite Hr in H0. done.
  - right.
    destruct (obeys_try_except_NameError
                (fun _ => True) (fun e => exit_status (inl e) <> 0)
                (eval_call name ns)
                (fun _ => parser_error (NotImplementedYet name))) with
      (w := w) (tr := @nil invocation) as (new' & _ & _ & He).
    { eapply obeys_weaken; [|apply eval_call_exceptions].
      intros e Hh. left. by rewrite handler_exn_status. }
    { intros _. by apply obeys_raise. }
    rewrite <- Hr in He.
    destruct (snd (run_program realpath_dot negative_number_matcher w argv))
      as [e|[]] eqn:Es.
    { by destruct (He e eq_refl). }
    split; [done|]. split.
    + pose proof (spawns_try_except_NameError (eval_call name ns)
                    (NotImplementedYet name) (spawns_eval_call name ns)
                    w [] tt) as Hs.
      rewrite <- Hr in Hs. specialize (Hs Es).
      intros Hnil. rewrite Hnil in Hs. simpl in Hs. lia.
    + rewrite E. by inversion Hrun.
Qed.

Lemma exit_status_0_witness :
  let run := run_program "/home/u/project" ascii_negative_number
                         all_succeed ["status"] in
  (snd run = inl (SystemExit 0 HelpPrinted)
   /\ fst run = []
   /\ Exists (fun t => help_like t = true) ["status"])
  \/ (snd run = inr tt
      /\ fst run <> []
      /\ clean all_succeed [] (fst run)).
Proof.
  apply (exit_status_0 "/home/u/project" ascii_negative_number all_succeed
           ["status"]).
  reflexivity.
Defined.

(** X4. A run starts at most three processes, and at most one unless
    the sub-command is [setup], [reprovision] or [validate]. *)
Theorem at_most_three_processes (realpath_dot : string)
    (negative_number_matcher : string -> bool) (w : world)
    (argv : list string) :
  let n := List.length
             (fst (run_program realpath_dot negative_number_matcher w argv)) in
  (n <= 3)%nat
  /\ (forall name, head argv = Some name -> name ∉ provision_commands ->
      (n <= 1)%nat).
Proof.
  intros n. subst n.
  destruct (run_program_cases realpath_dot negative_number_matcher w argv)
    as [(e & _ & ->)|[[_ ->]|
        (name & args & q & subns & ns & -> & _ & _ & _ & _ & _ & ->)]];
    simpl; [split; [lia | intros; lia]..|].
  destruct (at_most_try_except_NameError
              (if bool_decide (name ∈ provision_commands) then 3 else 1)%nat
              (eval_call name ns)
              (fun _ => parser_error (NotImplementedYet name))
              (at_most_eval_call name ns)
              (fun _ => at_most_raise _) w [])
    as (new & -> & Hn).
  simpl. split.
  - case_bool_decide; lia.
  - intros name' [= <-] Hname. by rewrite bool_decide_eq_false_2 in Hn.
Qed.

(** A process that cannot be started is the last one, and its [OSError]
    is how the run ends. *)
Lemma run_of_not_started {A} (w : world) (tr new : list invocation)
    (r : exn + A) (k : nat) (i : invocation) :
  run_of w tr new r -> new !! k = Some i ->
  w (tr ++ take k new) i = NotStarted ->
  r = inl OSError /\ S k = List.length new.
Proof.
  intros Hrun Hk Hw.
  assert (Hclean : forall l, clean w tr l -> l !! k = Some i ->
                             tr ++ take k l = tr ++ take k new -> False).
  { intros l Hl Hlk Heq. specialize (Hl k i Hlk). rewrite Heq in Hl.
    congruence. }
  inversion Hrun as [new' a Hc|new' e Hc He|pre j e Hc Hf]; subst.
  - exfalso. by eapply Hclean.
  - exfalso. by eapply Hclean.
  - destruct (decide (k < List.length pre)%nat) as [Hlt|Hge].
    + exfalso. eapply (Hclean pre); [done| |].
      * by rewrite lookup_app_l in Hk.
      * by rewrite take_app_le by lia.
    + rewrite lookup_app_r in Hk by lia.
      destruct (k - List.length pre)%nat as [|n] eqn:En; [|done].
      simplify_eq/=. assert (k = List.length pre) as -> by lia.
      rewrite take_app_length in Hw.
      rewrite length_app. simpl. split; [|lia].
      inversion Hf; congruence.
Qed.

(** X5. When a process cannot be started (the tool is not installed, or
    the working directory does not exist), no further process is started
    and the program ends at once with the uncaught [OSError]: its exit
    status is 1. *)
Theorem missing_tool_ends_the_program (realpath_dot : string)
    (negative_number_matcher : string -> bool) (w : world)
    (argv : list string) (k : nat) (i : invocation) :
  let run := run_program realpath_dot negative_number_matcher w argv in
  fst run !! k = Some i ->
  w (take k (fst run)) i = NotStarted ->
  snd run = inl OSError
  /\ exit_status (snd run) = 1
  /\ S k = List.length (fst run).
Proof.
  intros run Hk Hw. subst run. unfold run_program in *.
  destruct (faithful_main realpath_dot negative_number_matcher argv w [])
    as (new & E & Hrun).
  simpl in E. rewrite E in *.
  destruct (run_of_not_started w [] new _ k i Hrun Hk Hw) as [-> Hlen].
  done.
Qed.

(** No [ansible-lint] on this machine; [vagrant] works. *)
Definition lint_is_missing : world :=
  fun _ i => match inv_cmd i with
             | "ansible-lint" :: _ => NotStarted
             | _ => Exited 0
             end.

Lemma missing_tool_ends_the_program_witness :
  let run := run_program "/home/u/project" ascii_negative_number
                         lint_is_missing ["setup"] in
  snd run = inl OSError
  /\ exit_status (snd run) = 1
  /\ 2%nat = List.length (fst run).
Proof.
  apply (missing_tool_ends_the_program
           "/home/u/project" ascii_negative_number lint_is_missing
           ["setup"] 1
           (Invocation ["ansible-lint";
                        "/home/u/project/provisioning/playbook.yml"] None)).
  - reflexivity.
  - reflexivity.
Defined.

Example setup_without_the_linter :
  fst (run_program "/home/u/project" ascii_negative_number lint_is_missing
                   ["setup"])
  = [ Invocation ["vagrant"; "validate"] (Some "/home/u/project");
      Invocation ["ansible-lint";
                  "/home/u/project/provisioning/playbook.yml"] None ].
Proof. vm_compute. reflexivity. Qed.

(** * The help of the top-level parser *)

(** No argument string is ambiguous for the top-level parser: its only
    options are [-h] and [--help]. *)
Lemma flat_map_pair {A B} (f : A -> list B) (x y : A) :
  flat_map f [x; y] = f x ++ f y.
Proof. simpl. by rewrite app_nil_r. Qed.

Lemma substring_0_2 (c1 c2 : ascii) (t : string) :
  substring 0 2 (String c1 (String c2 t)) = String c1 (String c2 "").
Proof. simpl. by rewrite substring_0_0. Qed.

Lemma top_level_tuples (t : string) :
  t <> "" -> String.length t <> 1%nat ->
  (List.length (get_option_tuples new_parser t) <= 1)%nat.
Proof.
  intros Hne Hlen. unfold get_option_tuples.
  change (option_string_actions new_parser)
    with [("-h", HelpAction ["-h"; "--help"]);
          ("--help", HelpAction ["-h"; "--help"])].
  destruct (startswith t "--") eqn:Ht.
  - apply startswith_app in Ht as [r0 Ht].
    destruct (split_once "=" t) as [[q e]|] eqn:Es.
    + apply split_once_app in Es.
      rewrite flat_map_pair, length_app. cbv beta iota.
      assert (startswith "-h" q = false) as ->.
      { destruct (startswith "-h" q) eqn:E; [|done].
        exfalso. apply startswith_app in E as [r E].
        destruct q as [|c1 [|c2 [|c3 q]]]; subst t; norm_append;
          simplify_eq. }
      destruct (startswith "--help" q); simpl; lia.
    + rewrite flat_map_pair, length_app. cbv beta iota.
      assert (startswith "-h" t = false) as ->.
      { destruct (startswith "-h" t) eqn:E; [|done].
        exfalso. apply startswith_app in E as [r E].
        subst t; norm_append; simplify_eq. }
      destruct (startswith "--help" t); simpl; lia.
  - destruct t as [|c1 [|c2 t]]; [done|done|].
    rewrite flat_map_pair, length_app. cbv beta iota.
    rewrite substring_0_2.
    assert (startswith "--help" (String c1 (String c2 t)) = false) as ->.
    { destruct (startswith "--help" _) eqn:E; [|done].
      apply startswith_app in E as [r E]. norm_append. simplify_eq.
      assert (startswith (String "-" (String "-" t)) "--" = true)
        by (apply startswith_app; by exists t).
      congruence. }
    destruct (String.eqb_spec "--help" (String c1 (String c2 "")));
      [done|].
    destruct (String.eqb "-h" _); [simpl; lia|].
    destruct (startswith "-h" _); simpl; lia.
Qed.

Lemma top_level_unambiguous (negative_number_matcher : string -> bool)
    (t : string) :
  parse_optional negative_number_matcher new_parser t <> Ambiguous.
Proof.
  unfold parse_optional.
  destruct (String.eqb_spec t "") as [|Hne]; [done|].
  destruct (negb (startswith t "-")); [done|].
  destruct (lookup_option new_parser t); [done|].
  destruct (Nat.eqb_spec (String.length t) 1) as [|Hlen]; [done|].
  destruct (split_once "=" t) as [[q e]|];
    [destruct (lookup_option new_parser q); [done|]|];
    pose proof (top_level_tuples t Hne Hlen) as Hle;
    destruct (get_option_tuples new_parser t) as [|[[a os] ea] [|x l]];
    simpl in Hle; try lia; try done;
    by repeat case_match.
Qed.

Lemma top_level_classify (negative_number_matcher : string -> bool)
    (argv : list string) :
  exists toks, classify negative_number_matcher new_parser argv = inr toks.
Proof.
  induction argv as [|t rest [toks IH]]; simpl; [by eexists|].
  destruct (String.eqb t "--"); [by eexists|].
  pose proof (top_level_unambiguous negative_number_matcher t) as Hna.
  rewrite IH.
  destruct (parse_optional negative_number_matcher new_parser t);
    [by eexists..|done].
Qed.

Lemma help_first (realpath_dot : string)
    (negative_number_matcher : string -> bool) (h : string)
    (rest : list string) :
  h = "-h" \/ h = "--help" ->
  parse_args negative_number_matcher new_parser (subparsers realpath_dot)
    (h :: rest)
  = inl (SystemExit 0 HelpPrinted).
Proof.
  intros Hh. unfold parse_args.
  destruct (top_level_classify negative_number_matcher rest) as [toks Hc].
  assert (classify negative_number_matcher new_parser (h :: rest)
          = inr ((h, ClsO (Some (HelpAction ["-h"; "--help"])) h None)
                 :: toks)) as ->.
  { destruct Hh as [-> | ->]; simpl; by rewrite Hc. }
  by destruct Hh as [-> | ->].
Qed.

(** X6. When the first argument string is [-h] or [--help], the program
    prints the help of the top-level parser and exits with status 0
    without starting a process, whatever follows: a sub-command, its
    options, or strings no parser would accept. *)
Theorem help_comes_first (realpath_dot : string)
    (negative_number_matcher : string -> bool) (w : world)
    (rest : list string) :
  let run h :=
    run_program realpath_dot negative_number_matcher w (h :: rest) in
  run "-h" = ([], inl (SystemExit 0 HelpPrinted))
  /\ run "--help" = ([], inl (SystemExit 0 HelpPrinted))
  /\ exit_status (snd (run "-h")) = 0
  /\ exit_status (snd (run "--help")) = 0.
Proof.
  intros run. subst run. cbv beta.
  assert (H : forall h, h = "-h" \/ h = "--help" ->
            run_program realpath_dot negative_number_matcher w (h :: rest)
            = ([], inl (SystemExit 0 HelpPrinted))).
  { intros h Hh. unfold run_program, main, mbind, M_bind, bind.
    by rewrite (help_first _ _ _ _ Hh). }
  rewrite !H by auto. done.
Qed.

Example help_before_an_unknown_subcommand :
  run_program "/home/u/project" ascii_negative_number all_succeed
    ["--help"; "deploy"; "--fast"]
  = ([], inl (SystemExit 0 HelpPrinted)).
Proof. vm_compute. reflexivity. Qed.

(** * Options given on the command line *)

(** An argument string that does not start with [-] is never an option,
    and is not [--]. *)
Lemma plain_not_dashes (v : string) :
  startswith v "-" = false -> String.eqb v "--" = false.
Proof.
  intros Hv. destruct (String.eqb_spec v "--") as [->|]; [|done].
  by vm_compute in Hv.
Qed.

Lemma parse_optional_plain (negative_number_matcher : string -> bool)
    (p : ArgumentParser) (v : string) :
  startswith v "-" = false ->
  parse_optional negative_number_matcher p v = NotOptional.
Proof.
  intros Hv. unfold parse_optional. rewrite Hv. simpl.
  by destruct (String.eqb v "").
Qed.

Lemma get_values_plain (v : string) :
  startswith v "-" = false -> get_values [v] = PyStr v.
Proof.
  intros Hv. unfold get_values. simpl. by rewrite plain_not_dashes.
Qed.

(** An option of a sub-parser followed by its value, and nothing else. *)
Lemma parse_known_args_store (negative_number_matcher : string -> bool)
    (p : ArgumentParser) (opt v : string) (oss : list string) (d : string)
    (def : pyval) (req : bool) :
  lookup_option p opt = Some (StoreAction oss d def req) ->
  startswith opt "-" = true -> opt <> "--" ->
  startswith v "-" = false ->
  required_actions p [d] = [] ->
  parse_known_args negative_number_matcher p [opt; v]
  = inr (<[d := PyStr v]> (defaults p), []).
Proof.
  intros Hl Hopt Hdash Hv Hreq. unfold parse_known_args.
  assert (classify negative_number_matcher p [opt; v]
          = inr [(opt, ClsO (Some (StoreAction oss d def req)) opt None);
                 (v, ClsA)]) as ->.
  { simpl. rewrite (plain_not_dashes v Hv), (parse_optional_plain _ _ v Hv).
    destruct (String.eqb_spec opt "--") as [|_]; [done|].
    unfold parse_optional. rewrite Hopt, Hl. simpl.
    destruct (String.eqb_spec opt "") as [->|_]; [|done].
    by vm_compute in Hopt. }
  simpl. rewrite (get_values_plain v Hv). simpl. by rewrite Hreq.
Qed.

(** A first argument string that is not an option selects the
    sub-parser, which gets all that follows. *)
Lemma parse_args_subcommand (negative_number_matcher : string -> bool)
    (sp : SubParsers) (name : string) (args : list string) :
  startswith name "-" = false ->
  parse_args negative_number_matcher new_parser sp (name :: args)
  = match subparsers_call negative_number_matcher sp
            (<[sub_dest sp := PyNone]> (defaults new_parser))
            (name :: args) with
    | inl e => inl e
    | inr (ns, []) => inr ns
    | inr (_, extras) => error (UnrecognizedArguments extras)
    end.
Proof.
  intros Hname. unfold parse_args.
  destruct (top_level_classify negative_number_matcher (name :: args))
    as [toks Hc].
  rewrite Hc. pose proof Hc as Hm. apply classify_tokens in Hm as [Hm _].
  simpl in Hc.
  rewrite (plain_not_dashes name Hname),
    (parse_optional_plain _ _ name Hname) in Hc.
  destruct (classify negative_number_matcher new_parser args)
    as [|toks']; [done|].
  injection Hc as <-. simpl in Hm. injection Hm as Hm.
  assert (consume_top negative_number_matcher new_parser sp
            ((name, ClsA) :: toks')
            (<[sub_dest sp := PyNone]> (defaults new_parser)) []
          = match subparsers_call negative_number_matcher sp
                    (<[sub_dest sp := PyNone]> (defaults new_parser))
                    (name :: map fst toks') with
            | inl e => inl e
            | inr (ns', sub_extras) => inr (ns', [] ++ sub_extras)
            end) as -> by reflexivity.
  rewrite Hm.
  by destruct (subparsers_call _ _ _ _) as [|[? ?]].
Qed.












(** The operation of [ansible-vault] behind each vault sub-command. *)
Definition vault_operation (name : string) : string :=
  if String.eqb name "encrypt_vault" then "encrypt"
  else if String.eqb name "edit_vault" then "edit"
  else if String.eqb name "view_vault" then "view"
  else "rekey".

Lemma parse_args_vault_file (realpath_dot : string)
    (negative_number_matcher : string -> bool) (name opt v : string) :
  name ∈ vault_commands ->
  opt = "-f" \/ opt = "--vault-file-path" ->
  startswith v "-" = false ->
  parse_args negative_number_matcher new_parser (subparsers realpath_dot)
    [name; opt; v] = inr (vault_arguments name v).
Proof.
  intros Hname Hopt Hv.
  assert (Hplain : startswith name "-" = false).
  { unfold vault_commands in Hname.
    rewrite !elem_of_cons, !elem_of_nil in Hname.
    by repeat destruct Hname as [Hname|Hname]; subst. }
  rewrite (parse_args_subcommand _ _ _ _ Hplain). unfold subparsers_call.
  rewrite (lookup_parser_vault _ _ Hname).
  erewrite parse_known_args_store;
    [|by destruct Hopt as [-> | ->]
     |by destruct Hopt as [-> | ->]
     |by destruct Hopt as [-> | ->]
     |done|reflexivity].
  reflexivity.
Qed.

(** X8. A vault sub-command that is given its file with [-f] or
    [--vault-file-path] (a string that does not start with [-]) starts
    exactly one process: [ansible-vault] with the operation of the
    sub-command on that file, in the inherited working directory. The
    program then exits with status 0 exactly when that process exited
    with zero. *)
Theorem vault_command_on_file (realpath_dot : string)
    (negative_number_matcher : string -> bool) (w : world)
    (name opt v : string) :
  name ∈ vault_commands ->
  opt = "-f" \/ opt = "--vault-file-path" ->
  startswith v "-" = false ->
  let run := run_program realpath_dot negative_number_matcher w
               [name; opt; v] in
  let i := Invocation ["ansible-vault"; vault_operation name; v] None in
  fst run = [i]
  /\ (exit_status (snd run) = 0 <-> w [] i = Exited 0).
Proof.
  intros Hname Hopt Hv run i.
  assert (Hcall : eval_call name (vault_arguments name v) = spawn i).
  { unfold vault_commands in Hname.
    rewrite !elem_of_cons, elem_of_nil in Hname.
    by repeat destruct Hname as [->|Hname]. }
  subst run. unfold run_program, main, mbind, M_bind, bind.
  rewrite (parse_args_vault_file _ _ _ _ _ Hname Hopt Hv). simpl.
  change (vault_arguments name v !! "subcommand") with (Some (PyStr name)).
  unfold try_except_NameError. rewrite Hcall.
  destruct (spawn_cases i w []) as [[E ->]|[(rc&?&E&->)|[E ->]]];
    simpl; (split; [done|]); rewrite E; split; intros; by simplify_eq.
Qed.

Lemma vault_command_on_file_witness :
  let run := run_program "/home/u/project" ascii_negative_number all_succeed
               ["edit_vault"; "--vault-file-path"; "secrets.yml"] in
  let i := Invocation ["ansible-vault"; vault_operation "edit_vault";
                       "secrets.yml"] None in
  fst run = [i]
  /\ (exit_status (snd run) = 0 <-> all_succeed [] i = Exited 0).
Proof.
  apply (vault_command_on_file "/home/u/project" ascii_negative_number
           all_succeed "edit_vault" "--vault-file-path" "secrets.yml").
  - unfold vault_commands. rewrite !elem_of_cons. tauto.
  - by right.
  - reflexivity.
Defined.

(** * Printing the help *)

(** The help string of the playbook option, as [add_argument_playbook]
    builds it: it holds the default path, and with it the current
    directory. *)
Definition playbook_help (realpath_dot : string) : string :=
  ("Path to the playbook file. Default is "
   ++ default_playbook_path realpath_dot ++ ".")%string.

(** argparse expands a help string with the [%] operator when it prints
    the help; a string without [%] is printed as it is. The help action
    of the model stands for a help that is printed: what is said about
    the help of a sub-command with a playbook is said for a help string
    that formats. *)
Definition help_formats (help : string) : bool := negb (contains "%" help).

(** * The exceptions of a run *)

(** The parse never takes a key out of the namespace. *)
Lemma consume_keeps (p : ArgumentParser) (toks : list token)
    (st st' : parse_state) (extras extras' : list string) (d : string) :
  consume p toks st extras = inr (st', extras') ->
  is_Some (fst st !! d) -> is_Some (fst st' !! d).
Proof.
  revert st extras.
  induction toks as [|[s c] rest IH1 IH2] using tokens_ind;
    intros st extras; simpl.
  { by intros [= <- <-]. }
  destruct c as [| |[a|] os ea]; try apply IH1.
  destruct (consume_optional p a os ea (head rest)) as [?|[tuples used]] eqn:Ec;
    [done|].
  destruct (take_actions st tuples) as [?|st1] eqn:Et; [done|].
  destruct (consume_optional_store _ _ _ _ _ _ _ _ _ Ec Et)
    as (oss & d0 & def & req & args & -> & ->).
  assert (Hstep : is_Some (fst st !! d) ->
            is_Some (fst (<[d0:=get_values args]> (fst st), d0 :: snd st)
                     !! d)).
  { simpl. intros H. destruct (decide (d0 = d)) as [->|Hne].
    - rewrite lookup_insert_eq. by eexists.
    - by rewrite lookup_insert_ne. }
  destruct used.
  - destruct rest as [|tok rest'].
    + intros [= <- <-]. exact Hstep.
    + intros H Hd. apply (IH2 _ _ H), Hstep, Hd.
  - intros H Hd. apply (IH1 _ _ H), Hstep, Hd.
Qed.

Lemma parse_known_args_keeps (negative_number_matcher : string -> bool)
    (p : ArgumentParser) (d : string) (args extras : list string)
    (ns : Namespace) :
  parse_known_args negative_number_matcher p args = inr (ns, extras) ->
  is_Some (defaults p !! d) -> is_Some (ns !! d).
Proof.
  unfold parse_known_args.
  destruct (classify _ p args) as [?|toks]; [done|].
  destruct (consume p toks (defaults p, []) []) as [?|[[ns' seen] extras']] eqn:E;
    [done|].
  destruct (required_actions p seen); [|done]. intros [= <- <-].
  apply (consume_keeps _ _ _ _ _ _ d E).
Qed.

(** The parser of a sub-command provides every parameter of the
    function of the same name. *)
Lemma parameters_provided (realpath_dot name : string) (p : ArgumentParser)
    (f : function) (d : string) :
  lookup_parser (subparsers realpath_dot) name = Some p ->
  lookup_function name = Some f ->
  d ∈ parameters f -> is_Some (defaults p !! d).
Proof.
  intros Hp Hf Hd. apply lookup_parser_Some in Hp.
  apply lookup_function_named in Hf. unfold module_functions in Hf.
  unfold vagrant_commands, provision_commands, vault_commands in Hp.
  rewrite !elem_of_cons, !elem_of_nil in Hp.
  rewrite !elem_of_cons, !elem_of_nil in Hf.
  destruct Hp as [[Hn ->]|[[Hn ->]|[[Hn ->]|[Hn ->]]]];
    repeat destruct Hn as [->|Hn]; try done;
    repeat destruct Hf as [Hf|Hf]; simplify_eq; try done; simpl in Hd;
    rewrite !elem_of_cons, elem_of_nil in Hd;
    repeat destruct Hd as [->|Hd]; try done; by eexists.
Qed.

(** What is left of the exceptions of a function when every parameter
    has its keyword. *)
Definition process_or_path_exn (e : exn) : Prop :=
  match e with
  | CalledProcessError _ _ | OSError | TypeError NotPathLike => True
  | _ => False
  end.

Lemma call_exceptions (f : function) (kw : Namespace) :
  f ∈ map snd module_functions ->
  (forall d, d ∈ parameters f -> is_Some (kw !! d)) ->
  obeys (fun _ => True) process_or_path_exn (call f kw).
Proof.
  intros E Hkw. unfold module_functions in E. simpl in E.
  rewrite !elem_of_cons, elem_of_nil in E.
  repeat destruct E as [->|E]; [..|done];
    unfold call; simpl; simpl in Hkw;
    repeat match goal with
           | |- context [kw !! ?d] =>
               let v := fresh "v" in
               destruct (Hkw d) as [v ->];
               [rewrite !elem_of_cons; tauto|]
           end;
    obeys_handler; done.
Qed.

(** How the dispatch of a parsed sub-command ends. *)
Lemma dispatch_exceptions (realpath_dot : string)
    (negative_number_matcher : string -> bool) (name : string)
    (args : list string) (p : ArgumentParser) (subns ns : Namespace)
    (w : world) :
  lookup_parser (subparsers realpath_dot) name = Some p ->
  parse_known_args negative_number_matcher p args = inr (subns, []) ->
  (forall d, d <> "subcommand" -> ns !! d = subns !! d) ->
  let run := try_except_NameError (eval_call name ns)
               (fun _ => parser_error (NotImplementedYet name)) w [] in
  run = ([], inl (SystemExit 2 (NotImplementedYet name)))
  \/ match snd run with
     | inl e => process_or_path_exn e
     | inr _ => True
     end.
Proof.
  intros Hp Hsub Hd run. subst run.
  unfold try_except_NameError, eval_call.
  destruct (lookup_function name) as [f|] eqn:Hf; [|by left].
  right.
  destruct (call_exceptions f ns) with (w := w) (tr := @nil invocation)
    as (new & _ & _ & He).
  - by eapply lookup_function_Some.
  - intros d Hin. rewrite Hd.
    + eapply parse_known_args_keeps; [exact Hsub|].
      by eapply parameters_provided.
    + apply lookup_function_var_keyword in Hf as [_ Hno].
      by intros ->.
  - destruct (call f ns w []) as [tr [e|[]]]; simpl in *; [|done].
    specialize (He e eq_refl). by destruct e as [| |[]| | |].
Qed.

(** X9. When the help of the playbook option formats (the current
    directory holds no [%]), a run of the program ends in one of six
    ways: the function of the sub-command returns; the help is printed
    (no process); the argument parser reports an error (exit status 2,
    no process); a process exits non-zero ([CalledProcessError]); a
    process cannot be started ([OSError]); or a path that is not a
    string reaches [subprocess.run] ([TypeError]). No [NameError], no
    [AttributeError], and no [TypeError] for a missing or an unexpected
    argument of a function leaves the program. *)
Theorem run_outcomes (realpath_dot : string)
    (negative_number_matcher : string -> bool) (w : world)
    (argv : list string) :
  help_formats (playbook_help realpath_dot) = true ->
  let run := run_program realpath_dot negative_number_matcher w argv in
  snd run = inr tt
  \/ run = ([], inl (SystemExit 0 HelpPrinted))
  \/ (exists d, d <> HelpPrinted /\ run = ([], inl (SystemExit 2 d)))
  \/ (exists rc cmd, rc <> 0 /\ snd run = inl (CalledProcessError rc cmd))
  \/ snd run = inl OSError
  \/ snd run = inl (TypeError NotPathLike).
Proof.
  intros _ run.
  subst run.
  destruct (faithful_main realpath_dot negative_number_matcher argv w [])
    as (new & _ & Hrun).
  fold (run_program realpath_dot negative_number_matcher w argv) in Hrun.
  destruct (run_program_cases realpath_dot negative_number_matcher w argv)
    as [(e & He & Hr)|[[_ Hr]|
        (name & args & q & subns & ns & _ & Hq & Hsub & _ & _ & Hd & Hr)]].
  - rewrite Hr.
    destruct (parse_args_exits _ _ _ _ _ He) as [|d Hd]; eauto 10.
  - rewrite Hr. right; right; left.
    exists MustChooseSubcommand. by split.
  - destruct (dispatch_exceptions realpath_dot negative_number_matcher
                name args q subns ns w Hq Hsub Hd) as [He|He];
      rewrite <- Hr in He.
    { rewrite He. right; right; left.
      exists (NotImplementedYet name). by split. }
    destruct (snd (run_program realpath_dot negative_number_matcher w argv))
      as [e|[]] eqn:Es; [|by left].
    destruct e as [rc cmd| |[]| | |]; try done.
    + right; right; right; left. exists rc, cmd. split; [|done].
      inversion Hrun as [| ? ? _ Hne|? ? ? _ Hf]; subst.
      * by destruct Hne.
      * by inversion Hf.
    + tauto.
    + tauto.
Qed.

Lemma run_outcomes_witness :
  let run := run_program "/home/u/project" ascii_negative_number all_succeed
                         ["status"] in
  snd run = inr tt
  \/ run = ([], inl (SystemExit 0 HelpPrinted))
  \/ (exists d, d <> HelpPrinted /\ run = ([], inl (SystemExit 2 d)))
  \/ (exists rc cmd, rc <> 0 /\ snd run = inl (CalledProcessError rc cmd))
  \/ snd run = inl OSError
  \/ snd run = inl (TypeError NotPathLike).
Proof.
  apply (run_outcomes "/home/u/project" ascii_negative_number all_succeed
           ["status"]).
  reflexivity.
Defined.

(** The option [-f] with [--] attached stores an empty list as the
    Vagrantfile path, and [subprocess.run] rejects it. *)
Example status_with_a_list_for_a_path :
  run_program "/home/u/project" ascii_negative_number all_succeed
    ["status"; "-f--"]
  = ([], inl (TypeError NotPathLike)).
Proof. vm_compute. reflexivity. Qed.

(** * Arguments no option takes *)

(** The parse of a sub-parser only adds to the strings it sets aside. *)
Lemma consume_extras (p : ArgumentParser) (toks : list token)
    (st st' : parse_state) (extras extras' : list string) :
  consume p toks st extras = inr (st', extras') ->
  exists more, extras' = extras ++ more.
Proof.
  revert st extras.
  induction toks as [|[s c] rest IH1 IH2] using tokens_ind;
    intros st extras; simpl.
  { intros [= <- <-]. exists []. by rewrite app_nil_r. }
  assert (Hskip : consume p rest st (extras ++ [s]) = inr (st', extras') ->
                  exists more, extras' = extras ++ more).
  { intros H. destruct (IH1 _ _ H) as [more ->].
    exists (s :: more). by rewrite <- app_assoc. }
  destruct c as [| |[a|] os ea]; try exact Hskip. clear Hskip.
  destruct (consume_optional p a os ea (head rest)) as [?|[tuples used]];
    [done|].
  destruct (take_actions st tuples) as [?|st1]; [done|].
  destruct used; [destruct rest as [|tok rest']|].
  - intros [= <- <-]. exists []. by rewrite app_nil_r.
  - apply IH2.
  - apply IH1.
Qed.

Lemma plain_not_help (v : string) :
  startswith v "-" = false -> help_like v = false.
Proof.
  intros Hv. unfold help_like.
  destruct (startswith v "-h") eqn:E1.
  { by rewrite (startswith_trans v "-h" "-" E1 eq_refl) in Hv. }
  destruct (startswith v "--h") eqn:E2; [|done].
  by rewrite (startswith_trans v "--h" "-" E2 eq_refl) in Hv.
Qed.

(** A sub-parser sets aside a first argument string that is not an
    option, if it returns at all. *)
Lemma parse_known_args_stray (negative_number_matcher : string -> bool)
    (p : ArgumentParser) (v : string) (rest : list string) :
  startswith v "-" = false ->
  match parse_known_args negative_number_matcher p (v :: rest) with
  | inl _ => True
  | inr (_, extras) => extras <> []
  end.
Proof.
  intros Hv. unfold parse_known_args. simpl.
  rewrite (plain_not_dashes v Hv), (parse_optional_plain _ _ v Hv).
  destruct (classify negative_number_matcher p rest) as [|toks]; [done|].
  simpl.
  destruct (consume p toks (defaults p, []) [v])
    as [|[[ns seen] extras]] eqn:E; [done|].
  destruct (required_actions p seen); [|done].
  apply consume_extras in E as [more ->]. done.
Qed.

(** X10. When the string after the sub-command is not an option (it does
    not start with [-]), as when a path is given without [-f], the
    argument parser rejects the command line and no process is started.
    The program exits with status 2 when no later argument asks for the
    help; when one does and the help of the playbook option formats, it
    exits with status 2, or with status 0 after printing the help. *)
Theorem stray_argument_is_rejected (realpath_dot : string)
    (negative_number_matcher : string -> bool) (w : world)
    (name v : string) (rest : list string) :
  startswith name "-" = false ->
  startswith v "-" = false ->
  let run := run_program realpath_dot negative_number_matcher w
               (name :: v :: rest) in
  fst run = []
  /\ (Forall (fun t => help_like t = false) rest ->
      exists d, snd run = inl (SystemExit 2 d))
  /\ (help_formats (playbook_help realpath_dot) = true ->
      (exists d, snd run = inl (SystemExit 2 d))
      \/ (snd run = inl (SystemExit 0 HelpPrinted)
          /\ Exists (fun t => help_like t = true) rest)).
Proof.
  intros Hname Hv run.
  assert (He : exists e,
             parse_args negative_number_matcher new_parser
               (subparsers realpath_dot) (name :: v :: rest) = inl e).
  { rewrite (parse_args_subcommand _ _ _ _ Hname). unfold subparsers_call.
    destruct (lookup_parser (subparsers realpath_dot) name) as [p|];
      [|by eexists].
    pose proof (parse_known_args_stray negative_number_matcher p v rest Hv)
      as Hstray.
    destruct (parse_known_args negative_number_matcher p (v :: rest))
      as [e|[subns [|x extras]]]; [by eexists|done|by eexists]. }
  destruct He as [e He].
  assert (Hrun : run = ([], inl e)).
  { subst run. unfold run_program, main, mbind, M_bind, bind.
    by rewrite He. }
  assert (Hhelp : forall d, e = SystemExit 0 d ->
                  Exists (fun t => help_like t = true) rest).
  { intros d ->. apply parse_args_help in He.
    apply Exists_cons in He as [Hh|He];
      [by rewrite (plain_not_help name Hname) in Hh|].
    apply Exists_cons in He as [Hh|He];
      [by rewrite (plain_not_help v Hv) in Hh|done]. }
  rewrite Hrun. split; [done|]. simpl.
  destruct (parse_args_exits _ _ _ _ _ He) as [|d Hd].
  - split.
    + intros HF. specialize (Hhelp _ eq_refl).
      apply Exists_exists in Hhelp as (t & Hin & Ht).
      rewrite Forall_forall in HF. specialize (HF _ Hin). congruence.
    + intros _. right. split; [done|]. by eapply Hhelp.
  - split; [intros _|intros _; left]; by eexists.
Qed.

Lemma stray_argument_is_rejected_witness :
  let run := run_program "/home/u/project" ascii_negative_number all_succeed
               ["status"; "/srv/vm"] in
  fst run = []
  /\ (Forall (fun t => help_like t = false) [] ->
      exists d, snd run = inl (SystemExit 2 d))
  /\ (help_formats (playbook_help "/home/u/project") = true ->
      (exists d, snd run = inl (SystemExit 2 d))
      \/ (snd run = inl (SystemExit 0 HelpPrinted)
          /\ Exists (fun t => help_like t = true) [])).
Proof.
  apply (stray_argument_is_rejected "/home/u/project" ascii_negative_number
           all_succeed "status" "/srv/vm" []); reflexivity.
Defined.

Example path_without_its_option :
  run_program "/home/u/project" ascii_negative_number all_succeed
    ["status"; "/srv/vm"]
  = ([], inl (SystemExit 2 (UnrecognizedArguments ["/srv/vm"]))).
Proof. vm_compute. reflexivity. Qed.

(** * Values that are not strings *)

(** [s.endswith(suffix)]. *)
Fixpoint endswith (s suffix : string) : bool :=
  String.eqb s suffix
  || match s with
     | EmptyString => false
     | String _ rest => endswith rest suffix
     end.

Lemma endswith_refl (s : string) : endswith s s = true.
Proof. destruct s; [done|]. cbn [endswith]. by rewrite String.eqb_refl. Qed.

Lemma endswith_app (pre suffix : string) :
  endswith (pre ++ suffix) suffix = true.
Proof.
  induction pre as [|c pre IH]; norm_append; [apply endswith_refl|].
  cbn [endswith]. rewrite IH. apply orb_true_r.
Qed.

Lemma substring_all (s : string) (m : nat) :
  (String.length s <= m)%nat -> substring 0 m s = s.
Proof.
  revert m. induction s as [|c s IH]; intros [|m] Hm; simpl in *;
    try done; try lia.
  f_equal. apply IH. lia.
Qed.

(** An explicit argument is the end of the argument string it came
    with. *)
Lemma get_option_tuples_suffix (p : ArgumentParser) (t os e : string)
    (a : Action) :
  In (a, os, Some e) (get_option_tuples p t) ->
  exists pre, t = (pre ++ e)%string.
Proof.
  unfold get_option_tuples. destruct (startswith t "--").
  - destruct (split_once "=" t) as [[q r]|] eqn:Es.
    + apply split_once_app in Es. intros Hin.
      apply in_flat_map in Hin as ([os' a'] & _ & Hx).
      destruct (startswith os' q); [|done].
      destruct Hx as [[= _ _ <-]|[]].
      exists (q ++ "=")%string. by rewrite append_assoc.
    + intros Hin. apply in_flat_map in Hin as ([os' a'] & _ & Hx).
      destruct (startswith os' t); [|done]. by destruct Hx as [[=]|[]].
  - intros Hin. apply in_flat_map in Hin as ([os' a'] & _ & Hx).
    destruct (String.eqb os' (substring 0 2 t)).
    + destruct Hx as [[= _ _ <-]|[]].
      destruct t as [|c1 [|c2 t]].
      * by exists "".
      * by exists (String c1 "").
      * exists (String c1 (String c2 "")). norm_append. simpl.
        rewrite substring_all; [done | lia].
    + destruct (startswith os' t); [|done]. by destruct Hx as [[=]|[]].
Qed.

Lemma explicit_arg_suffix (negative_number_matcher : string -> bool)
    (p : ArgumentParser) (t os e : string) (a : option Action) :
  parse_optional negative_number_matcher p t = Optional a os (Some e) ->
  exists pre, t = (pre ++ e)%string.
Proof.
  unfold parse_optional.
  destruct (String.eqb t ""); [done|].
  destruct (negb (startswith t "-")); [done|].
  destruct (lookup_option p t); [done|].
  destruct (Nat.eqb (String.length t) 1); [done|].
  assert (Htuples :
    match get_option_tuples p t with
    | [] =>
        if negative_number_matcher t then NotOptional
        else if contains " " t then NotOptional else Optional None t None
    | [(action, option_string, explicit_arg)] =>
        Optional (Some action) option_string explicit_arg
    | _ :: _ :: _ => Ambiguous
    end = Optional a os (Some e) -> exists pre, t = (pre ++ e)%string).
  { destruct (get_option_tuples p t) as [|[[a1 os1] ea1] [|]] eqn:Eg;
      repeat case_match; try done.
    intros [= <- <- ->].
    apply (get_option_tuples_suffix p t os1 e a1). rewrite Eg. by left. }
  destruct (split_once "=" t) as [[q r]|] eqn:Es; [|exact Htuples].
  destruct (lookup_option p q); [|exact Htuples].
  intros [= <- <- <-]. apply split_once_app in Es.
  exists (q ++ "=")%string. by rewrite append_assoc.
Qed.

(** What an option stores: its explicit argument, or the string that
    follows it. *)
Lemma consume_optional_args (p : ArgumentParser) (a : Action) (os : string)
    (ea : option string) (next : option token) (tuples : list action_tuple)
    (used : bool) (st st' : parse_state) :
  consume_optional p a os ea next = inr (tuples, used) ->
  take_actions st tuples = inr st' ->
  exists oss d def req x,
    a = StoreAction oss d def req
    /\ st' = (<[d := get_values [x]]> (fst st), d :: snd st)
    /\ (ea = Some x \/ (ea = None /\ next = Some (x, ClsA))).
Proof.
  destruct a as [oss|oss d def req].
  - intros Hc Ht. exfalso. destruct ea as [x|]; simpl in Hc.
    + apply match_explicit_help in Hc as [rest ->]. done.
    + injection Hc as <- <-. done.
  - intros Hc Ht. exists oss, d, def, req.
    destruct ea as [x|]; simpl in Hc.
    + exists x. destruct x; injection Hc as <- <-; simpl in Ht;
        injection Ht as <-; eauto.
    + destruct next as [[v []]|]; try done.
      exists v. injection Hc as <- <-. simpl in Ht. injection Ht as <-. eauto.
Qed.

(** Every value of the namespace is [None] or a string, and what an
    option stored is a string. *)
Definition strings (st : parse_state) : Prop :=
  (forall d v, fst st !! d = Some v -> v = PyNone \/ exists s, v = PyStr s)
  /\ (forall d, d ∈ snd st -> exists s, fst st !! d = Some (PyStr s)).

(** A token whose string does not end with [--], and whose explicit
    argument is not [--]. *)
Definition no_dashes (tok : token) : Prop :=
  fst tok <> "--"
  /\ forall a os, snd tok <> ClsO a os (Some "--").

Lemma strings_insert (st : parse_state) (d x : string) :
  x <> "--" -> strings st ->
  strings (<[d := get_values [x]]> (fst st), d :: snd st).
Proof.
  intros Hx [H1 H2].
  assert (Hg : get_values [x] = PyStr x).
  { unfold get_values. simpl.
    by destruct (String.eqb_spec x "--"). }
  rewrite Hg. split; simpl.
  - intros d' v. destruct (decide (d = d')) as [->|Hne].
    + rewrite lookup_insert_eq. intros [= <-]. eauto.
    + rewrite lookup_insert_ne by done. apply H1.
  - intros d' Hin. destruct (decide (d = d')) as [->|Hne].
    + rewrite lookup_insert_eq. eauto.
    + rewrite lookup_insert_ne by done. apply H2.
      apply elem_of_cons in Hin as [->|]; done.
Qed.

Lemma consume_strings (p : ArgumentParser) (toks : list token)
    (st st' : parse_state) (extras extras' : list string) :
  Forall no_dashes toks ->
  consume p toks st extras = inr (st', extras') ->
  strings st -> strings st'.
Proof.
  revert st extras.
  induction toks as [|[s c] rest IH1 IH2] using tokens_ind;
    intros st extras HF; simpl.
  { by intros [= <- <-]. }
  assert (HF1 : Forall no_dashes rest) by (by inversion HF).
  assert (HF2 : Forall no_dashes (tail rest)).
  { destruct rest; [done|]. by inversion HF1. }
  destruct c as [| |[a|] os ea]; try apply (IH1 _ _ HF1).
  destruct (consume_optional p a os ea (head rest)) as [?|[tuples used]] eqn:Ec;
    [done|].
  destruct (take_actions st tuples) as [?|st1] eqn:Et; [done|].
  destruct (consume_optional_args _ _ _ _ _ _ _ _ _ Ec Et)
    as (oss & d & def & req & x & -> & -> & Hx).
  assert (Hdash : x <> "--").
  { destruct Hx as [->|[-> Hnext]].
    - intros ->. inversion HF as [|? ? [_ Hno] _]; subst.
      by apply (Hno (Some (StoreAction oss d def req)) os).
    - destruct rest as [|[v c] rest']; [done|]. simpl in Hnext.
      injection Hnext as -> ->.
      inversion HF1 as [|? ? [Hv _] _]; subst. exact Hv. }
  destruct used.
  - destruct rest as [|tok rest'].
    + intros [= <- <-] Hst. by apply strings_insert.
    + intros H Hst. apply (IH2 _ _ HF2 H). by apply strings_insert.
  - intros H Hst. apply (IH1 _ _ HF1 H). by apply strings_insert.
Qed.

(** The tokens of argument strings that do not end with [--]. *)
Lemma classify_no_dashes (negative_number_matcher : string -> bool)
    (p : ArgumentParser) (args : list string) (toks : list token) :
  Forall (fun t => endswith t "--" = false) args ->
  classify negative_number_matcher p args = inr toks ->
  Forall no_dashes toks.
Proof.
  intros HF Hc. apply classify_tokens in Hc as [Hm Ht]. subst args.
  rewrite Forall_forall in HF. rewrite Forall_forall in Ht.
  apply Forall_forall. intros tok Hin.
  assert (Hend : endswith (fst tok) "--" = false).
  { apply HF. apply list_elem_of_In, in_map, list_elem_of_In, Hin. }
  split.
  - intros E. by rewrite E in Hend.
  - intros a os E. destruct (Ht _ Hin _ _ _ E) as [_ Hp].
    apply explicit_arg_suffix in Hp as [pre Hp].
    by rewrite Hp, endswith_app in Hend.
Qed.

Lemma required_actions_seen (p : ArgumentParser) (seen oss : list string)
    (d : string) (def : pyval) :
  In (StoreAction oss d def true) p -> required_actions p seen = [] ->
  d ∈ seen.
Proof.
  intros Hin Hnil. destruct (decide (d ∈ seen)) as [|Hd]; [done|].
  by destruct (required_actions_missing p seen oss d def Hin Hd).
Qed.

(** The namespace of a sub-parser, when no argument string ends with
    [--]: every value is [None] or a string, and a required option holds
    a string. *)
Lemma parse_known_args_strings (negative_number_matcher : string -> bool)
    (p : ArgumentParser) (args extras : list string) (ns : Namespace) :
  Forall (fun t => endswith t "--" = false) args ->
  (forall d v, defaults p !! d = Some v ->
               v = PyNone \/ exists s, v = PyStr s) ->
  parse_known_args negative_number_matcher p args = inr (ns, extras) ->
  (forall d v, ns !! d = Some v -> v = PyNone \/ exists s, v = PyStr s)
  /\ (forall oss d def, In (StoreAction oss d def true) p ->
        exists s, ns !! d = Some (PyStr s)).
Proof.
  intros HF Hdef. unfold parse_known_args.
  destruct (classify _ p args) as [?|toks] eqn:Ec; [done|].
  destruct (consume p toks (defaults p, []) []) as [?|[[ns' seen] extras']] eqn:E;
    [done|].
  destruct (required_actions p seen) eqn:Er; [|done]. intros [= <- <-].
  destruct (consume_strings p toks _ _ _ _
              (classify_no_dashes _ _ _ _ HF Ec) E) as [H1 H2].
  { split; [exact Hdef|]. simpl. intros d Hd. by apply elem_of_nil in Hd. }
  split; [exact H1|].
  intros oss d def Hin. apply H2. simpl.
  by eapply required_actions_seen.
Qed.

Lemma sub_parser_defaults (realpath_dot : string) (p : ArgumentParser)
    (d : string) (v : pyval) :
  sub_parser realpath_dot p -> defaults p !! d = Some v ->
  (exists s, v = PyStr s)
  \/ (v = PyNone /\ p = vault_parser /\ d = "vault_file_path").
Proof.
  intros [->|[->|[->| ->]]] Hd.
  - change (defaults (vagrant_parser realpath_dot))
      with (<["vagrantfile_path" := PyStr realpath_dot]> ∅ : Namespace)
      in Hd.
    apply lookup_insert_Some in Hd as [[_ <-]|[_ Hd]]; [eauto|].
    by rewrite lookup_empty in Hd.
  - change (defaults (provision_parser realpath_dot))
      with (<["playbook_path" := PyStr (default_playbook_path realpath_dot)]>
              (<["vagrantfile_path" := PyStr realpath_dot]> ∅) : Namespace)
      in Hd.
    apply lookup_insert_Some in Hd as [[_ <-]|[_ Hd]]; [eauto|].
    apply lookup_insert_Some in Hd as [[_ <-]|[_ Hd]]; [eauto|].
    by rewrite lookup_empty in Hd.
  - change (defaults (playbook_parser realpath_dot))
      with (<["playbook_path" := PyStr (default_playbook_path realpath_dot)]>
              ∅ : Namespace)
      in Hd.
    apply lookup_insert_Some in Hd as [[_ <-]|[_ Hd]]; [eauto|].
    by rewrite lookup_empty in Hd.
  - change (defaults vault_parser)
      with (<["vault_file_path" := PyNone]> ∅ : Namespace) in Hd.
    apply lookup_insert_Some in Hd as [[<- <-]|[_ Hd]]; [by right|].
    by rewrite lookup_empty in Hd.
Qed.

(** A function whose parameters are all strings ends with the exception
    of a process, if with any. *)
Lemma call_strings (f : function) (kw : Namespace) :
  f ∈ map snd module_functions ->
  (forall d, d ∈ parameters f -> exists s, kw !! d = Some (PyStr s)) ->
  obeys (fun _ => True) process_exn (call f kw).
Proof.
  intros E Hkw. unfold module_functions in E. simpl in E.
  rewrite !elem_of_cons, elem_of_nil in E.
  repeat destruct E as [->|E]; [..|done];
    unfold call; simpl; simpl in Hkw;
    repeat match goal with
           | |- context [kw !! ?d] =>
               let s := fresh "s" in
               destruct (Hkw d) as [s ->];
               [rewrite !elem_of_cons; tauto|]
           end;
    handler_bodies;
    repeat (apply obeys_bind; [|intros ?]);
    unfold run_cmd_and_exit; simpl; by apply obeys_spawn.
Qed.

(** The parameters of the function of a sub-command are strings in the
    parsed arguments, when no argument string ends with [--]. *)
Lemma parameters_are_strings (realpath_dot : string)
    (negative_number_matcher : string -> bool) (name : string)
    (p : ArgumentParser) (f : function) (args : list string)
    (subns : Namespace) (d : string) :
  Forall (fun t => endswith t "--" = false) args ->
  lookup_parser (subparsers realpath_dot) name = Some p ->
  lookup_function name = Some f ->
  parse_known_args negative_number_matcher p args = inr (subns, []) ->
  d ∈ parameters f ->
  exists s, subns !! d = Some (PyStr s).
Proof.
  intros HF Hp Hf Hsub Hd.
  pose proof (lookup_parser_sub_parser _ _ _ Hp) as Hsp.
  destruct (parse_known_args_strings negative_number_matcher p args []
              subns HF) as [H1 H2];
    [|exact Hsub|].
  { intros d' v Hv.
    destruct (sub_parser_defaults _ _ _ _ Hsp Hv) as [?|[-> _]]; auto. }
  destruct (parse_known_args_keeps negative_number_matcher p d args []
              subns Hsub) as [v Hv].
  { by eapply parameters_provided. }
  destruct (H1 d v Hv) as [->|[s ->]]; [|eauto].
  apply (parse_known_args_not_None _ _ _ _ _ _ Hsub) in Hv.
  destruct (sub_parser_defaults _ _ _ _ Hsp Hv) as [[s [=]]|(_ & -> & ->)].
  apply (H2 ["--vault-file-path"; "-f"] "vault_file_path" PyNone).
  by right; left.
Qed.

(** X11. When no argument string ends with [--] and the help of the
    playbook option formats (the current directory holds no [%]), a run
    of the program never ends with a [TypeError]: every path that
    reaches [subprocess.run] is a string, and an exception that leaves
    the program is the [SystemExit] of the argument parser or comes from
    a process ([CalledProcessError], [OSError]). *)
Theorem no_type_error (realpath_dot : string)
    (negative_number_matcher : string -> bool) (w : world)
    (argv : list string) (e : exn) :
  help_formats (playbook_help realpath_dot) = true ->
  Forall (fun t => endswith t "--" = false) argv ->
  snd (run_program realpath_dot negative_number_matcher w argv) = inl e ->
  (exists code d, e = SystemExit code d) \/ process_exn e.
Proof.
  intros _ HF.
  destruct (run_program_cases realpath_dot negative_number_matcher w argv)
    as [(e' & He & ->)|[[_ ->]|
        (name & args & q & subns & ns & -> & Hq & Hsub & _ & _ & Hd & ->)]].
  - intros [= <-]. left.
    destruct (parse_args_exits _ _ _ _ _ He); eauto.
  - intros [= <-]. eauto.
  - unfold try_except_NameError, eval_call.
    destruct (lookup_function name) as [f|] eqn:Hf;
      [|intros [= <-]; eauto].
    destruct (call_strings f ns) with (w := w) (tr := @nil invocation)
      as (new & _ & _ & He).
    + by eapply lookup_function_Some.
    + intros d Hin. rewrite Hd.
      * apply (parameters_are_strings realpath_dot negative_number_matcher
                 name q f args subns d); [by inversion HF | done..].
      * apply lookup_function_var_keyword in Hf as [_ Hno]. by intros ->.
    + destruct (call f ns w []) as [tr [e'|[]]]; simpl in *; [|done].
      specialize (He e' eq_refl). intros H. right.
      destruct e'; try done; by injection H as <-.
Qed.

Lemma no_type_error_witness :
  (exists code d, CalledProcessError 3 ["vagrant"; "status"]
                  = SystemExit code d)
  \/ process_exn (CalledProcessError 3 ["vagrant"; "status"]).
Proof.
  apply (no_type_error "/home/u/project" ascii_negative_number
           status_fails_with_3 ["status"; "-f"; "/srv/vm"]).
  - reflexivity.
  - by repeat constructor.
  - reflexivity.
Defined.

(** * The playbook *)

Lemma endswith_char_app (c : ascii) (a b : string) :
  b <> "" -> endswith_char c (a ++ b) = endswith_char c b.
Proof.
  intros Hb. induction a as [|d a IH]; norm_append; [done|].
  simpl. rewrite IH. destruct (a ++ b)%string eqn:E; [|done].
  destruct a; norm_append; simplify_eq.
Qed.

Lemma append_not_empty (a b : string) :
  b <> "" -> String.eqb (a ++ b) "" = false.
Proof.
  intros Hb. destruct (String.eqb_spec (a ++ b) "") as [E|]; [|done].
  destruct a; norm_append; simplify_eq.
Qed.

(** [join] puts one separator between the current directory and
    [provisioning/playbook.yml], and none after a directory that ends
    with one (the root). *)
Lemma default_playbook_path_shape (realpath_dot : string) :
  default_playbook_path realpath_dot
  = (realpath_dot
     ++ (if String.eqb realpath_dot "" || endswith_char "/" realpath_dot
         then "" else "/")
     ++ "provisioning/playbook.yml")%string.
Proof.
  unfold default_playbook_path, join. simpl.
  change (startswith "provisioning" "/") with false.
  change (startswith "playbook.yml" "/") with false. cbv iota.
  destruct (String.eqb realpath_dot "" || endswith_char "/" realpath_dot).
  - rewrite append_not_empty, endswith_char_app by done. simpl.
    by rewrite append_assoc.
  - rewrite append_not_empty, endswith_char_app by done. simpl.
    by rewrite !append_assoc.
Qed.

(** X12. Whatever the current directory is, a sub-command that takes a
    playbook and is not given [--playbook-path] (or [-p]) gets the
    playbook [provisioning/playbook.yml] of the current directory: the
    directory, one [/] unless the directory already ends with one (the
    root), and [provisioning/playbook.yml]. *)
Theorem default_playbook_in_any_directory (realpath_dot : string)
    (negative_number_matcher : string -> bool) (name : string)
    (args : list string) (ns : Namespace) :
  name ∈ playbook_commands ->
  Forall (fun t => names_option "--playbook-path" "-p" t = false) args ->
  parse_args negative_number_matcher new_parser (subparsers realpath_dot)
    (name :: args) = inr ns ->
  let separator :=
    if String.eqb realpath_dot "" || endswith_char "/" realpath_dot
    then "" else "/" in
  ns !! "playbook_path"
  = Some (PyStr (realpath_dot ++ separator ++ "provisioning/playbook.yml")).
Proof.
  intros Hname Hargs Hns separator. subst separator.
  rewrite (playbook_path_defaults realpath_dot negative_number_matcher
             name args ns Hname Hargs Hns).
  by rewrite default_playbook_path_shape.
Qed.

Lemma default_playbook_in_any_directory_witness :
  let separator := if String.eqb "/" "" || endswith_char "/" "/"
                   then "" else "/" in
  vagrant_arguments "validate" "/" "/provisioning/playbook.yml"
    !! "playbook_path"
  = Some (PyStr ("/" ++ separator ++ "provisioning/playbook.yml")).
Proof.
  apply (default_playbook_in_any_directory "/" ascii_negative_number
           "validate" []).
  - unfold playbook_commands. rewrite !elem_of_cons. tauto.
  - constructor.
  - vm_compute. reflexivity.
Defined.




(** * When the linter runs *)

(** In a trace, [ansible-lint] is the second process only, after a
    [vagrant validate] that exited with zero. *)
Definition lint_after_validate (w : world) (tr : list invocation) : Prop :=
  forall k i, tr !! k = Some i -> head (inv_cmd i) = Some "ansible-lint" ->
    k = 1%nat
    /\ exists vv, tr !! 0%nat = Some vv
                  /\ inv_cmd vv = ["vagrant"; "validate"]
                  /\ w [] vv = Exited 0.

Section linting.

#[local] Arguments spawn : simpl never.

Ltac ask_spawns :=
  repeat match goal with
         | |- context [spawn ?i ?w ?tr] =>
             let E := fresh "E" in
             destruct (spawn_cases i w tr) as [[E ->]|[(?&?&E&->)|[E ->]]];
             simpl
         end.

Ltac settle_lint :=
  let k := fresh "k" in
  let i := fresh "i" in
  let Hk := fresh "Hk" in
  let Hi := fresh "Hi" in
  intros k i Hk Hi;
  destruct k as [|[|[|k]]]; simpl in Hk; simplify_eq/=; try done;
  (split; [done|]); eexists; repeat split; done.

(** A function of one command other than the linter. *)
Lemma single_command_lint (verb : string) (rest : list pyval)
    (workdir : pyval) (w : world) :
  verb <> "ansible-lint" ->
  lint_after_validate w
    (fst (run_cmd_and_exit (PyStr verb :: rest) workdir w [])).
Proof.
  intros Hverb. rewrite run_cmd_and_exit_trace. unfold started. simpl.
  destruct (str_tokens rest), workdir; simpl;
    intros [|[|k]] i Hk Hi; simplify_eq/=.
Qed.

Lemma validate_lint (v1 v2 : pyval) (w : world) :
  lint_after_validate w (fst (validate v1 v2 w [])).
Proof.
  unfold validate, validate_vagrant, validate_ansible, run_cmd_and_exit,
    mbind, M_bind, bind.
  destruct v1, v2; simpl; ask_spawns; settle_lint.
Qed.

Lemma provision_lint (v1 v2 : pyval) (verb : string) (w : world) :
  lint_after_validate w
    (fst ((validate v1 v2;;
           run_cmd_and_exit [PyStr "vagrant"; PyStr verb] v1) w [])).
Proof.
  unfold validate, validate_vagrant, validate_ansible, run_cmd_and_exit,
    mbind, M_bind, bind.
  destruct v1, v2; simpl; ask_spawns; settle_lint.
Qed.

Lemma eval_call_lint (name : string) (kw : Namespace) (w : world) :
  name <> "validate_ansible" ->
  lint_after_validate w (fst (eval_call name kw w [])).
Proof.
  intros Hname. unfold eval_call.
  destruct (lookup_function name) as [f|] eqn:E;
    [|by intros [|k] i Hk].
  apply lookup_function_named in E. unfold module_functions in E.
  rewrite !elem_of_cons, elem_of_nil in E.
  repeat destruct E as [[= -> ->]|E]; try done;
    unfold call; simpl;
    repeat (case_match; try (by intros [|k] i Hk));
    first [ apply validate_lint
          | apply provision_lint
          | by apply single_command_lint ].
Qed.

End linting.

(** X14. Whatever the arguments and the outcomes of the processes, a run
    starts [ansible-lint] only as its second process, after a
    [vagrant validate] that exited with zero: the linter never runs
    first, never runs twice, and never runs on its own. *)
Theorem lint_only_after_vagrant_validate (realpath_dot : string)
    (negative_number_matcher : string -> bool) (w : world)
    (argv : list string) (k : nat) (i : invocation) :
  let tr := fst (run_program realpath_dot negative_number_matcher w argv) in
  tr !! k = Some i ->
  head (inv_cmd i) = Some "ansible-lint" ->
  k = 1%nat
  /\ exists vv, tr !! 0%nat = Some vv
                /\ inv_cmd vv = ["vagrant"; "validate"]
                /\ w [] vv = Exited 0.
Proof.
  intros tr. subst tr.
  destruct (run_program_cases realpath_dot negative_number_matcher w argv)
    as [(e & _ & ->)|[[_ ->]|
        (name & args & q & subns & ns & _ & Hq & _ & _ & _ & _ & ->)]];
    [by destruct k..|].
  assert (Hname : name <> "validate_ansible").
  { intros ->. apply lookup_parser_catalog in Hq. unfold catalog in Hq.
    rewrite !elem_of_cons, elem_of_nil in Hq.
    by repeat destruct Hq as [Hq|Hq]. }
  pose proof (eval_call_lint name ns w Hname) as Hlint.
  unfold try_except_NameError.
  destruct (eval_call name ns w []) as [tr [e|[]]]; simpl in *;
    [|by apply Hlint].
  destruct e; by apply Hlint.
Qed.

Lemma lint_only_after_vagrant_validate_witness :
  let tr := fst (run_program "/home/u/project" ascii_negative_number
                   all_succeed ["setup"]) in
  1%nat = 1%nat
  /\ exists vv, tr !! 0%nat = Some vv
                /\ inv_cmd vv = ["vagrant"; "validate"]
                /\ all_succeed [] vv = Exited 0.
Proof.
  apply (lint_only_after_vagrant_validate "/home/u/project"
           ascii_negative_number all_succeed ["setup"] 1
           (Invocation ["ansible-lint";
                        "/home/u/project/provisioning/playbook.yml"] None));
    reflexivity.
Defined.

(** * No sub-command, or an unknown one: the exit *)

(** C5, as the code has it. For every input whose first argument is not
    a name of the catalog, and for the input without arguments, the
    program starts no process. It exits with status 2 when there is no
    argument ("You must choose a subcommand!"), when the first argument
    is not an option, whatever follows it, even [--help] (the name is an
    invalid choice), and when no argument string asks for the help
    ([-h], [--help] or an abbreviation of it). Only for a first argument
    that is an option, and with an argument that asks for the help, can
    the program leave with status 0, after the help was printed. *)
Theorem unknown_subcommand_exits (realpath_dot : string)
    (negative_number_matcher : string -> bool) (w : world)
    (argv : list string) :
  (forall name, head argv = Some name -> name ∉ catalog) ->
  let run := run_program realpath_dot negative_number_matcher w argv in
  fst run = []
  /\ (argv = [] -> snd run = inl (SystemExit 2 MustChooseSubcommand))
  /\ (forall name, head argv = Some name -> startswith name "-" = false ->
      snd run = inl (SystemExit 2 (InvalidChoice name)))
  /\ (Forall (fun t => help_like t = false) argv ->
      exists d, snd run = inl (SystemExit 2 d))
  /\ (help_formats (playbook_help realpath_dot) = true ->
      exists e, snd run = inl e /\ parser_exit e).
Proof.
  intros Hname run.
  assert (Hplain : forall name, head argv = Some name ->
            startswith name "-" = false ->
            run = ([], inl (SystemExit 2 (InvalidChoice name)))).
  { intros name Hhead Hn. destruct argv as [|name' rest]; [done|].
    injection Hhead as ->. subst run.
    unfold run_program, main, mbind, M_bind, bind.
    rewrite (parse_args_subcommand _ _ _ _ Hn). unfold subparsers_call.
    destruct (lookup_parser (subparsers realpath_dot) name) as [p|] eqn:Hl;
      [|done].
    destruct (Hname name eq_refl). by eapply lookup_parser_catalog. }
  destruct (run_program_cases realpath_dot negative_number_matcher w argv)
    as [(e & He & Hr)|[[-> Hr]|(name & args' & p & subns & ns & ->
                                & Hl & _)]];
    try (fold run in Hr).
  - rewrite Hr. simpl. split; [done|].
    split; [intros ->; vm_compute in He; discriminate He|].
    split; [|split].
    + intros name Hhead Hn. rewrite (Hplain name Hhead Hn) in Hr.
      by injection Hr as <-.
    + intros HF.
      destruct (parse_args_exits _ _ _ _ _ He) as [|d Hd]; [|by eexists].
      apply parse_args_help in He.
      apply Exists_exists in He as (t & Hin & Ht).
      rewrite Forall_forall in HF. specialize (HF _ Hin). congruence.
    + intros _. exists e. split; [done|]. by eapply parse_args_exits.
  - rewrite Hr. simpl. repeat split; try done.
    + by eexists.
    + intros _. eexists. split; [reflexivity|]. by apply exit_error.
  - exfalso. apply (Hname name eq_refl).
    by eapply lookup_parser_catalog.
Qed.

Lemma unknown_subcommand_exits_witness :
  let run := run_program "/home/u/project" ascii_negative_number all_succeed
                         ["deploy"; "--help"] in
  fst run = []
  /\ (["deploy"; "--help"] = [] ->
      snd run = inl (SystemExit 2 MustChooseSubcommand))
  /\ (forall name, head ["deploy"; "--help"] = Some name ->
      startswith name "-" = false ->
      snd run = inl (SystemExit 2 (InvalidChoice name)))
  /\ (Forall (fun t => help_like t = false) ["deploy"; "--help"] ->
      exists d, snd run = inl (SystemExit 2 d))
  /\ (help_formats (playbook_help "/home/u/project") = true ->
      exists e, snd run = inl e /\ parser_exit e).
Proof.
  apply (unknown_subcommand_exits "/home/u/project" ascii_negative_number
           all_succeed ["deploy"; "--help"]).
  intros name [= <-]. unfold catalog. rewrite !elem_of_cons, elem_of_nil.
  intros H. repeat destruct H as [H|H]; done.
Defined.

Example unknown_name_before_help :
  run_program "/home/u/project" ascii_negative_number all_succeed
              ["deploy"; "--help"]
  = ([], inl (SystemExit 2 (InvalidChoice "deploy"))).
Proof. vm_compute. reflexivity. Qed.

(** * Working directories: what each action starts *)



Section actions.

#[local] Arguments spawn : simpl never.

Ltac ask_spawns :=
  repeat match goal with
         | |- context [spawn ?i ?w ?tr] =>
             let E := fresh "E" in
             destruct (spawn_cases i w tr) as [[E ->]|[(?&?&E&->)|[E ->]]];
             simpl
         end.





End actions.




Example destroy_starts_vagrant (w : world) :
  fst (run_program "/home/u/project" ascii_negative_number w
         ["destroy"; "-f"; "/srv/vm"])
  = [Invocation ["vagrant"; "destroy"] (Some "/srv/vm")].
Proof.
  assert (Hd : lookup_function "destroy"
               = Some (Def1 "vagrantfile_path" true
                         (run_cmd_and_exit VAGRANT_DESTROY_CMD)))
    by reflexivity.
  by rewrite (run_program_trace _ _ _ _ _ _ _ Hd).
Qed.
